(** * Contract-intelligence RAG core: chunker, filter evaluator, vector
      indexer and query engine.

    Shallow embedding of [src/ai/rag/faiss_indexer.py] and
    [src/ai/rag/faiss_query.py].

    Conventions of the embedding:
    - Python [str] is [string]; a character is a code point below 256.
    - Python [int] is [Z]; a [float] score or confidence is the
      rational [Qc] it denotes, and comparisons of floats are
      comparisons of these rationals. The rescoring of
      [_merge_results], which computes with a score and two float
      literals, is evaluated in IEEE 754 binary64 (module [Float64]);
      a quotient of two integers (the keyword ratio, a mean) is kept
      as the exact quotient, which the rescoring rounds when it reads
      it.
    - [dict] keyed by an index position is [gmap Z _]; a [set] of ids
      is a [gset string].
    - a caught exception is an explicit error value; [None] is [option].
    - the embedding model, [faiss.normalize_L2], the inner product and
      the chat-completion client are collaborators of the code and enter
      as [Section] variables. *)

From Stdlib Require Import Ascii QArith Qcanon.
From Stdlib Require Floats.SpecFloat.
From stdpp Require Import gmap strings list fin_maps numbers pretty sorting.

Local Open Scope Z_scope.
Set Warnings "-register-all".

(** ** Python string primitives used by the sources *)
Module Py.

Definition chars (s : string) : list ascii := String.list_ascii_of_string s.
Definition str (l : list ascii) : string := String.string_of_list_ascii l.

(** [len(s)] *)
Definition len (l : list ascii) : Z := Z.of_nat (length l).

(** Index normalisation of a slice bound: a negative bound counts from
      the end, and every bound is clamped to [0 .. len]. *)
Definition clamp (n i : Z) : Z :=
    if i <? 0 then Z.max 0 (n + i) else Z.min i n.

(** [l[i:j]] *)
Definition slice (l : list ascii) (i j : Z) : list ascii :=
    let lo := clamp (len l) i in
    let hi := clamp (len l) j in
    take (Z.to_nat (hi - lo)) (drop (Z.to_nat lo) l).

(** [str.isspace] on a single code point below 256. *)
Definition is_space (c : ascii) : bool :=
    let n := nat_of_ascii c in
    ((9 <=? n) && (n <=? 13) || (28 <=? n) && (n <=? 32)
     || (n =? 133) || (n =? 160))%nat.

Fixpoint lstrip (l : list ascii) : list ascii :=
    match l with
    | c :: l' => if is_space c then lstrip l' else l
    | [] => []
    end.

Definition rstrip (l : list ascii) : list ascii := rev (lstrip (rev l)).

(** [s.strip()] *)
Definition strip (l : list ascii) : list ascii := rstrip (lstrip l).

(** [s.rfind(c)] for a one-character needle: the highest index holding
      [c], or [-1]. [i] is the index of the head of [l], [acc] the best
      index seen so far. *)
Fixpoint rfind_from (c : ascii) (l : list ascii) (i acc : Z) : Z :=
    match l with
    | [] => acc
    | x :: l' => rfind_from c l' (i + 1) (if Ascii.eqb x c then i else acc)
    end.

Definition rfind (c : ascii) (l : list ascii) : Z := rfind_from c l 0 (-1).

(** Truthiness of a string: [if chunk:] *)
Definition truthy (l : list ascii) : bool :=
    match l with [] => false | _ => true end.

(** [s[:n]] on a list: a negative bound counts from the end. *)
Definition take_upto {A} (n : Z) (l : list A) : list A :=
  if n <? 0 then take (Z.to_nat (Z.of_nat (length l) + n)) l
  else take (Z.to_nat n) l.

(** [str.lower] on a single code point below 256. *)
Definition lower_char (c : ascii) : ascii :=
  let n := nat_of_ascii c in
  if ((65 <=? n) && (n <=? 90)
      || (192 <=? n) && (n <=? 222) && negb (n =? 215))%nat
  then ascii_of_nat (n + 32) else c.

Definition lower (l : list ascii) : list ascii := map lower_char l.

(** [s.split()]: the maximal runs of non-whitespace characters. [cur]
    holds the current run, reversed. *)
Fixpoint split_from (l : list ascii) (cur : list ascii) : list (list ascii) :=
  match l with
  | [] => match cur with [] => [] | _ => [rev cur] end
  | c :: l' =>
      if is_space c
      then match cur with
           | [] => split_from l' []
           | _ => rev cur :: split_from l' []
           end
      else split_from l' (c :: cur)
  end.

Definition split (l : list ascii) : list (list ascii) := split_from l [].

Fixpoint is_prefix (p l : list ascii) : bool :=
  match p, l with
  | [], _ => true
  | _ :: _, [] => false
  | a :: p', b :: l' => Ascii.eqb a b && is_prefix p' l'
  end.

(** [p in s] for strings: [p] occurs as a contiguous substring. *)
Fixpoint is_infix (p l : list ascii) : bool :=
  is_prefix p l || match l with [] => false | _ :: l' => is_infix p l' end.

(** ** Exceptions: a call either returns a value or raises. *)
Inductive exn : Type :=
| TypeError | AttributeError | KeyError | ValidationError
| EmbeddingError | CompletionError.

Inductive outcome (A : Type) : Type :=
| Returns (a : A)
| Raises (e : exn).
Global Arguments Returns {A} a.
Global Arguments Raises {A} e.

Global Instance outcome_ret : MRet outcome := fun A a => Returns a.
Global Instance outcome_bind : MBind outcome := fun A B f m =>
  match m with Returns a => f a | Raises e => Raises e end.
Global Instance outcome_fmap : FMap outcome := fun A B f m =>
  match m with Returns a => Returns (f a) | Raises e => Raises e end.

(** ** Python values held in metadata and filter dictionaries *)
Inductive pyval : Type :=
| PNone
| PBool (b : bool)
| PInt (n : Z)
| PFloat (q : Qc)
| PStr (s : string)
| PDate (t : Z)
| PList (l : list pyval)
| PDict (d : list (string * pyval)).

(** [d.get(k)] on the entries of a dictionary. *)
Fixpoint dict_get (d : list (string * pyval)) (k : string) : option pyval :=
  match d with
  | [] => None
  | (k', v) :: d' => if String.eqb k' k then Some v else dict_get d' k
  end.

(** [d[k] = v]: an existing key keeps its position. *)
Fixpoint dict_set {V} (d : list (string * V)) (k : string) (v : V)
  : list (string * V) :=
  match d with
  | [] => [(k, v)]
  | (k', v') :: d' =>
      if String.eqb k' k then (k, v) :: d' else (k', v') :: dict_set d' k v
  end.

(** The numeric value of a [bool], [int] or [float]. *)
Definition as_number (v : pyval) : option Qc :=
  match v with
  | PBool b => Some (if b then 1%Qc else 0%Qc)
  | PInt n => Some (Q2Qc (inject_Z n))
  | PFloat q => Some q
  | _ => None
  end.

(** [a == b] *)
Fixpoint py_eq (a b : pyval) : bool :=
  match a, b with
  | PNone, PNone => true
  | PStr s, PStr t => String.eqb s t
  | PDate s, PDate t => s =? t
  | PList l1, PList l2 =>
      (fix go (l1 l2 : list pyval) : bool :=
         match l1, l2 with
         | [], [] => true
         | x :: l1', y :: l2' => py_eq x y && go l1' l2'
         | _, _ => false
         end) l1 l2
  | PDict d1, PDict d2 =>
      (length d1 =? length d2)%nat &&
      (fix go (d : list (string * pyval)) : bool :=
         match d with
         | [] => true
         | (k, v) :: d' =>
             match dict_get d2 k with
             | Some v' => py_eq v v'
             | None => false
             end && go d'
         end) d1
  | _, _ =>
      match as_number a, as_number b with
      | Some x, Some y => bool_decide (x = y)
      | _, _ => false
      end
  end.

(** [a < b]; values of unrelated types are not comparable. *)
Fixpoint py_lt (a b : pyval) : outcome bool :=
  match a, b with
  | PStr s, PStr t => Returns (String.ltb s t)
  | PDate s, PDate t => Returns (s <? t)
  | PList l1, PList l2 =>
      (fix go (l1 l2 : list pyval) : outcome bool :=
         match l1, l2 with
         | [], [] => Returns false
         | [], _ :: _ => Returns true
         | _ :: _, [] => Returns false
         | x :: l1', y :: l2' => if py_eq x y then go l1' l2' else py_lt x y
         end) l1 l2
  | _, _ =>
      match as_number a, as_number b with
      | Some x, Some y => Returns (bool_decide (x < y)%Qc)
      | _, _ => Raises TypeError
      end
  end.

(** [a > b] *)
Definition py_gt (a b : pyval) : outcome bool := py_lt b a.

(** [x in l] for a list [l] *)
Definition py_in (x : pyval) (l : list pyval) : bool := existsb (py_eq x) l.

(** [x in c]: membership in a list, substring of a string, key of a
    dictionary; any other container is not iterable. *)
Definition py_contains (c x : pyval) : outcome bool :=
  match c with
  | PList l => Returns (py_in x l)
  | PStr s =>
      match x with
      | PStr t => Returns (is_infix (chars t) (chars s))
      | _ => Raises TypeError
      end
  | PDict d =>
      match x with
      | PStr k => Returns (bool_decide (is_Some (dict_get d k)))
      | PList _ | PDict _ => Raises TypeError
      | _ => Returns false
      end
  | _ => Raises TypeError
  end.

(** [v.get(k, default)]: only a dictionary has [get]. *)
Definition py_get (v : pyval) (k : string) (default_ : pyval) : outcome pyval :=
  match v with
  | PDict d => Returns (default default_ (dict_get d k))
  | _ => Raises AttributeError
  end.

(** [v[k]] with a string subscript. *)
Definition py_getitem (v : pyval) (k : string) : outcome pyval :=
  match v with
  | PDict d =>
      match dict_get d k with Some x => Returns x | None => Raises KeyError end
  | _ => Raises TypeError
  end.

(** Truth value of an object. *)
Definition py_truthy (v : pyval) : bool :=
  match v with
  | PNone => false
  | PBool b => b
  | PInt n => negb (n =? 0)
  | PFloat q => negb (bool_decide (q = 0%Qc))
  | PStr s => negb (String.eqb s "")
  | PDate _ => true
  | PList l => match l with [] => false | _ => true end
  | PDict d => match d with [] => false | _ => true end
  end.

End Py.

(** ** [FAISSIndexer._chunk_text] *)
Module Chunker.
Import Py.

Definition default_chunk_size : Z := 512.
Definition default_overlap : Z := 50.

(** [max(chunk_text.rfind('.'), chunk_text.rfind('!'), chunk_text.rfind('?'))] *)
Definition last_sentence_end (chunk_text : list ascii) : Z :=
  Z.max (Z.max (rfind "." chunk_text) (rfind "!" chunk_text))
        (rfind "?" chunk_text).

(** The value of [end] when the slice is taken: the tentative end
    [start + chunk_size], moved back to just after the last sentence
    terminator when the tentative end is interior to the text and
    [last_sentence_end > chunk_size * 0.5]. The comparison of the
    integer with the float is exact, so it is [chunk_size < 2 * last]. *)
Definition cut_end (text : list ascii) (chunk_size start : Z) : Z :=
  let end_ := start + chunk_size in
  if end_ <? len text then
    let chunk_text := slice text start end_ in
    if chunk_size <? 2 * last_sentence_end chunk_text
    then start + last_sentence_end chunk_text + 1
    else end_
  else end_.

(** The [while start < len(text)] loop. [fuel] bounds the number of
      iterations; [None] means the bound was hit. The result lists the
      chunks appended from this iteration on. *)
Fixpoint chunk_loop (fuel : nat) (text : list ascii)
      (chunk_size overlap start : Z) : option (list (list ascii)) :=
    match fuel with
    | O => None
    | S fuel' =>
        if start <? len text then
          let end_ := cut_end text chunk_size start in
          let chunk := strip (slice text start end_) in
          let start' := end_ - overlap in
          let rest :=
            if len text <=? start' then Some []
            else chunk_loop fuel' text chunk_size overlap start' in
          (fun chunks => if truthy chunk then chunk :: chunks else chunks)
            <$> rest
        else Some []
    end.

(** [_chunk_text(text, chunk_size, overlap)] *)
Definition _chunk_text_with (fuel : nat) (text : string)
      (chunk_size overlap : Z) : option (list string) :=
    if len (chars text) <=? chunk_size then Some [text]
    else (map str) <$> chunk_loop fuel (chars text) chunk_size overlap 0.

(** The call with the default arguments, as [add_documents] makes it;
      one iteration per character is always enough fuel (see
      [chunk_text_total]). *)
Definition _chunk_text (text : string) : option (list string) :=
    _chunk_text_with (S (String.length text)) text
                     default_chunk_size default_overlap.

(** The character windows [(start, end)] the loop visits, in order:
      the same recursion as [chunk_loop], recording the bounds instead
      of the stripped slice. *)
Fixpoint windows (fuel : nat) (text : list ascii)
      (chunk_size overlap start : Z) : option (list (Z * Z)) :=
    match fuel with
    | O => None
    | S fuel' =>
        if start <? len text then
          let end_ := cut_end text chunk_size start in
          let start' := end_ - overlap in
          let rest :=
            if len text <=? start' then Some []
            else windows fuel' text chunk_size overlap start' in
          (fun ws => (start, end_) :: ws) <$> rest
        else Some []
    end.

Definition window_text (text : list ascii) (w : Z * Z) : list ascii :=
    slice text w.1 w.2.

(** A sentence terminator: ['.'], ['!'] or ['?']. *)
Definition is_terminator (c : ascii) : bool :=
    Ascii.eqb c "." || Ascii.eqb c "!" || Ascii.eqb c "?".

(** [p] is the position of the last sentence terminator of [w]. *)
Definition last_terminator (w : list ascii) (p : Z) : Prop :=
    0 <= p /\
    (exists c, w !! Z.to_nat p = Some c /\ is_terminator c = true) /\
    (forall q c, p < q -> w !! Z.to_nat q = Some c -> is_terminator c = false).

Definition no_terminator (w : list ascii) : Prop :=
    forall c, c ∈ w -> is_terminator c = false.

(** *** Notions used to state the chunker's properties *)

(** Every pair of neighbours of a list is related by [P]. *)
Definition adjacent {A} (P : A -> A -> Prop) (l : list A) : Prop :=
  forall (i : nat) a b, l !! i = Some a -> l !! S i = Some b -> P a b.

(** [a] ends with, and [b] starts with, a common non-empty region of
    at most [overlap] characters. *)
Definition shares_overlap (overlap : Z) (a b : list ascii) : Prop :=
  exists o, (1 <= length o)%nat /\ Z.of_nat (length o) <= overlap /\
            o `suffix_of` a /\ o `prefix_of` b.

Definition no_whitespace (text : list ascii) : Prop :=
  forall c, c ∈ text -> is_space c = false.

(** The chunk property as the specification words it. *)
Definition chunks_overlap_claim (text : string) : Prop :=
  exists chunks,
    _chunk_text text = Some chunks /\
    (2 <= length chunks)%nat /\
    Forall (fun c => c <> ""%string) chunks /\
    adjacent (fun a b => shares_overlap default_overlap (chars a) (chars b))
             chunks.

(** The cut rule with the threshold read as "at or past 50%". *)
Definition cut_at_or_past_half_claim (text : list ascii) (cs ov : Z) : Prop :=
  forall ws w p,
    windows (S (length text)) text cs ov 0 = Some ws ->
    w ∈ ws -> w.1 + cs < len text ->
    last_terminator (slice text w.1 (w.1 + cs)) p ->
    cs <= 2 * p -> w.2 = w.1 + p + 1.

(** Sample texts. *)
Definition text_a_then_spaces : string :=
  str ("a"%char :: repeat " "%char 512).
Definition text_600 : string := str (repeat "x"%char 600).
Definition text_stop_at_half : list ascii :=
  repeat "a"%char 256 ++ "."%char :: repeat "b"%char 300.
Definition text_stop_past_half : list ascii :=
  repeat "a"%char 300 ++ "."%char :: repeat "b"%char 300.

End Chunker.


(** ** [FAISSIndexer]: chunk store, filter evaluator and index operations *)
Module Indexer.
Import Py.

(** A document handed to [add_documents]; an absent key is [None]
    (or [PNone] where the code reads it with a [None] default). *)
Record document : Type := {
  doc_document_id : option string;
  doc_content : option string;
  doc_title : option string;
  doc_metadata : option pyval;
  doc_document_type : option string;
  doc_timestamp : pyval }.

(** The per-chunk dictionary kept in [document_store]. *)
Record chunk_metadata : Type := {
  document_id : string;
  chunk_id : string;
  chunk_index : Z;
  content : string;
  title : string;
  metadata : pyval;
  document_type : option string;
  timestamp : pyval }.

(** One entry of a result list of [search] or [_keyword_search]. *)
Record search_result : Type := {
  r_document_id : string;
  r_chunk_id : string;
  r_content : string;
  r_title : string;
  r_score : Qc;
  r_metadata : pyval;
  r_document_type : option string;
  r_timestamp : pyval }.

Definition opt_str (o : option string) : pyval :=
  match o with Some s => PStr s | None => PNone end.

(** A filter set: the items of the [filters] dictionary, in order. *)
Definition filter_set : Type := list (string * pyval).

(** One iteration of the loop of [_match_filters]: [Returns false] is
    [return False], [Returns true] falls through to the next filter. *)
Definition check_filter (document_metadata : chunk_metadata)
    (filter_key : string) (filter_value : pyval) : outcome bool :=
  let metadata := metadata document_metadata in
  if String.eqb filter_key "project_ids" then
    project_id ← py_get metadata "project_id" PNone;
    py_contains filter_value project_id
  else if String.eqb filter_key "contractors" then
    contractor ← py_get metadata "contractor" PNone;
    py_contains filter_value contractor
  else if String.eqb filter_key "statuses" then
    status ← py_get metadata "status" PNone;
    py_contains filter_value status
  else if String.eqb filter_key "document_types" then
    py_contains filter_value (opt_str (document_type document_metadata))
  else if String.eqb filter_key "categories" then
    category ← py_get metadata "category" PNone;
    py_contains filter_value category
  else if String.eqb filter_key "confidence_min" then
    confidence ← py_get metadata "confidence" (PFloat 1);
    below ← py_lt confidence filter_value;
    mret (negb below)
  else if String.eqb filter_key "date_range" then
    let timestamp := timestamp document_metadata in
    if py_truthy timestamp then
      has_start ← py_contains filter_value (PStr "start");
      early ← (if has_start : bool
               then start ← py_getitem filter_value "start";
                    py_lt timestamp start
               else mret false);
      if early : bool then mret false
      else
        has_end ← py_contains filter_value (PStr "end");
        late ← (if has_end : bool
                then end_ ← py_getitem filter_value "end";
                     py_gt timestamp end_
                else mret false);
        mret (negb late)
    else mret true
  else mret true.

(** The [try] block of [_match_filters]. *)
Fixpoint match_filters_body (document_metadata : chunk_metadata)
    (filters : filter_set) : outcome bool :=
  match filters with
  | [] => Returns true
  | (filter_key, filter_value) :: rest =>
      ok ← check_filter document_metadata filter_key filter_value;
      if ok : bool then match_filters_body document_metadata rest
      else Returns false
  end.

(** [_match_filters]: any exception of the block yields [False]. *)
Definition _match_filters (document_metadata : chunk_metadata)
    (filters : filter_set) : bool :=
  match match_filters_body document_metadata filters with
  | Returns b => b
  | Raises _ => false
  end.

(** The five list-valued filter keys and the field each one reads. *)
Definition membership_keys : list string :=
  ["project_ids"; "contractors"; "statuses"; "document_types"; "categories"]%string.

(** The chunk's field for a membership key, [None] when the chunk does
    not have it. *)
Definition chunk_field (dm : chunk_metadata) (filter_key : string)
  : option pyval :=
  if String.eqb filter_key "document_types"
  then PStr <$> document_type dm
  else
    let field :=
      if String.eqb filter_key "project_ids" then "project_id"
      else if String.eqb filter_key "contractors" then "contractor"
      else if String.eqb filter_key "statuses" then "status"
      else "category" in
    match metadata dm with
    | PDict d => dict_get d field
    | _ => None
    end%string.

(** The chunk store has a usable metadata dictionary for the key. *)
Definition field_readable (dm : chunk_metadata) (filter_key : string) : bool :=
  String.eqb filter_key "document_types" ||
  match metadata dm with PDict _ => true | _ => false end.

(** *** Notions used to state the filter evaluator's properties *)

(** A filter set whose values are all lists. *)
Definition list_filters (fs : list (string * list pyval)) : filter_set :=
  map (fun kl => (kl.1, PList kl.2)) fs.

(** Membership as the specification words it: the chunk's field value
    is in the list, and a chunk lacking the field fails. *)
Definition stated_member (dm : chunk_metadata) (filter_key : string)
    (l : list pyval) : bool :=
  match chunk_field dm filter_key with
  | Some v => py_in v l
  | None => false
  end.

(** Membership as the code evaluates it: a missing field reads as
    [None], and that value is looked up in the list. *)
Definition read_member (dm : chunk_metadata) (filter_key : string)
    (l : list pyval) : bool :=
  field_readable dm filter_key &&
  py_in (default PNone (chunk_field dm filter_key)) l.

Definition membership_claim (dm : chunk_metadata)
    (fs : list (string * list pyval)) : Prop :=
  Forall (fun kl => kl.1 ∈ membership_keys) fs ->
  (_match_filters dm (list_filters fs) = true <->
   Forall (fun kl => stated_member dm kl.1 kl.2 = true) fs).

(** Sample chunks. *)
Definition chunk_plain : chunk_metadata :=
  {| document_id := "D1"; chunk_id := "D1"; chunk_index := 0;
     content := "monthly payment reports"; title := "Contract";
     metadata := PDict []; document_type := None; timestamp := PNone |}.

Definition chunk_project_P1 : chunk_metadata :=
  {| document_id := "D1"; chunk_id := "D1"; chunk_index := 0;
     content := "monthly payment reports"; title := "Contract";
     metadata := PDict [("project_id", PStr "P1")]%string;
     document_type := Some "contract"%string; timestamp := PDate 20240101 |}.

Definition chunk_text_confidence : chunk_metadata :=
  {| document_id := "D2"; chunk_id := "D2"; chunk_index := 0;
     content := "penalty clause"; title := "Annex";
     metadata := PDict [("confidence", PStr "high")]%string;
     document_type := None; timestamp := PDate 20240101 |}.


(** The state of the indexer object: the FAISS index (its rows, in
    insertion order) and the chunk store. *)
Record indexer (vec : Type) : Type := {
  index : option (list vec);
  document_store : gmap Z chunk_metadata }.
Global Arguments index {vec} _.
Global Arguments document_store {vec} _.
Global Arguments Build_indexer {vec} _ _.

(** The state left by [__init__], or by a failed or absent load. *)
Definition empty_indexer {vec} : indexer vec :=
  {| index := None; document_store := ∅ |}.

(** [self.index.ntotal if self.index else 0] *)
Definition ntotal {vec} (st : indexer vec) : Z :=
  match index st with Some rows => Z.of_nat (length rows) | None => 0 end.

(** The items of the chunk store in insertion order. Keys are handed
    out in increasing order, so this is the order of the keys. *)
Definition key_le (a b : Z * chunk_metadata) : Prop := a.1 <= b.1.
Global Instance key_le_dec : RelDecision key_le :=
  fun a b => Z_le_dec a.1 b.1.
Definition store_items (store : gmap Z chunk_metadata)
  : list (Z * chunk_metadata) :=
  merge_sort key_le (map_to_list store).

Definition chunks_of (content : string) : list string :=
  match Chunker._chunk_text content with Some chunks => chunks | None => [] end.

(** The chunk dictionaries [add_documents] builds for one document. *)
Definition document_chunks (doc : document) : list chunk_metadata :=
  match doc_document_id doc with
  | None => []
  | Some document_id =>
      let content := default ""%string (doc_content doc) in
      if String.eqb document_id "" || String.eqb content "" then []
      else
        let chunks := chunks_of content in
        imap (fun i chunk =>
          {| document_id := document_id;
             chunk_id :=
               if (1 <? Z.of_nat (length chunks))
               then document_id +:+ "_chunk_" +:+ pretty i
               else document_id;
             chunk_index := Z.of_nat i;
             content := chunk;
             title := default ""%string (doc_title doc);
             metadata := default (PDict []) (doc_metadata doc);
             document_type := doc_document_type doc;
             timestamp := doc_timestamp doc |}) chunks
  end.

(** [for i, metadata in enumerate(document_metadata):
       self.document_store[start_index + i] = metadata] *)
Fixpoint register (store : gmap Z chunk_metadata) (index_id : Z)
    (document_metadata : list chunk_metadata) : gmap Z chunk_metadata :=
  match document_metadata with
  | [] => store
  | metadata :: rest => register (<[index_id := metadata]> store) (index_id + 1) rest
  end.

Section WithModel.
Context {vec : Type}.
(** The embedding model: one text to one vector, or a fault. *)
Variable encode : string -> outcome vec.
(** [faiss.normalize_L2] on one vector. *)
Variable normalize_L2 : vec -> vec.
(** [IndexFlatIP.search]: rows, query vector and [k] to the best
    [(score, row)] pairs, best first; a missing hit has row [-1]. The
    library call may raise. *)
Variable index_search : list vec -> vec -> Z -> outcome (list (Qc * Z)).

Definition _embed_text (text : string) : outcome vec := encode text.

(** The batch call: row [i] is the vector of text [i]; a fault on any
    text fails the batch. *)
Fixpoint _embed_texts (texts : list string) : outcome (list vec) :=
  match texts with
  | [] => Returns []
  | t :: texts' =>
      v ← encode t; vs ← _embed_texts texts'; mret (v :: vs)
  end.

(** [add_documents]: the new state and the number of chunks embedded.
    A raised exception leaves the state as it was. *)
Definition add_documents (st : indexer vec) (documents : list document)
  : outcome (indexer vec * Z) :=
  match documents with
  | [] => Returns (st, 0)
  | _ =>
      let document_metadata := flat_map document_chunks documents in
      let texts_to_embed := map content document_metadata in
      match texts_to_embed with
      | [] => Returns (st, 0)
      | _ =>
          embeddings ← _embed_texts texts_to_embed;
          let rows := default [] (index st) in
          let start_index := Z.of_nat (length rows) in
          mret ({| index := Some (rows ++ embeddings);
                   document_store :=
                     register (document_store st) start_index document_metadata |},
                Z.of_nat (length texts_to_embed))
      end
  end.

(** The vector [search] hands to the index for a query. *)
Definition query_vector (query : string) : outcome vec :=
  query_embedding ← _embed_text query;
  mret (normalize_L2 query_embedding).

Definition make_result (score : Qc) (dm : chunk_metadata) : search_result :=
  {| r_document_id := document_id dm; r_chunk_id := chunk_id dm;
     r_content := content dm; r_title := title dm; r_score := score;
     r_metadata := metadata dm; r_document_type := document_type dm;
     r_timestamp := timestamp dm |}.

Definition filters_truthy (filters : option filter_set) : bool :=
  match filters with Some (_ :: _) => true | _ => false end.

Definition filters_pass (filters : option filter_set) (dm : chunk_metadata) : bool :=
  match filters with
  | Some (f :: fs) => _match_filters dm (f :: fs)
  | _ => true
  end.

(** The result loop of [search] over the hits returned by the index. *)
Fixpoint collect (store : gmap Z chunk_metadata) (filters : option filter_set)
    (k : Z) (hits : list (Qc * Z)) (results : list search_result)
  : list search_result :=
  match hits with
  | [] => results
  | (score, idx) :: hits' =>
      if idx =? -1 then collect store filters k hits' results
      else match store !! idx with
           | None => collect store filters k hits' results
           | Some dm =>
               if negb (filters_pass filters dm)
               then collect store filters k hits' results
               else
                 let results' := results ++ [make_result score dm] in
                 if k <=? Z.of_nat (length results') then results'
                 else collect store filters k hits' results'
           end
  end.

(** [search] *)
Definition search (st : indexer vec) (query : string) (k : Z)
    (filters : option filter_set) : outcome (list search_result) :=
  match index st with
  | None => Returns []
  | Some rows =>
      if Z.of_nat (length rows) =? 0 then Returns []
      else
        query_embedding ← query_vector query;
        let search_k := Z.min (k * 2) (Z.of_nat (length rows)) in
        hits ← index_search rows query_embedding search_k;
        mret (collect (document_store st) filters k hits [])
  end.

(** [delete_documents]: the new state and the number of entries removed. *)
Definition delete_documents (st : indexer vec) (document_ids : list string)
  : indexer vec * Z :=
  match index st with
  | None => (st, 0)
  | Some _ =>
      let indices_to_remove :=
        (filter (fun kv => document_id kv.2 ∈ document_ids)
                (store_items (document_store st))).*1 in
      match indices_to_remove with
      | [] => (st, 0)
      | _ =>
          let '(store, deleted_count) :=
            foldl (fun '(store, n) index_id =>
                     match store !! index_id with
                     | Some _ => (delete index_id store, n + 1)
                     | None => (store, n)
                     end)
                  (document_store st, 0) indices_to_remove in
          ({| index := index st; document_store := store |}, deleted_count)
      end
  end.

(** The statistics of [get_index_stats] that depend on the state. *)
Record index_stats : Type := {
  total_vectors : Z;
  active_documents : Z;
  total_chunks : Z }.

(** [set(metadata["document_id"] for metadata in document_store.values())] *)
Definition active_document_ids (st : indexer vec) : gset string :=
  list_to_set (map (fun kv => document_id kv.2) (map_to_list (document_store st))).

Definition get_index_stats (st : indexer vec) : index_stats :=
  {| total_vectors := ntotal st;
     active_documents := Z.of_nat (size (active_document_ids st));
     total_chunks := Z.of_nat (size (document_store st)) |}.

(** The calls that change the state. *)
Inductive op : Type :=
| Add (documents : list document)
| Delete (document_ids : list string).

Definition step (st : indexer vec) (o : op) : indexer vec :=
  match o with
  | Add documents =>
      match add_documents st documents with
      | Returns (st', _) => st'
      | Raises _ => st
      end
  | Delete document_ids => (delete_documents st document_ids).1
  end.

Definition run (st : indexer vec) (ops : list op) : indexer vec :=
  foldl step st ops.

(** The states the object can be in: the empty one, one restored by
    [_load_index] from a pair of snapshot files, and what the mutating
    calls make of them. *)
Inductive reachable : indexer vec -> Prop :=
| reachable_empty : reachable empty_indexer
| reachable_loaded rows store :
    reachable {| index := Some rows; document_store := store |}
| reachable_step st o : reachable st -> reachable (step st o).

(** Positional alignment of the chunk store with the index rows. *)
Definition aligned (st : indexer vec) : Prop :=
  forall p dm,
    document_store st !! p = Some dm ->
    0 <= p < ntotal st /\
    exists v, default [] (index st) !! Z.to_nat p = Some v /\
              encode (content dm) = Returns v.

End WithModel.
(** *** A one-dimensional embedding model, used for concrete runs *)

(** A model whose vectors have dimension 1 and length 2. *)
Definition encode_two (text : string) : outcome Qc := Returns (Q2Qc 2).

(** A model that fails on every call. *)
Definition encode_fault (text : string) : outcome Qc := Raises EmbeddingError.

(** L2 normalisation in dimension 1: [x / |x|], zero left alone. *)
Definition normalize_1d (x : Qc) : Qc :=
  if bool_decide (x = 0)%Qc then x
  else if bool_decide (0 <= x)%Qc then (x / x)%Qc else (x / - x)%Qc.

(** Exhaustive inner-product search in dimension 1, rows in index
    order (enough for indexes with a single row). *)
Definition flat_search_1d (rows : list Qc) (q : Qc) (k : Z)
  : outcome (list (Qc * Z)) :=
  Returns (take (Z.to_nat k) (imap (fun i r => ((r * q)%Qc, Z.of_nat i)) rows)).

Definition doc_D1 : document :=
  {| doc_document_id := Some "D1"%string;
     doc_content := Some "monthly payment reports"%string;
     doc_title := Some "Contract"%string;
     doc_metadata := Some (PDict []);
     doc_document_type := None;
     doc_timestamp := PNone |}.

(** The state after [add_documents([doc_D1])] on a fresh indexer. *)
Definition indexer_D1 : indexer Qc :=
  {| index := Some [Q2Qc 2]; document_store := {[ 0 := chunk_plain ]} |}.

End Indexer.

(** ** Python floats: IEEE 754 binary64

    The operations are the Standard Library's [SpecFloat] ones at
    precision 53 and maximal exponent 1024, rounding to nearest with
    ties to even. *)
Module Float64.

Definition prec : Z := 53.
Definition emax : Z := 1024.

(** The float nearest to a rational: the correctly rounded quotient of
    its numerator and denominator. This is the value of a float
    literal and of Python's true division of two integers, and it is
    the float itself for the rational of a float. *)
Definition nearest (q : Qc) : SpecFloat.spec_float :=
  match Qnum q with
  | Z0 => SpecFloat.S754_zero false
  | Zpos n =>
      SpecFloat.SFdiv prec emax (SpecFloat.S754_finite false n 0)
                      (SpecFloat.S754_finite false (Qden q) 0)
  | Zneg n =>
      SpecFloat.SFdiv prec emax (SpecFloat.S754_finite true n 0)
                      (SpecFloat.S754_finite false (Qden q) 0)
  end.

(** The rational a finite float denotes, [(-1)^s * m * 2^e]. An
    infinity or NaN denotes none; it is sent to 0. *)
Definition value (x : SpecFloat.spec_float) : Qc :=
  match x with
  | SpecFloat.S754_finite s m e =>
      Q2Qc ((if s then -1 else 1) * inject_Z (Zpos m) * (2 # 1) ^ e)%Q
  | _ => 0%Qc
  end.

(** [x * y] and [x + y] on floats. *)
Definition mul (x y : SpecFloat.spec_float) : SpecFloat.spec_float :=
  SpecFloat.SFmul prec emax x y.
Definition add (x y : SpecFloat.spec_float) : SpecFloat.spec_float :=
  SpecFloat.SFadd prec emax x y.

End Float64.

(** ** [FAISSQueryEngine]: retrieval, fusion and answer synthesis *)
Module Query.
Import Py Indexer.

(** [QARequest] *)
Record QARequest : Type := {
  query_text : string;
  filters : option filter_set;
  max_results : Z;
  confidence_threshold : Qc;
  include_context : bool;
  search_mode : string }.

(** [SourceReference] *)
Record SourceReference : Type := {
  src_document_id : string;
  document_name : string;
  src_document_type : option string;
  text_snippet : string;
  deep_link : option string;
  relevance_score : Qc }.

(** [QAAnswer] *)
Record QAAnswer : Type := {
  answer : string;
  confidence : Qc;
  answer_type : string;
  sources : list SourceReference;
  related_queries : option (list string);
  explanation : option string }.

(** [QAResult], without the timing metadata. *)
Record QAResult : Type := {
  res_query : string;
  res_answer : QAAnswer;
  search_results_count : Z;
  filters_applied : option filter_set }.

(** The field constraint [ge=0.0, le=1.0] of the response models. *)
Definition unit_interval (q : Qc) : bool :=
  bool_decide (0 <= q)%Qc && bool_decide (q <= 1)%Qc.

(** The validating constructor of [SourceReference]. *)
Definition new_SourceReference (document_id document_name : string)
    (document_type : option string) (text_snippet : string)
    (deep_link : option string) (relevance_score : Qc)
  : outcome SourceReference :=
  if unit_interval relevance_score
  then Returns {| src_document_id := document_id;
                  document_name := document_name;
                  src_document_type := document_type;
                  text_snippet := text_snippet;
                  deep_link := deep_link;
                  relevance_score := relevance_score |}
  else Raises ValidationError.

(** The validating constructor of [QAAnswer]. *)
Definition new_QAAnswer (answer : string) (confidence : Qc)
    (answer_type : string) (sources : list SourceReference)
    (related_queries : option (list string)) (explanation : option string)
  : outcome QAAnswer :=
  if unit_interval confidence
  then Returns {| answer := answer; confidence := confidence;
                  answer_type := answer_type; sources := sources;
                  related_queries := related_queries;
                  explanation := explanation |}
  else Raises ValidationError.

(** [list.sort(key=lambda x: x["score"], reverse=True)]: a stable sort
    into descending score order. *)
Fixpoint insert_desc (x : search_result) (l : list search_result)
  : list search_result :=
  match l with
  | [] => [x]
  | y :: l' =>
      if bool_decide (r_score y <= r_score x)%Qc then x :: y :: l'
      else y :: insert_desc x l'
  end.

Fixpoint sort_desc (l : list search_result) : list search_result :=
  match l with
  | [] => []
  | x :: l' => insert_desc x (sort_desc l')
  end.

(** The first loop of [_merge_results]: semantic results, first
    occurrence of each [chunk_id] only. *)
Fixpoint merge_semantic (semantic_results : list search_result)
    (seen_chunks : gset string) (merged_results : list search_result)
  : gset string * list search_result :=
  match semantic_results with
  | [] => (seen_chunks, merged_results)
  | result :: rest =>
      if bool_decide (r_chunk_id result ∈ seen_chunks)
      then merge_semantic rest seen_chunks merged_results
      else merge_semantic rest ({[r_chunk_id result]} ∪ seen_chunks)
                          (merged_results ++ [result])
  end.

(** [score * 0.8 + 0.2] as the code evaluates it, in binary64: the two
    literals are the floats nearest to 8/10 and 2/10, and the product
    and the sum are each rounded. The score read is a float (for a
    keyword result, the float of the ratio [len(matches) /
    len(query_words)]); from a float no infinity arises. *)
Definition rescore (score : Qc) : Qc :=
  Float64.value
    (Float64.add
       (Float64.mul (Float64.nearest score) (Float64.nearest (Q2Qc (8 # 10))))
       (Float64.nearest (Q2Qc (2 # 10)))).

(** [result["score"] = result["score"] * 0.8 + 0.2] *)
Definition boost (result : search_result) : search_result :=
  {| r_document_id := r_document_id result; r_chunk_id := r_chunk_id result;
     r_content := r_content result; r_title := r_title result;
     r_score := rescore (r_score result);
     r_metadata := r_metadata result;
     r_document_type := r_document_type result;
     r_timestamp := r_timestamp result |}.

(** The second loop: keyword results not seen yet, rescored. *)
Fixpoint merge_keyword (keyword_results : list search_result)
    (seen_chunks : gset string) (merged_results : list search_result)
  : gset string * list search_result :=
  match keyword_results with
  | [] => (seen_chunks, merged_results)
  | result :: rest =>
      if bool_decide (r_chunk_id result ∈ seen_chunks)
      then merge_keyword rest seen_chunks merged_results
      else merge_keyword rest ({[r_chunk_id result]} ∪ seen_chunks)
                         (merged_results ++ [boost result])
  end.

(** [_merge_results] *)
Definition _merge_results (semantic_results keyword_results : list search_result)
    (max_results : Z) : list search_result :=
  let '(seen_chunks, merged_results) :=
    merge_semantic semantic_results ∅ [] in
  let '(_, merged_results) :=
    merge_keyword keyword_results seen_chunks merged_results in
  take_upto max_results (sort_desc merged_results).

Definition words (s : string) : gset string :=
  list_to_set (map str (split (chars s))).

Definition lower_str (s : string) : string := str (lower (chars s)).

(** [_keyword_search]: the linear scan of the chunk store. *)
Definition _keyword_search (store : gmap Z chunk_metadata) (query : string)
    (k : Z) (filters : option filter_set) : list search_result :=
  let query_words := words (lower_str query) in
  let results :=
    flat_map (fun kv : Z * chunk_metadata =>
      let dm := kv.2 in
      let content := lower_str (content dm) in
      if negb (filters_pass filters dm) then []
      else
        let content_words := words content in
        let matches := query_words ∩ content_words in
        let score :=
          if bool_decide (size query_words = 0%nat) then 0%Qc
          else (Q2Qc (inject_Z (Z.of_nat (size matches)))
                / Q2Qc (inject_Z (Z.of_nat (size query_words))))%Qc in
        if bool_decide (0 < score)%Qc then [make_result score dm] else [])
      (store_items store) in
  take_upto k (sort_desc results).

Definition filter_mapping : list (string * string) :=
  [("project_id", "project_ids"); ("contractor", "contractors");
   ("status", "statuses"); ("document_type", "document_types");
   ("category", "categories"); ("confidence_min", "confidence_min");
   ("date_range", "date_range")]%string.

Fixpoint mapping_get (m : list (string * string)) (k : string) : option string :=
  match m with
  | [] => None
  | (k', v) :: m' => if String.eqb k' k then Some v else mapping_get m' k
  end.

(** [_convert_filters] *)
Definition _convert_filters (filters : option filter_set) : option filter_set :=
  match filters with
  | None | Some [] => None
  | Some items =>
      Some (foldl (fun converted '(api_key, value) =>
              let indexer_key := default api_key (mapping_get filter_mapping api_key) in
              let value :=
                if bool_decide (indexer_key ∈ membership_keys)
                then match value with PList _ => value | _ => PList [value] end
                else value in
              dict_set converted indexer_key value) [] items)
  end.

Definition nl : string := String (ascii_of_nat 10) "".

(** The template table of [_get_related_queries]: each template is
    the text before and after the placeholder. *)
Definition related_patterns : list (string * list (string * string)) :=
  [("obligation",
    [("What are the deadlines for ", "?");
     ("Who is responsible for ", "?");
     ("What are the penalties for ", "?")]);
   ("sla",
    [("What is the SLA for ", "?");
     ("What are the performance metrics for ", "?");
     ("What happens if SLA is not met for ", "?")]);
   ("payment",
    [("What are the payment terms for ", "?");
     ("When is payment due for ", "?");
     ("What are the late payment penalties for ", "?")]);
   ("project",
    [("What are the deliverables for ", "?");
     ("What is the timeline for ", "?");
     ("Who are the stakeholders for ", "?")])]%string.

Definition format (template : string * string) (context : string) : string :=
  template.1 +:+ context +:+ template.2.

Fixpoint first_pattern (patterns : list (string * list (string * string)))
    (query_lower context : string) : list string :=
  match patterns with
  | [] => []
  | (pattern_type, templates) :: rest =>
      if is_infix (chars pattern_type) (chars query_lower)
      then map (fun t => format t context) (take 2 templates)
      else first_pattern rest query_lower context
  end.

(** [_get_related_queries] *)
Definition _get_related_queries (query : string) : option (list string) :=
  let query_lower := lower_str query in
  let key_terms :=
    filter (fun w => (3 < length w)%nat) (split (chars query)) in
  let context :=
    match key_terms with w :: _ => str w | [] => "this project"%string end in
  let suggestions := first_pattern related_patterns query_lower context in
  let suggestions :=
    match suggestions with
    | [] => ["What are the obligations related to " +:+ context +:+ "?";
             "What are the deadlines for " +:+ context +:+ "?";
             "Who is responsible for " +:+ context +:+ "?"]%string
    | _ => suggestions
    end in
  Some (take 3 suggestions).

(** [_create_deep_link] *)
Definition _create_deep_link (result : search_result) : option string :=
  Some ("/documents/" +:+ r_document_id result +:+ "#chunk_"
        +:+ r_chunk_id result)%string.

Fixpoint join (sep : string) (l : list string) : string :=
  match l with
  | [] => ""
  | [s] => s
  | s :: l' => s +:+ sep +:+ join sep l'
  end%string.

Definition make_source (result : search_result) : outcome SourceReference :=
  new_SourceReference
    (r_document_id result) (r_title result) (r_document_type result)
    (if 200 <? len (chars (r_content result))
     then (str (take 200 (chars (r_content result))) +:+ "...")%string
     else r_content result)
    (_create_deep_link result) (r_score result).

Fixpoint make_sources (results : list search_result)
  : outcome (list SourceReference) :=
  match results with
  | [] => Returns []
  | result :: rest =>
      source ← make_source result;
      sources ← make_sources rest;
      mret (source :: sources)
  end.

Section WithCollaborators.
Context {vec : Type}.
Variable encode : string -> outcome vec.
Variable normalize_L2 : vec -> vec.
Variable index_search : list vec -> vec -> Z -> outcome (list (Qc * Z)).
(** Whether [self.answer_generator] is configured. *)
Variable answer_generator : bool.
(** The chat-completion call: system prompt and user prompt to the
    text of the first choice, or a fault. *)
Variable chat_completion : string -> string -> outcome string.

Definition system_prompt : string :=
  "You are a helpful assistant that answers questions based on provided context documents. Be accurate and concise.".

Definition answer_prompt (query combined_context : string) : string :=
  (nl +:+ "Based on the following context documents, answer the user's question."
   +:+ nl +:+ "Provide a clear, concise answer based only on the information provided."
   +:+ nl +:+ "If the context doesn't contain enough information to answer the question, say so."
   +:+ nl +:+ nl +:+ "Question: " +:+ query
   +:+ nl +:+ nl +:+ "Context:" +:+ nl +:+ combined_context
   +:+ nl +:+ nl +:+ "Answer:")%string.

(** [_generate_ai_answer]: the handler of its [try] block returns the
    fixed pair. *)
Definition _generate_ai_answer (query : string) (context_texts : list string)
  : string * Qc :=
  let combined_context := join (nl +:+ nl) (take 5 context_texts) in
  match chat_completion system_prompt (answer_prompt query combined_context) with
  | Returns content =>
      let answer := strip (chars content) in
      let confidence :=
        if (20 <? len answer)
           && negb (is_infix (chars "don't have enough information")
                             (lower answer))
        then Q2Qc (8 # 10) else Q2Qc (3 # 10) in
      (str answer, confidence)
  | Raises _ => ("Unable to generate AI answer"%string, Q2Qc (2 # 10))
  end.

(** The [try] block of [_generate_answer]. *)
Definition generate_answer_body (request : QARequest)
    (search_results : list search_result) : outcome QAAnswer :=
  match search_results with
  | [] =>
      new_QAAnswer
        "I couldn't find any relevant information to answer your question."
        0%Qc "not_found" [] (_get_related_queries (query_text request)) None
  | top :: _ =>
      sources ← make_sources search_results;
      let context_texts := map r_content search_results in
      if answer_generator && include_context request then
        let '(answer_text, confidence) :=
          _generate_ai_answer (query_text request) context_texts in
        new_QAAnswer answer_text confidence "synthesized" sources
          (_get_related_queries (query_text request))
          (Some ("Answer generated from " +:+ pretty (length sources)
                 +:+ " relevant document(s)")%string)
      else
        new_QAAnswer (str (take 500 (chars (r_content top)))) (r_score top)
          "direct" sources (_get_related_queries (query_text request)) None
  end.

Definition error_answer : QAAnswer :=
  {| answer := "An error occurred while generating the answer.";
     confidence := 0%Qc; answer_type := "error"; sources := [];
     related_queries := None; explanation := None |}.

(** [_generate_answer] *)
Definition _generate_answer (request : QARequest)
    (search_results : list search_result) : QAAnswer :=
  match generate_answer_body request search_results with
  | Returns a => a
  | Raises _ => error_answer
  end.

(** The [try] block of [_search_documents]. *)
Definition search_documents_body (st : indexer vec) (request : QARequest)
  : outcome (list search_result) :=
  let indexer_filters := _convert_filters (filters request) in
  results ←
    (if String.eqb (search_mode request) "semantic" then
       search encode normalize_L2 index_search st
              (query_text request) (max_results request) indexer_filters
     else if String.eqb (search_mode request) "keyword" then
       mret (_keyword_search (document_store st) (query_text request)
                             (max_results request) indexer_filters)
     else
       semantic_results ←
         search encode normalize_L2 index_search st
                (query_text request) (max_results request `div` 2) indexer_filters;
       let keyword_results :=
         _keyword_search (document_store st) (query_text request)
                         (max_results request `div` 2) indexer_filters in
       mret (_merge_results semantic_results keyword_results
                            (max_results request)));
  mret (filter (fun result => (confidence_threshold request <= r_score result)%Qc)
               results).

(** [_search_documents]: any exception yields the empty list. *)
Definition _search_documents (st : indexer vec) (request : QARequest)
  : list search_result :=
  match search_documents_body st request with
  | Returns results => results
  | Raises _ => []
  end.

(** [query], on an initialised engine. *)
Definition query (st : indexer vec) (request : QARequest) : outcome QAResult :=
  let search_results := _search_documents st request in
  let answer := _generate_answer request search_results in
  Returns {| res_query := query_text request;
             res_answer := answer;
             search_results_count := Z.of_nat (length search_results);
             filters_applied := filters request |}.

End WithCollaborators.
(** *** Notions and sample inputs used to state the engine's properties *)

Definition chunk_ids (l : list search_result) : list string :=
  map r_chunk_id l.

(** The loops of [_merge_results] keep [seen_chunks] equal to the set
    of ids already merged, each merged once. *)
Definition seen_inv (seen : gset string) (merged : list search_result) : Prop :=
  (forall id, id ∈ seen <-> id ∈ chunk_ids merged) /\ NoDup (chunk_ids merged).

(** Descending score order. *)
Definition descending (l : list search_result) : Prop :=
  StronglySorted (fun a b => (r_score b <= r_score a)%Qc) l.

(** A chat-completion client whose every call fails. *)
Definition chat_fault (system user : string) : outcome string :=
  Raises CompletionError.

Definition request_keyword : QARequest :=
  {| query_text := "monthly payment"; filters := None; max_results := 10;
     confidence_threshold := Q2Qc (1 # 2); include_context := true;
     search_mode := "keyword" |}.

Definition request_semantic : QARequest :=
  {| query_text := "monthly payment"; filters := None; max_results := 10;
     confidence_threshold := Q2Qc (1 # 2); include_context := true;
     search_mode := "semantic" |}.

Definition result_a : search_result :=
  {| r_document_id := "D1"; r_chunk_id := "D1_chunk_0"; r_content := "alpha";
     r_title := "Contract"; r_score := Q2Qc (9 # 10); r_metadata := PDict [];
     r_document_type := None; r_timestamp := PNone |}.

Definition result_b : search_result :=
  {| r_document_id := "D2"; r_chunk_id := "D2"; r_content := "beta";
     r_title := "Annex"; r_score := Q2Qc (1 # 2); r_metadata := PDict [];
     r_document_type := None; r_timestamp := PNone |}.

(** The synthesis-failure property as the specification words it. *)
Definition synthesis_failure_claim {vec} (encode : string -> outcome vec)
    (normalize_L2 : vec -> vec)
    (index_search : list vec -> vec -> Z -> outcome (list (Qc * Z)))
    (chat_completion : string -> string -> outcome string)
    (st : indexer vec) (request : QARequest) : Prop :=
  (forall s u, exists e, chat_completion s u = Raises e) ->
  _search_documents encode normalize_L2 index_search st request <> [] ->
  exists res,
    query encode normalize_L2 index_search true chat_completion st request
      = Returns res /\
    answer_type (res_answer res) = "error"%string /\
    confidence (res_answer res) = 0%Qc.

End Query.

(** ** Further notions for the chunker *)
Module ChunkSpans.
Import Py.

(** A chunk together with the offset it was cut at: the chunk is the
    piece of [text] that starts at the offset. *)
Definition piece_at (text : list ascii) (span : nat * string) : Prop :=
  chars span.2 = take (length (chars span.2)) (drop span.1 text).

(** Position [i] of the text lies inside the span. *)
Definition covers (span : nat * string) (i : nat) : Prop :=
  (span.1 <= i < span.1 + length (chars span.2))%nat.

End ChunkSpans.

(** ** Further notions for the filter evaluator *)
Module FilterKeys.
Import Py Indexer.

(** The filter keys [_match_filters] has a branch for. *)
Definition indexer_filter_keys : list string :=
  membership_keys ++ ["confidence_min"; "date_range"]%string.


End FilterKeys.

(** ** Further notions for the indexer *)
Module IndexerMore.
Import Py Indexer.

(** A document [add_documents] skips: no or empty id, or no or empty
    content. *)
Definition skipped (doc : document) : Prop :=
  doc_document_id doc = None \/ doc_document_id doc = Some ""%string \/
  doc_content doc = None \/ doc_content doc = Some ""%string.

(** A result of [search] comes from a live chunk-store entry that
    passes the filters. *)
Definition live_hit {vec} (st : indexer vec) (filters : option filter_set)
    (r : search_result) : Prop :=
  exists p dm score,
    document_store st !! p = Some dm /\ r = make_result score dm /\
    filters_pass filters dm = true.

End IndexerMore.

(** ** Sample documents *)
Module Samples.
Import Py Indexer.

(** A document without an id. *)
Definition doc_no_id : document :=
  {| doc_document_id := None;
     doc_content := Some "orphan text"%string;
     doc_title := None; doc_metadata := None;
     doc_document_type := None; doc_timestamp := PNone |}.

(** A second document, of one chunk. *)
Definition doc_D2 : document :=
  {| doc_document_id := Some "D2"%string;
     doc_content := Some "termination clause"%string;
     doc_title := Some "Annex"%string;
     doc_metadata := Some (PDict []);
     doc_document_type := None; doc_timestamp := PNone |}.

Definition chunk_D2 : chunk_metadata :=
  {| document_id := "D2"; chunk_id := "D2"; chunk_index := 0;
     content := "termination clause"; title := "Annex";
     metadata := PDict []; document_type := None; timestamp := PNone |}.

(** A model that tells texts apart: the vector of a text is its
    length. *)
Definition encode_length (text : string) : outcome Z :=
  Returns (len (chars text)).

(** A model whose vectors all are [3]. *)
Definition encode_three (text : string) : outcome Qc := Returns (Q2Qc 3).

(** The states of a run under [encode_length]: after adding [doc_D1],
    after adding [doc_D2] as well, and after deleting ["D1"] then. *)
Definition indexer_length_D1 : indexer Z :=
  {| index := Some [23]; document_store := {[ 0 := chunk_plain ]} |}.
Definition indexer_length_D1_D2 : indexer Z :=
  {| index := Some [23; 18];
     document_store := {[ 0 := chunk_plain; 1 := chunk_D2 ]} |}.
Definition indexer_length_D2 : indexer Z :=
  {| index := Some [23; 18]; document_store := {[ 1 := chunk_D2 ]} |}.

(** The state after adding [doc_D2] to [indexer_D1]. *)
Definition indexer_D1_D2 (v : Qc) : indexer Qc :=
  {| index := Some [Q2Qc 2; v];
     document_store := {[ 0 := chunk_plain; 1 := chunk_D2 ]} |}.

End Samples.

(** ** Persistence of the indexer: [_load_index], [_save_index],
       [_save_document_store] *)
Module Persistence.
Import Py Indexer.

(** One snapshot file: missing, unreadable, or holding a value. *)
Inductive file (A : Type) : Type :=
| Absent
| Corrupt
| Stored (a : A).
Global Arguments Absent {A}.
Global Arguments Corrupt {A}.
Global Arguments Stored {A} a.

(** The index directory: [faiss.index] and [document_store.pkl]. *)
Record disk (vec : Type) : Type := {
  index_file : file (list vec);
  store_file : file (gmap Z chunk_metadata) }.
Global Arguments index_file {vec} _.
Global Arguments store_file {vec} _.
Global Arguments Build_disk {vec} _ _.

(** [path.exists()] *)
Definition file_exists {A} (f : file A) : bool :=
  match f with Absent => false | _ => true end.

(** Reading a file: [None] when the read raises. *)
Definition read {A} (f : file A) : option A :=
  match f with Stored a => Some a | _ => None end.

(** How one write ends: it went through, or it raised and left the
    file in some state. *)
Inductive written (A : Type) : Type :=
| Written
| Failed (residue : file A).
Global Arguments Written {A}.
Global Arguments Failed {A} residue.

Definition write {A} (w : written A) (data : A) : file A :=
  match w with Written => Stored data | Failed residue => residue end.

Section WithModel.
Context {vec : Type}.
Variable encode : string -> outcome vec.

(** [_load_index]: both files must exist and load; any other case,
    and any exception, gives the empty state. *)
Definition _load_index (d : disk vec) : indexer vec :=
  if file_exists (index_file d) && file_exists (store_file d) then
    match read (index_file d) with
    | None => empty_indexer
    | Some rows =>
        match read (store_file d) with
        | None => empty_indexer
        | Some store => {| index := Some rows; document_store := store |}
        end
    end
  else empty_indexer.

(** [_save_document_store]: a failed write is logged, not raised. *)
Definition _save_document_store (ws : written (gmap Z chunk_metadata))
    (d : disk vec) (st : indexer vec) : disk vec :=
  {| index_file := index_file d;
     store_file := write ws (document_store st) |}.

(** [_save_index]: nothing is written without an index; a failure of
    the index write skips the store write. *)
Definition _save_index (wi : written (list vec))
    (ws : written (gmap Z chunk_metadata))
    (d : disk vec) (st : indexer vec) : disk vec :=
  match index st with
  | None => d
  | Some rows =>
      match wi with
      | Failed residue => {| index_file := residue; store_file := store_file d |}
      | Written =>
          _save_document_store ws
            {| index_file := Stored rows; store_file := store_file d |} st
      end
  end.

(** [add_documents] with its call of [_save_index]. *)
Definition add_documents_saved (wi : written (list vec))
    (ws : written (gmap Z chunk_metadata))
    (d : disk vec) (st : indexer vec) (documents : list document)
  : outcome (disk vec * indexer vec * Z) :=
  match documents with
  | [] => Returns (d, st, 0)
  | _ =>
      let document_metadata := flat_map document_chunks documents in
      let texts_to_embed := map content document_metadata in
      match texts_to_embed with
      | [] => Returns (d, st, 0)
      | _ =>
          embeddings ← _embed_texts encode texts_to_embed;
          let rows := default [] (index st) in
          let start_index := Z.of_nat (length rows) in
          let st' :=
            {| index := Some (rows ++ embeddings);
               document_store :=
                 register (document_store st) start_index document_metadata |} in
          mret (_save_index wi ws d st', st',
                Z.of_nat (length texts_to_embed))
      end
  end.

(** [delete_documents] with its call of [_save_document_store]. *)
Definition delete_documents_saved (ws : written (gmap Z chunk_metadata))
    (d : disk vec) (st : indexer vec) (document_ids : list string)
  : disk vec * indexer vec * Z :=
  match index st with
  | None => (d, st, 0)
  | Some _ =>
      let indices_to_remove :=
        (filter (fun kv => document_id kv.2 ∈ document_ids)
                (store_items (document_store st))).*1 in
      match indices_to_remove with
      | [] => (d, st, 0)
      | _ =>
          let '(store, deleted_count) :=
            foldl (fun '(store, n) index_id =>
                     match store !! index_id with
                     | Some _ => (delete index_id store, n + 1)
                     | None => (store, n)
                     end)
                  (document_store st, 0) indices_to_remove in
          let st' := {| index := index st; document_store := store |} in
          (_save_document_store ws d st', st', deleted_count)
      end
  end.

(** One persisted call and the way its writes end. *)
Inductive saved_op : Type :=
| SavedAdd (documents : list document)
| SavedDelete (document_ids : list string).

Definition step_saved (s : disk vec * indexer vec) (o : saved_op)
  : disk vec * indexer vec :=
  match o with
  | SavedAdd documents =>
      match add_documents_saved Written Written s.1 s.2 documents with
      | Returns (d, st, _) => (d, st)
      | Raises _ => s
      end
  | SavedDelete document_ids =>
      (delete_documents_saved Written s.1 s.2 document_ids).1
  end.

End WithModel.
End Persistence.

(** ** The API layer over the engine: request models and the endpoints
       of [routers/qa.py] *)
Module Api.
Import Py Indexer Query.

(** The keys [QARequest.validate_filters] accepts. *)
Definition valid_filter_keys : list string :=
  ["project_id"; "contractor"; "status"; "date_range";
   "document_type"; "category"; "confidence_min"]%string.

Definition search_modes : list string :=
  ["semantic"; "keyword"; "hybrid"]%string.

Definition keys_valid (fs : filter_set) : bool :=
  forallb (fun kv => bool_decide (kv.1 ∈ valid_filter_keys)) fs.

(** [QARequest.validate_filters] *)
Definition validate_filters (v : option filter_set)
  : outcome (option filter_set) :=
  match v with
  | Some (f :: fs) =>
      if keys_valid (f :: fs) then Returns v else Raises ValidationError
  | _ => Returns v
  end.

(** The validating constructor of [QARequest]: the field constraints
    and the two validators. *)
Definition new_QARequest (query : string) (filters : option filter_set)
    (max_results : Z) (confidence_threshold : Qc) (include_context : bool)
    (search_mode : string) : outcome QARequest :=
  if (3 <=? len (chars query)) && (len (chars query) <=? 1000)
     && (1 <=? max_results) && (max_results <=? 100)
     && unit_interval confidence_threshold
     && bool_decide (search_mode ∈ search_modes)
  then
    filters ← validate_filters filters;
    mret {| query_text := query; filters := filters;
            max_results := max_results;
            confidence_threshold := confidence_threshold;
            include_context := include_context;
            search_mode := search_mode |}
  else Raises ValidationError.

(** [ValidationResult] *)
Record ValidationResult : Type := {
  is_valid : bool;
  errors : list string;
  warnings : list string }.

(** [validate_qa_request] *)
Definition validate_qa_request (request : QARequest) : ValidationResult :=
  let q := chars (query_text request) in
  let errors :=
    (if negb (truthy q) || (len (strip q) <? 3)
     then ["Query must be at least 3 characters long"] else [])
    ++ (if 1000 <? len q
        then ["Query is too long (maximum 1000 characters)"] else [])
    ++ (if bool_decide (search_mode request ∈ search_modes) then []
        else ["Search mode must be 'semantic', 'keyword', or 'hybrid'"])
    ++ (if unit_interval (confidence_threshold request) then []
        else ["Confidence threshold must be between 0.0 and 1.0"])
    ++ (if (1 <=? max_results request) && (max_results request <=? 100)
        then [] else ["Max results must be between 1 and 100"]) in
  let warnings :=
    match filters request with
    | Some (f :: fs) =>
        flat_map (fun kv : string * pyval =>
                    if bool_decide (kv.1 ∈ valid_filter_keys) then []
                    else ["Filter key '" +:+ kv.1 +:+ "' may not be supported"])
                 (f :: fs)
    | _ => []
    end in
  {| is_valid := match errors with [] => true | _ => false end;
     errors := errors; warnings := warnings |}%string.

(** What an endpoint gives back: a response body, or an
    [HTTPException] with its status code. *)
Inductive http (A : Type) : Type :=
| Ok (body : A)
| HttpError (status : Z).
Global Arguments Ok {A} body.
Global Arguments HttpError {A} status.

(** [QAResponse] *)
Record QAResponse : Type := {
  success : bool;
  message : string;
  data : option QAResult;
  validation : option ValidationResult }.

(** [QABatchRequest] *)
Record QABatchRequest : Type := {
  queries : list string;
  batch_filters : option filter_set;
  max_results_per_query : Z;
  batch_confidence_threshold : Qc;
  parallel_processing : bool }.

(** [QABatchResult], without the timing. *)
Record QABatchResult : Type := {
  results : list QAResult;
  total_queries : Z;
  successful_queries : Z;
  failed_queries : list string;
  average_confidence : Qc }.

Record QABatchResponse : Type := {
  batch_success : bool;
  batch_message : string;
  batch_data : option QABatchResult }.

(** The validating constructor of [QABatchResult]. *)
Definition new_QABatchResult (results : list QAResult) (total_queries : Z)
    (successful_queries : Z) (failed_queries : list string)
    (average_confidence : Qc) : outcome QABatchResult :=
  if (1 <=? total_queries) && (0 <=? successful_queries)
     && unit_interval average_confidence
  then Returns {| results := results; total_queries := total_queries;
                  successful_queries := successful_queries;
                  failed_queries := failed_queries;
                  average_confidence := average_confidence |}
  else Raises ValidationError.

(** [sum(all_confidences) / len(all_confidences) if all_confidences
     else 0.0] *)
Definition mean (l : list Qc) : Qc :=
  match l with
  | [] => 0%Qc
  | _ => (foldr Qcplus 0%Qc l / Q2Qc (inject_Z (Z.of_nat (length l))))%Qc
  end.

(** [IndexDocument] and [IndexRequest] *)
Record IndexDocument : Type := {
  in_document_id : string;
  in_title : string;
  in_content : string;
  in_metadata : pyval;
  in_document_type : option string;
  in_timestamp : Z }.

Record IndexRequest : Type := {
  documents : list IndexDocument;
  operation : string }.

(** [IndexResult], without the timing. *)
Record IndexResult : Type := {
  indexed_documents : Z;
  failed_documents : list string;
  index_size : option Z }.

Record IndexResponse : Type := {
  index_success : bool;
  index_message : string;
  index_data : option IndexResult }.

Definition new_IndexResult (indexed_documents : Z)
    (failed_documents : list string) (index_size : option Z)
  : outcome IndexResult :=
  if 0 <=? indexed_documents
  then Returns {| indexed_documents := indexed_documents;
                  failed_documents := failed_documents;
                  index_size := index_size |}
  else Raises ValidationError.

(** The dictionary [update_index] builds from an [IndexDocument]. *)
Definition index_doc (doc : IndexDocument) : document :=
  {| doc_document_id := Some (in_document_id doc);
     doc_content := Some (in_content doc);
     doc_title := Some (in_title doc);
     doc_metadata := Some (in_metadata doc);
     doc_document_type := in_document_type doc;
     doc_timestamp := PDate (in_timestamp doc) |}.

Section WithEngine.
Context {vec : Type}.
Variable encode : string -> outcome vec.
Variable normalize_L2 : vec -> vec.
Variable index_search : list vec -> vec -> Z -> outcome (list (Qc * Z)).
Variable answer_generator : bool.
Variable chat_completion : string -> string -> outcome string.

Definition engine_query (st : indexer vec) (request : QARequest)
  : outcome QAResult :=
  query encode normalize_L2 index_search answer_generator chat_completion
        st request.

(** [query_documents] *)
Definition query_documents (st : indexer vec) (request : QARequest)
  : http QAResponse :=
  let validation := validate_qa_request request in
  if negb (is_valid validation) then
    Ok {| success := false; message := "Invalid request"; data := None;
          validation := Some validation |}
  else
    match engine_query st request with
    | Returns result =>
        Ok {| success := true; message := "Query processed successfully";
              data := Some result; validation := Some validation |}
    | Raises _ => HttpError 500
    end.

(** The [QARequest] a batch builds for one of its queries. *)
Definition individual_request (request : QABatchRequest) (query : string)
  : outcome QARequest :=
  new_QARequest query (batch_filters request) (max_results_per_query request)
                (batch_confidence_threshold request) true "hybrid".

(** The sequential loop: a query whose request cannot be built, or
    whose processing raises, goes to [failed_queries]. *)
Fixpoint batch_sequential (st : indexer vec) (request : QABatchRequest)
    (qs : list string) : list QAResult * list string :=
  match qs with
  | [] => ([], [])
  | q :: qs' =>
      let '(results, failed) := batch_sequential st request qs' in
      match individual_request request q ≫= engine_query st with
      | Returns result => (result :: results, failed)
      | Raises _ => (results, q :: failed)
      end
  end.

(** The parallel branch builds every request before any query runs. *)
Fixpoint build_requests (request : QABatchRequest) (qs : list string)
  : outcome (list (string * QARequest)) :=
  match qs with
  | [] => Returns []
  | q :: qs' =>
      r ← individual_request request q;
      rs ← build_requests request qs';
      mret ((q, r) :: rs)
  end.

(** [asyncio.gather(..., return_exceptions=True)] and the loop over
    its results. *)
Fixpoint batch_gather (st : indexer vec) (tasks : list (string * QARequest))
  : list QAResult * list string :=
  match tasks with
  | [] => ([], [])
  | (q, r) :: tasks' =>
      let '(results, failed) := batch_gather st tasks' in
      match engine_query st r with
      | Returns result => (result :: results, failed)
      | Raises _ => (results, q :: failed)
      end
  end.

(** [batch_query_documents] *)
Definition batch_query_documents (st : indexer vec) (request : QABatchRequest)
  : http QABatchResponse :=
  match queries request with
  | [] => HttpError 400
  | _ =>
      if 50 <? Z.of_nat (length (queries request)) then HttpError 400
      else
        let processed : outcome (list QAResult * list string) :=
          if parallel_processing request then
            tasks ← build_requests request (queries request);
            mret (batch_gather st tasks)
          else mret (batch_sequential st request (queries request)) in
        match
          '(results, failed_queries) ← processed;
          batch_result ←
            new_QABatchResult results
              (Z.of_nat (length (queries request)))
              (Z.of_nat (length results)) failed_queries
              (mean (map (fun r => confidence (res_answer r)) results));
          mret {| batch_success := true;
                  batch_message :=
                    ("Processed " +:+ pretty (length results) +:+ "/"
                     +:+ pretty (length (queries request))
                     +:+ " queries successfully")%string;
                  batch_data := Some batch_result |}
        with
        | Returns response => Ok response
        | Raises _ => HttpError 500
        end
  end.

(** [update_index]: the new state of the indexer and the response. An
    exception inside the operation block, the [HTTPException] for an
    unsupported operation included, is re-raised with status 500. *)
Definition update_index (st : indexer vec) (request : IndexRequest)
  : indexer vec * http IndexResponse :=
  match documents request with
  | [] => (st, HttpError 400)
  | _ =>
      if 1000 <? Z.of_nat (length (documents request))
      then (st, HttpError 400)
      else
        let respond (st' : indexer vec) (result : outcome IndexResult) :=
          match result with
          | Returns result =>
              (st', Ok {| index_success := true;
                          index_message :=
                            ("Index " +:+ operation request
                             +:+ " completed successfully")%string;
                          index_data := Some result |})
          | Raises _ => (st', HttpError 500)
          end in
        if String.eqb (operation request) "upsert" then
          match add_documents encode st (map index_doc (documents request)) with
          | Returns (st', indexed_count) =>
              respond st'
                (new_IndexResult indexed_count []
                   (Some (total_vectors (get_index_stats st'))))
          | Raises _ => (st, HttpError 500)
          end
        else if String.eqb (operation request) "delete" then
          let '(st', deleted_count) :=
            delete_documents st (map in_document_id (documents request)) in
          respond st'
            (new_IndexResult 0 [] (Some (total_vectors (get_index_stats st'))))
        else (st, HttpError 500)
  end.

End WithEngine.
End Api.

(** ** Further notions for the query engine *)
Module QueryMore.
Import Py Indexer Query.

(** A result of [_keyword_search]: built from a live chunk-store entry
    that passes the filters, with a score in (0, 1]. *)
Definition keyword_hit (store : gmap Z chunk_metadata)
    (filters : option filter_set) (r : search_result) : Prop :=
  exists p dm,
    store !! p = Some dm /\ filters_pass filters dm = true /\
    r = make_result (r_score r) dm /\
    (0 < r_score r)%Qc /\ (r_score r <= 1)%Qc.

(** The field constraints of [QAAnswer] and of its sources. *)
Definition valid_answer (a : QAAnswer) : Prop :=
  unit_interval (confidence a) = true /\
  Forall (fun s => unit_interval (relevance_score s) = true) (sources a).

(** Whether the lowered query mentions one of the pattern types. *)
Definition mentions_pattern (query : string) : bool :=
  existsb (fun p : string * list (string * string) =>
             is_infix (chars p.1) (chars (lower_str query)))
          related_patterns.

End QueryMore.

(** ** Further notions for the API layer *)
Module ApiMore.
Import Py Indexer Query Api.

(** Whether the [QARequest] of a batch query can be built. *)
Definition buildable (request : QABatchRequest) (query : string) : bool :=
  match individual_request request query with
  | Returns _ => true
  | Raises _ => false
  end.

(** A batch request with the given processing mode. *)
Definition batch_request (queries : list string)
    (filters : option filter_set) (max_results_per_query : Z)
    (confidence_threshold : Qc) (parallel : bool) : QABatchRequest :=
  {| queries := queries; batch_filters := filters;
     max_results_per_query := max_results_per_query;
     batch_confidence_threshold := confidence_threshold;
     parallel_processing := parallel |}.

(** A sample index request with an operation the request model
    accepts and [update_index] has no branch for. *)
Definition index_document_D1 : IndexDocument :=
  {| in_document_id := "D1"; in_title := "Contract";
     in_content := "monthly payment reports"; in_metadata := PDict [];
     in_document_type := None; in_timestamp := 0 |}.

End ApiMore.
(** ** Facts about the string primitives *)
Section PyFacts.
Import Py.

Lemma len_nonneg l : 0 <= len l.
Proof. unfold len. lia. Qed.

Lemma slice_nonneg l i j :
    0 <= i -> 0 <= j ->
    slice l i j =
      take (Z.to_nat (Z.min j (len l) - Z.min i (len l)))
           (drop (Z.to_nat (Z.min i (len l))) l).
Proof.
    intros Hi Hj. unfold slice, clamp.
    destruct (Z.ltb_spec i 0), (Z.ltb_spec j 0); try lia. reflexivity.
Qed.

Lemma slice_length l i j :
    0 <= i -> i <= j ->
    len (slice l i j) = Z.min j (len l) - Z.min i (len l).
Proof.
    intros Hi Hj. rewrite slice_nonneg by lia. unfold len.
    rewrite length_take, length_drop. unfold len. lia.
Qed.

Lemma slice_lookup l i j (k : nat) :
    0 <= i -> i <= j -> i + Z.of_nat k < Z.min j (len l) ->
    slice l i j !! k = l !! (Z.to_nat i + k)%nat.
Proof.
    intros Hi Hj Hk. rewrite slice_nonneg by lia.
    rewrite lookup_take_lt by (unfold len in *; lia).
    rewrite lookup_drop. f_equal. unfold len in *. lia.
Qed.

Lemma slice_all l i j :
    0 <= i -> len l <= j -> slice l i j = drop (Z.to_nat i) l.
Proof.
    intros Hi Hj. rewrite slice_nonneg by (pose proof (len_nonneg l); lia).
    destruct (Z.le_gt_cases (len l) i) as [Hge|Hlt].
    - rewrite !drop_ge by (unfold len in *; lia). by rewrite take_nil.
    - rewrite take_ge; [f_equal; lia|].
      rewrite length_drop. unfold len in *. lia.
Qed.

Lemma slice_app l a b c :
    0 <= a -> a <= b -> b <= c ->
    slice l a c = slice l a b ++ slice l b c.
Proof.
    intros Ha Hab Hbc. rewrite !slice_nonneg by lia.
    pose proof (len_nonneg l) as Hn.
    replace (Z.to_nat (Z.min b (len l)))
      with (Z.to_nat (Z.min a (len l))
            + Z.to_nat (Z.min b (len l) - Z.min a (len l)))%nat by lia.
    rewrite <- drop_drop, take_take_drop. f_equal. lia.
Qed.

Lemma slice_elem_of l i j c : 0 <= i -> 0 <= j -> c ∈ slice l i j -> c ∈ l.
Proof.
    intros Hi Hj. rewrite slice_nonneg by lia. intros Hc.
    apply elem_of_take in Hc as (k & Hk & _).
    rewrite lookup_drop in Hk. by eapply list_elem_of_lookup_2.
Qed.

Lemma rfind_from_spec c l i acc :
    ((c ∉ l) /\ rfind_from c l i acc = acc) \/
    (exists k : nat,
        l !! k = Some c /\ (forall j : nat, (k < j)%nat -> l !! j <> Some c) /\
        rfind_from c l i acc = i + Z.of_nat k).
Proof.
    revert i acc. induction l as [|x l IH]; intros i acc; simpl.
    - left. split; [apply not_elem_of_nil | reflexivity].
    - destruct (IH (i + 1) (if Ascii.eqb x c then i else acc))
        as [[Hnin Heq] | (k & Hk & Hlast & Heq)].
      + destruct (Ascii.eqb_spec x c) as [->|Hne].
        * right. exists 0%nat. split; [done|]. split; [|lia].
          intros [|j] Hj; [lia|]. simpl. intros Hc.
          apply Hnin. by eapply list_elem_of_lookup_2.
        * left. split; [|done]. rewrite not_elem_of_cons. split; congruence.
      + right. exists (S k). split; [done|]. split; [|lia].
        intros [|j] Hj; [lia|]. simpl. apply Hlast. lia.
Qed.

(** [rfind] returns [-1] exactly when the character is absent, and
      otherwise the greatest index holding it. *)
Lemma rfind_spec c l :
    ((c ∉ l) /\ rfind c l = -1) \/
    (exists k : nat,
        l !! k = Some c /\ (forall j : nat, (k < j)%nat -> l !! j <> Some c) /\
        rfind c l = Z.of_nat k).
Proof.
    unfold rfind. destruct (rfind_from_spec c l 0 (-1)) as [H|(k & ? & ? & ->)].
    - by left.
    - right. exists k. repeat split; try done.
Qed.

Lemma rfind_lt_len c l : -1 <= rfind c l < len l.
Proof.
    destruct (rfind_spec c l) as [[_ ->]|(k & Hk & _ & ->)].
    - pose proof (len_nonneg l). lia.
    - apply lookup_lt_Some in Hk. unfold len. lia.
Qed.

Lemma lstrip_no_space l :
    (forall c, c ∈ l -> is_space c = false) -> lstrip l = l.
Proof.
    destruct l as [|c l]; [done|]. intros H. simpl.
    by rewrite (H c) by apply list_elem_of_here.
Qed.

Lemma strip_no_space l :
    (forall c, c ∈ l -> is_space c = false) -> strip l = l.
Proof.
    intros H. unfold strip, rstrip. rewrite (lstrip_no_space l H).
    rewrite lstrip_no_space; [apply rev_involutive|].
    intros c Hc. apply H. apply list_elem_of_In, in_rev.
    by apply list_elem_of_In.
Qed.

Lemma truthy_length l : truthy l = true <-> (0 < length l)%nat.
Proof. destruct l; simpl; split; (done || lia). Qed.

Lemma str_chars s : str (chars s) = s.
Proof. apply String.string_of_list_ascii_of_string. Qed.

Lemma chars_str l : chars (str l) = l.
Proof. apply String.list_ascii_of_string_of_list_ascii. Qed.

Lemma length_chars s : length (chars s) = String.length s.
Proof. induction s; simpl; congruence. Qed.

Lemma str_nonempty l : truthy l = true -> str l <> ""%string.
Proof. destruct l; [done|]. simpl. discriminate. Qed.

End PyFacts.

(** ** Facts about the chunker *)
Section ChunkerFacts.
Import Py Chunker.

Lemma is_terminator_cases c :
    is_terminator c = true <-> c = "."%char \/ c = "!"%char \/ c = "?"%char.
Proof.
    unfold is_terminator.
    destruct (Ascii.eqb_spec c "."), (Ascii.eqb_spec c "!"),
      (Ascii.eqb_spec c "?"); simpl; intuition congruence.
Qed.

Lemma rfind_terminator_le w p t :
    last_terminator w p -> is_terminator t = true -> rfind t w <= p.
Proof.
    intros (Hp & _ & Hlast) Ht.
    destruct (rfind_spec t w) as [[_ ->]|(k & Hk & _ & ->)]; [lia|].
    destruct (Z.le_gt_cases (Z.of_nat k) p) as [|Hgt]; [done|].
    specialize (Hlast (Z.of_nat k) t Hgt). rewrite Nat2Z.id in Hlast.
    specialize (Hlast Hk). congruence.
Qed.

Lemma rfind_terminator_at w p t :
    0 <= p -> w !! Z.to_nat p = Some t -> p <= rfind t w.
Proof.
    intros Hp Hw.
    destruct (rfind_spec t w) as [[Hnin _]|(k & _ & Hk & ->)].
    - exfalso. apply Hnin. by eapply list_elem_of_lookup_2.
    - destruct (Z.le_gt_cases p (Z.of_nat k)) as [|Hgt]; [done|].
      exfalso. apply (Hk (Z.to_nat p)); [lia | done].
Qed.

(** The maximum of the three [rfind] results is the position of the
      last sentence terminator. *)
Lemma last_sentence_end_last w p :
    last_terminator w p -> last_sentence_end w = p.
Proof.
    intros Hl. pose proof Hl as (Hp & (c & Hc & Ht) & _).
    pose proof (rfind_terminator_le w p "." Hl eq_refl).
    pose proof (rfind_terminator_le w p "!" Hl eq_refl).
    pose proof (rfind_terminator_le w p "?" Hl eq_refl).
    pose proof (rfind_terminator_at w p c Hp Hc) as Hge.
    apply is_terminator_cases in Ht. unfold last_sentence_end.
    destruct Ht as [-> | [-> | ->] ]; lia.
Qed.

Lemma last_sentence_end_none w :
    no_terminator w -> last_sentence_end w = -1.
Proof.
    intros Hno. unfold last_sentence_end.
    assert (forall t, is_terminator t = true -> rfind t w = -1) as H.
    { intros t Ht. destruct (rfind_spec t w) as [[_ ->]|(k & Hk & _)]; [done|].
      apply list_elem_of_lookup_2, Hno in Hk. congruence. }
    rewrite !H by done. reflexivity.
Qed.

Lemma last_sentence_end_range w : -1 <= last_sentence_end w < len w.
Proof.
    unfold last_sentence_end.
    pose proof (rfind_lt_len "." w). pose proof (rfind_lt_len "!" w).
    pose proof (rfind_lt_len "?" w). lia.
Qed.

Lemma cut_end_unfold text cs start :
    cut_end text cs start =
      if start + cs <? len text then
        if cs <? 2 * last_sentence_end (slice text start (start + cs))
        then start + last_sentence_end (slice text start (start + cs)) + 1
        else start + cs
      else start + cs.
Proof. reflexivity. Qed.

(** How far a window reaches: never past the tentative end, and a
      sentence cut keeps more than half of the window. *)
Lemma cut_end_range text cs start :
    0 <= start -> 0 < cs ->
    cut_end text cs start <= start + cs /\
    (cut_end text cs start = start + cs \/
     (start + cs < len text /\ cs < 2 * (cut_end text cs start - start - 1))).
Proof.
    intros Hs Hcs. rewrite cut_end_unfold.
    destruct (Z.ltb_spec (start + cs) (len text)) as [Hin|Hout]; [|lia].
    pose proof (last_sentence_end_range (slice text start (start + cs))) as Hr.
    rewrite slice_length in Hr by lia.
    destruct (Z.ltb_spec cs
      (2 * last_sentence_end (slice text start (start + cs)))); lia.
Qed.

Section Loop.
Variables (text : list ascii) (cs ov : Z).
Hypothesis Hov : 0 <= ov.
Hypothesis Hcs : 0 < cs.
Hypothesis Hhalf : 2 * ov <= cs.

Lemma cut_end_progress start :
      0 <= start -> start < cut_end text cs start - ov.
Proof.
      intros Hs. destruct (cut_end_range text cs start Hs Hcs) as [_ [->|[_ H]]]; lia.
Qed.

(** The loop terminates: each iteration moves [start] forward, so
        one unit of fuel per remaining character suffices. *)
Lemma windows_terminates fuel start :
      0 <= start -> Z.max 0 (len text - start) < Z.of_nat fuel ->
      is_Some (windows fuel text cs ov start).
Proof.
      revert start. induction fuel as [|fuel IH]; intros start Hs Hf.
      - lia.
      - simpl. destruct (Z.ltb_spec start (len text)); [|by eexists].
        pose proof (cut_end_progress start Hs).
        destruct (Z.leb_spec (len text) (cut_end text cs start - ov));
          [by eexists|].
        destruct (IH (cut_end text cs start - ov)) as [ws ->]; [lia..|].
        by eexists.
Qed.

(** The chunks are the stripped windows, empty ones dropped. *)
Lemma chunk_loop_windows fuel start :
      chunk_loop fuel text cs ov start =
        (fun ws => filter (fun c => truthy c = true)
                          (map (fun w => strip (window_text text w)) ws))
          <$> windows fuel text cs ov start.
Proof.
      revert start. induction fuel as [|fuel IH]; intros start; [done|].
      simpl. destruct (start <? len text); [|done].
      destruct (len text <=? cut_end text cs start - ov).
      - simpl. unfold window_text. simpl.
        rewrite filter_cons. by destruct (truthy _).
      - rewrite IH. destruct (windows fuel text cs ov _) as [ws|]; [|done].
        simpl. unfold window_text at 2. simpl.
        rewrite filter_cons. by destruct (truthy _).
Qed.

(** Every window starts inside the text and ends where [cut_end]
        says; the next window starts [ov] characters before that end. *)
Lemma windows_inv fuel start ws :
      0 <= start -> windows fuel text cs ov start = Some ws ->
      Forall (fun w => start <= w.1 /\ w.1 < len text /\
                       w.2 = cut_end text cs w.1) ws /\
      (forall (i : nat) w1 w2,
          ws !! i = Some w1 -> ws !! S i = Some w2 ->
          w2.1 = w1.2 - ov) /\
      (forall w, head ws = Some w -> w.1 = start).
Proof.
      revert start ws. induction fuel as [|fuel IH]; intros start ws Hs; [done|].
      simpl. destruct (Z.ltb_spec start (len text)) as [Hlt|Hge].
      2:{ intros [= <-]. split; [constructor|]. split; [|done].
          intros i ? ? Hi. by rewrite lookup_nil in Hi. }
      pose proof (cut_end_progress start Hs) as Hprog.
      destruct (Z.leb_spec (len text) (cut_end text cs start - ov)).
      - intros [= <-]. split; [|split].
        + constructor; [simpl; lia | constructor].
        + intros [|i] ? ? ?; done.
        + by intros w [= <-].
      - destruct (windows fuel text cs ov _) as [ws'|] eqn:Hw; [|done].
        intros [= <-].
        assert (0 <= cut_end text cs start - ov) as Hs' by lia.
        destruct (IH _ _ Hs' Hw) as (Hall & Hadj & Hhd).
        split; [|split].
        + constructor; [simpl; lia|].
          eapply Forall_impl; [exact Hall|]. simpl. intros w ?. lia.
        + intros [|i] w1 w2; simpl.
          * intros [= <-] H2. simpl. apply Hhd. by destruct ws'.
          * apply Hadj.
        + by intros w [= <-].
Qed.

(** A text longer than one window is cut into at least two. *)
Lemma windows_two fuel ws :
      cs < len text -> windows fuel text cs ov 0 = Some ws ->
      (2 <= length ws)%nat.
Proof.
      intros Hlen. destruct fuel as [|fuel]; [done|]. simpl.
      destruct (Z.ltb_spec 0 (len text)); [|lia].
      destruct (cut_end_range text cs 0 (Z.le_refl 0) Hcs) as [Hle _].
      destruct (Z.leb_spec (len text) (cut_end text cs 0 - ov)); [lia|].
      pose proof (cut_end_progress 0 (Z.le_refl 0)).
      destruct fuel as [|fuel]; [done|]. simpl.
      destruct (Z.ltb_spec (cut_end text cs 0 - ov) (len text)); [|lia].
      match goal with |- context [if ?b then Some [] else ?r] =>
        destruct (if b then Some [] else r) as [ws'|]; [|done] end.
      intros [= <-]. simpl. lia.
Qed.

Lemma windows_lookup_inv fuel ws (i : nat) w :
      windows fuel text cs ov 0 = Some ws -> ws !! i = Some w ->
      0 <= w.1 /\ w.1 < len text /\ w.2 = cut_end text cs w.1.
Proof.
      intros Hws Hi.
      destruct (windows_inv fuel 0 ws (Z.le_refl 0) Hws) as (Hall & _ & _).
      rewrite Forall_forall in Hall.
      apply list_elem_of_lookup_2 in Hi. apply Hall in Hi. lia.
Qed.

    (** Consecutive windows share between 1 and [ov] characters. *)
Lemma windows_overlap fuel ws :
      0 < ov -> windows fuel text cs ov 0 = Some ws ->
      adjacent (fun w1 w2 => shares_overlap ov (window_text text w1)
                                               (window_text text w2)) ws.
Proof.
      intros Hpos Hws i w1 w2 H1 H2.
      destruct (windows_lookup_inv fuel ws i w1 Hws H1) as (Hs1 & Hl1 & He1).
      destruct (windows_lookup_inv fuel ws (S i) w2 Hws H2) as (Hs2 & Hl2 & He2).
      destruct (windows_inv fuel 0 ws (Z.le_refl 0) Hws) as (_ & Hadj & _).
      specialize (Hadj i w1 w2 H1 H2).
      pose proof (cut_end_progress w1.1 Hs1) as Hp1.
      pose proof (cut_end_progress w2.1 Hs2) as Hp2.
      exists (slice text w2.1 w1.2).
      assert (len (slice text w2.1 w1.2) = Z.min w1.2 (len text) - w2.1) as Hlen.
      { rewrite slice_length by lia. lia. }
      unfold len at 1 in Hlen.
      split; [lia|]. split; [lia|]. unfold window_text. split.
      - exists (slice text w1.1 w2.1). apply slice_app; lia.
      - exists (slice text w1.2 w2.2). apply slice_app; lia.
Qed.

Lemma window_nonempty fuel ws w :
      windows fuel text cs ov 0 = Some ws -> w ∈ ws ->
      truthy (window_text text w) = true.
Proof.
      intros Hws Hw. apply list_elem_of_lookup_1 in Hw as [i Hi].
      destruct (windows_lookup_inv fuel ws i w Hws Hi) as (Hs & Hl & He).
      pose proof (cut_end_progress w.1 Hs) as Hp.
      apply truthy_length. unfold window_text.
      pose proof (slice_length text w.1 w.2 Hs ltac:(lia)) as Hlen.
      unfold len at 1 in Hlen. lia.
Qed.

    (** Without whitespace nothing is stripped and nothing dropped. *)
Lemma chunk_loop_no_whitespace fuel ws :
      no_whitespace text -> windows fuel text cs ov 0 = Some ws ->
      chunk_loop fuel text cs ov 0 = Some (map (window_text text) ws).
Proof.
      intros Hns Hws. rewrite chunk_loop_windows, Hws. simpl. f_equal.
      assert (forall w, w ∈ ws -> strip (window_text text w) = window_text text w)
        as Hstrip.
      { intros w Hw. apply list_elem_of_lookup_1 in Hw as [i Hi].
        destruct (windows_lookup_inv fuel ws i w Hws Hi) as (Hs & Hl & He).
        pose proof (cut_end_progress w.1 Hs) as Hp.
        apply strip_no_space. intros c Hc. apply Hns.
        unfold window_text in Hc. eapply slice_elem_of; [| |exact Hc]; lia. }
      assert (forall w, w ∈ ws -> truthy (window_text text w) = true) as Hne.
      { intros w Hw. by eapply window_nonempty. }
      clear Hws. induction ws as [|w ws IH]; [done|].
      simpl. rewrite filter_cons.
      rewrite Hstrip by apply list_elem_of_here.
      rewrite decide_True by (apply Hne, list_elem_of_here).
      f_equal. apply IH; intros w' Hw'.
      - apply Hstrip. by apply list_elem_of_further.
      - apply Hne. by apply list_elem_of_further.
Qed.

    (** Where a window ends, in terms of the last sentence terminator
        of its tentative extent. *)
Lemma cut_end_rule start :
      0 <= start -> start + cs < len text ->
      (forall p, last_terminator (slice text start (start + cs)) p ->
                 cs < 2 * p -> cut_end text cs start = start + p + 1) /\
      (forall p, last_terminator (slice text start (start + cs)) p ->
                 2 * p <= cs -> cut_end text cs start = start + cs) /\
      (no_terminator (slice text start (start + cs)) ->
       cut_end text cs start = start + cs).
Proof.
      intros Hs Hin. rewrite cut_end_unfold.
      destruct (Z.ltb_spec (start + cs) (len text)); [|lia].
      split; [|split].
      - intros p Hp Hlt. rewrite (last_sentence_end_last _ _ Hp).
        destruct (Z.ltb_spec cs (2 * p)); [done | lia].
      - intros p Hp Hle. rewrite (last_sentence_end_last _ _ Hp).
        destruct (Z.ltb_spec cs (2 * p)); [lia | done].
      - intros Hno. rewrite (last_sentence_end_none _ Hno).
        destruct (Z.ltb_spec cs (2 * -1)); [lia | done].
Qed.

End Loop.

End ChunkerFacts.

(** ** The chunker on long texts (C4, C5) *)
Section ChunkerClaims.
Import Py Chunker.

Lemma default_fuel_enough (text : string) :
    Z.max 0 (len (chars text) - 0) < Z.of_nat (S (String.length text)).
Proof. unfold len. rewrite length_chars. lia. Qed.

(** With the default arguments the loop always finishes within the
    fuel [_chunk_text] supplies. *)
Lemma chunk_text_total (text : string) : is_Some (_chunk_text text).
Proof.
    unfold _chunk_text, _chunk_text_with.
    destruct (len (chars text) <=? default_chunk_size); [by eexists|].
    rewrite chunk_loop_windows.
    destruct (windows_terminates (chars text) default_chunk_size
                default_overlap eq_refl ltac:(done)
                (S (String.length text)) 0 (Z.le_refl 0)
                (default_fuel_enough text)) as [ws ->].
    by eexists.
Qed.

Lemma chunk_loop_of_windows text cs ov fuel start ws :
    windows fuel text cs ov start = Some ws ->
    chunk_loop fuel text cs ov start =
      Some (filter (fun c => truthy c = true)
              (map (fun w => strip (window_text text w)) ws)).
Proof. intros H. by rewrite chunk_loop_windows, H. Qed.

Lemma adjacent_fmap {A B} (f : A -> B) (P : B -> B -> Prop) (l : list A) :
    adjacent (fun a b => P (f a) (f b)) l -> adjacent P (f <$> l).
Proof.
    intros H i a b Ha Hb. rewrite list_lookup_fmap in Ha, Hb.
    destruct (l !! i) as [a'|] eqn:Ea; [|done].
    destruct (l !! S i) as [b'|] eqn:Eb; [|done].
    simpl in Ha, Hb. injection Ha as <-. injection Hb as <-. by eapply H.
Qed.

(** C4 (amended). For every text longer than the default chunk size,
    [_chunk_text] returns; every returned chunk is a non-empty string;
    the character windows it cuts number at least two and neighbouring
    windows share a non-empty region of at most [overlap] characters;
    the chunks are these windows stripped, empty ones dropped. When the
    text has no whitespace, at least two chunks are returned and
    neighbouring chunks share such a region. *)
Theorem chunk_text_long (text : string) :
    default_chunk_size < len (chars text) ->
    exists chunks ws,
      _chunk_text text = Some chunks /\
      windows (S (String.length text)) (chars text)
              default_chunk_size default_overlap 0 = Some ws /\
      chunks = map str (filter (fun c => truthy c = true)
                 (map (fun w => strip (window_text (chars text) w)) ws)) /\
      Forall (fun c => c <> ""%string) chunks /\
      (2 <= length ws)%nat /\
      adjacent (fun w1 w2 =>
                  shares_overlap default_overlap
                    (window_text (chars text) w1)
                    (window_text (chars text) w2)) ws /\
      (no_whitespace (chars text) ->
       (2 <= length chunks)%nat /\
       adjacent (fun a b => shares_overlap default_overlap (chars a) (chars b))
                chunks).
Proof.
    intros Hlong.
    assert (0 <= default_overlap) as Hov by done.
    assert (0 < default_chunk_size) as Hcs by done.
    assert (2 * default_overlap <= default_chunk_size) as Hhalf by done.
    destruct (windows_terminates (chars text) default_chunk_size
                default_overlap Hcs Hhalf (S (String.length text)) 0
                (Z.le_refl 0) (default_fuel_enough text)) as [ws Hws].
    pose proof (chunk_loop_of_windows _ _ _ _ _ _ Hws) as Hloop.
    eexists _, ws. split; [|split; [exact Hws|split; [reflexivity|]]].
    { unfold _chunk_text, _chunk_text_with.
      destruct (Z.leb_spec (len (chars text)) default_chunk_size); [lia|].
      by rewrite Hloop. }
    split; [|split; [|split]].
    - apply Forall_forall. intros c Hc.
      apply list_elem_of_fmap in Hc as (l & -> & Hl).
      apply list_elem_of_filter in Hl as [Hl _]. by apply str_nonempty.
    - by eapply (windows_two (chars text)).
    - by eapply (windows_overlap (chars text)).
    - intros Hns.
      pose proof (chunk_loop_no_whitespace (chars text) default_chunk_size
                    default_overlap Hov Hcs Hhalf _ ws Hns Hws) as Hplain.
      rewrite Hloop in Hplain. injection Hplain as ->. split.
      + rewrite !length_map. by eapply (windows_two (chars text)).
      + apply adjacent_fmap, adjacent_fmap.
        intros i w1 w2 H1 H2. rewrite !chars_str.
        by eapply (windows_overlap (chars text)).
Qed.

(** A 600-character text without whitespace satisfies every premise. *)
Lemma chunk_text_long_witness :
    default_chunk_size < len (chars text_600) /\
    exists chunks ws,
      _chunk_text text_600 = Some chunks /\
      windows (S (String.length text_600)) (chars text_600)
              default_chunk_size default_overlap 0 = Some ws /\
      chunks = map str (filter (fun c => truthy c = true)
                 (map (fun w => strip (window_text (chars text_600) w)) ws)) /\
      Forall (fun c => c <> ""%string) chunks /\
      (2 <= length ws)%nat /\
      adjacent (fun w1 w2 =>
                  shares_overlap default_overlap
                    (window_text (chars text_600) w1)
                    (window_text (chars text_600) w2)) ws /\
      (no_whitespace (chars text_600) ->
       (2 <= length chunks)%nat /\
       adjacent (fun a b => shares_overlap default_overlap (chars a) (chars b))
                chunks).
Proof.
    assert (default_chunk_size < len (chars text_600)) as H by (vm_compute; reflexivity).
    split; [exact H | exact (chunk_text_long text_600 H)].
Defined.

(** C4 as stated fails on a text that is one letter followed by 512
    spaces: it is non-empty and longer than the chunk size, yet
    [_chunk_text] returns the single chunk ["a"]. *)
Lemma chunk_text_whitespace_counterexample :
    text_a_then_spaces <> ""%string /\
    default_chunk_size < len (chars text_a_then_spaces) /\
    _chunk_text text_a_then_spaces = Some ["a"%string] /\
    ~ chunks_overlap_claim text_a_then_spaces.
Proof.
    assert (_chunk_text text_a_then_spaces = Some ["a"%string]) as Hrun
      by (vm_compute; reflexivity).
    split; [discriminate|]. split; [vm_compute; reflexivity|].
    split; [exact Hrun|].
    intros (chunks & Hc & Htwo & _). rewrite Hrun in Hc.
    injection Hc as <-. simpl in Htwo. lia.
Qed.

(** C5 (amended). Whenever the tentative end [start + chunk_size] of a
    window is interior to the text: if the last sentence terminator of
    the tentative window lies strictly past 50% of it
    ([2 * p > chunk_size]) the chunk is cut just after that terminator;
    otherwise (terminator at or before 50%, or none) it is cut at the
    hard boundary. The chunks are the stripped windows. *)
Theorem sentence_cut_rule (text : list ascii) (cs ov : Z) :
    0 < cs -> 2 * ov <= cs ->
    exists ws,
      windows (S (length text)) text cs ov 0 = Some ws /\
      chunk_loop (S (length text)) text cs ov 0 =
        Some (filter (fun c => truthy c = true)
                (map (fun w => strip (window_text text w)) ws)) /\
      forall w, w ∈ ws -> w.1 + cs < len text ->
        (forall p, last_terminator (slice text w.1 (w.1 + cs)) p ->
                   cs < 2 * p -> w.2 = w.1 + p + 1) /\
        (forall p, last_terminator (slice text w.1 (w.1 + cs)) p ->
                   2 * p <= cs -> w.2 = w.1 + cs) /\
        (no_terminator (slice text w.1 (w.1 + cs)) -> w.2 = w.1 + cs).
Proof.
    intros Hcs Hhalf.
    destruct (windows_terminates text cs ov Hcs Hhalf (S (length text)) 0
                (Z.le_refl 0)) as [ws Hws]; [unfold len; lia|].
    exists ws. split; [done|]. split.
    { by apply chunk_loop_of_windows. }
    intros w Hw Hin. apply list_elem_of_lookup_1 in Hw as [i Hi].
    destruct (windows_lookup_inv text cs ov Hcs Hhalf _ ws i w Hws Hi)
      as (Hs & _ & ->).
    by apply cut_end_rule.
Qed.

Lemma last_terminator_middle (pre post : list ascii) (c : ascii) :
    is_terminator c = true ->
    Forall (fun x => is_terminator x = false) post ->
    last_terminator (pre ++ c :: post) (Z.of_nat (length pre)).
Proof.
    intros Hc Hpost. split; [lia|]. split.
    - exists c. split; [|done]. rewrite Nat2Z.id.
      by rewrite list_lookup_middle.
    - intros q x Hq Hx.
      rewrite lookup_app_r in Hx by lia.
      destruct (Z.to_nat q - length pre)%nat as [|k] eqn:Hk; [lia|].
      simpl in Hx. rewrite Forall_forall in Hpost.
      apply Hpost. by eapply list_elem_of_lookup_2.
Qed.

(** A terminator at index 300 of the first window of a 601-character
    text: the first chunk ends just after it. *)
Lemma sentence_cut_rule_witness :
    0 < default_chunk_size /\ 2 * default_overlap <= default_chunk_size /\
    exists ws,
      windows (S (length text_stop_past_half)) text_stop_past_half
              default_chunk_size default_overlap 0 = Some ws /\
      chunk_loop (S (length text_stop_past_half)) text_stop_past_half
                 default_chunk_size default_overlap 0 =
        Some (filter (fun c => truthy c = true)
                (map (fun w => strip (window_text text_stop_past_half w)) ws)) /\
      forall w, w ∈ ws -> w.1 + default_chunk_size < len text_stop_past_half ->
        (forall p,
            last_terminator
              (slice text_stop_past_half w.1 (w.1 + default_chunk_size)) p ->
            default_chunk_size < 2 * p -> w.2 = w.1 + p + 1) /\
        (forall p,
            last_terminator
              (slice text_stop_past_half w.1 (w.1 + default_chunk_size)) p ->
            2 * p <= default_chunk_size -> w.2 = w.1 + default_chunk_size) /\
        (no_terminator (slice text_stop_past_half w.1 (w.1 + default_chunk_size)) ->
         w.2 = w.1 + default_chunk_size).
Proof.
    assert (0 < default_chunk_size) as H1 by reflexivity.
    assert (2 * default_overlap <= default_chunk_size) as H2
      by (vm_compute; discriminate).
    split; [exact H1|]. split; [exact H2|].
    exact (sentence_cut_rule text_stop_past_half default_chunk_size
             default_overlap H1 H2).
Defined.

(** C5 as stated fails when the last terminator sits exactly at 50% of
    the window (index 256 of 512): the code keeps the hard boundary. *)
Lemma sentence_cut_at_half_counterexample :
    windows (S (length text_stop_at_half)) text_stop_at_half
            default_chunk_size default_overlap 0
      = Some [(0, 512); (462, 974)] /\
    last_terminator (slice text_stop_at_half 0 (0 + default_chunk_size)) 256 /\
    ~ cut_at_or_past_half_claim text_stop_at_half
        default_chunk_size default_overlap.
Proof.
    assert (windows (S (length text_stop_at_half)) text_stop_at_half
              default_chunk_size default_overlap 0
            = Some [(0, 512); (462, 974)]) as Hws by (vm_compute; reflexivity).
    assert (last_terminator
              (slice text_stop_at_half 0 (0 + default_chunk_size)) 256) as Hlast.
    { replace (slice text_stop_at_half 0 (0 + default_chunk_size))
        with (repeat "a"%char 256 ++ "."%char :: repeat "b"%char 255)
        by (vm_compute; reflexivity).
      replace 256 with (Z.of_nat (length (repeat "a"%char 256)))
        by (rewrite repeat_length; reflexivity).
      apply last_terminator_middle; [reflexivity|].
      apply Forall_forall. intros x Hx.
      apply list_elem_of_In, repeat_spec in Hx. by subst. }
    split; [exact Hws|]. split; [exact Hlast|].
    intros Hclaim.
    specialize (Hclaim _ (0, 512) 256 Hws (list_elem_of_here _ _)).
    simpl in Hclaim.
    assert (512 = 0 + 256 + 1) as Habs; [|lia].
    apply Hclaim; [vm_compute; reflexivity | exact Hlast | vm_compute; discriminate].
Qed.

End ChunkerClaims.

(** ** The filter evaluator (C8, C10) *)
Section FilterClaims.
Import Py Indexer.

Lemma membership_keys_cases (k : string) :
    k ∈ membership_keys ->
    k = "project_ids"%string \/ k = "contractors"%string \/
    k = "statuses"%string \/ k = "document_types"%string \/
    k = "categories"%string.
Proof.
    unfold membership_keys. rewrite !elem_of_cons, elem_of_nil. tauto.
Qed.

(** One list-valued filter: the looked-up value, [None] for a missing
    field, is searched in the list; metadata that is no dictionary
    cannot be read at all. *)
Lemma check_filter_membership dm k l :
    k ∈ membership_keys ->
    check_filter dm k (PList l) =
      if field_readable dm k
      then Returns (py_in (default PNone (chunk_field dm k)) l)
      else Raises AttributeError.
Proof.
    intros Hk. apply membership_keys_cases in Hk.
    destruct Hk as [-> | [-> | [-> | [-> | ->] ] ] ];
      unfold check_filter, field_readable, chunk_field; simpl;
      try (destruct (metadata dm); reflexivity).
    by destruct (document_type dm).
Qed.

Lemma match_filters_cons_membership dm k l fs :
    k ∈ membership_keys ->
    _match_filters dm ((k, PList l) :: fs) =
      read_member dm k l && _match_filters dm fs.
Proof.
    intros Hk. unfold _match_filters, read_member. simpl.
    rewrite check_filter_membership by done.
    destruct (field_readable dm k); [|done]. simpl.
    by destruct (py_in _ l).
Qed.

Lemma match_filters_read dm fs :
    Forall (fun kl => kl.1 ∈ membership_keys) fs ->
    _match_filters dm (list_filters fs) = true <->
    Forall (fun kl => read_member dm kl.1 kl.2 = true) fs.
Proof.
    induction 1 as [|[k l] fs Hk _ IH]; simpl.
    - split; [constructor | done].
    - simpl in Hk. rewrite match_filters_cons_membership by done.
      rewrite andb_true_iff, Forall_cons, IH. reflexivity.
Qed.

Lemma read_member_stated dm k l :
    py_in PNone l = false -> read_member dm k l = stated_member dm k l.
Proof.
    intros Hnone. unfold read_member, stated_member, field_readable, chunk_field.
    destruct (String.eqb k "document_types").
    - simpl. destruct (document_type dm); simpl; [done|]. exact Hnone.
    - simpl. destruct (metadata dm); try done.
      destruct (dict_get _ _); simpl; [done|]. exact Hnone.
Qed.

(** C8 (amended). For a filter set over the five list-valued keys,
    [_match_filters] returns [True] iff, for each supplied key, the
    value read from the chunk -- [None] when the chunk lacks the field
    -- is a member of the supplied list (and the chunk's metadata can be
    read at all), all keys combined conjunctively. Hence a chunk lacking
    the field fails that key unless the supplied list contains [None]:
    when no list contains [None] the result is exactly membership of
    the chunk's field value, a missing field failing. *)
Theorem match_filters_membership dm (fs : list (string * list pyval)) :
    Forall (fun kl => kl.1 ∈ membership_keys) fs ->
    (_match_filters dm (list_filters fs) = true <->
     Forall (fun kl => read_member dm kl.1 kl.2 = true) fs) /\
    (Forall (fun kl => py_in PNone kl.2 = false) fs ->
     (_match_filters dm (list_filters fs) = true <->
      Forall (fun kl => stated_member dm kl.1 kl.2 = true) fs)).
Proof.
    intros Hkeys. split; [by apply match_filters_read|].
    intros Hnone. rewrite match_filters_read by done.
    rewrite !Forall_forall. rewrite Forall_forall in Hnone.
    split; intros H kl Hkl; specialize (H kl Hkl);
      by rewrite read_member_stated in * by auto.
Qed.

Lemma match_filters_membership_witness :
    let fs := [("project_ids"%string, [PStr "P1"; PStr "P2"]);
               ("document_types"%string, [PStr "contract"])] in
    Forall (fun kl => kl.1 ∈ membership_keys) fs /\
    _match_filters chunk_project_P1 (list_filters fs) = true /\
    Forall (fun kl => stated_member chunk_project_P1 kl.1 kl.2 = true) fs.
Proof.
    intros fs.
    assert (Forall (fun kl => kl.1 ∈ membership_keys) fs) as Hkeys.
    { repeat constructor. }
    assert (Forall (fun kl => py_in PNone kl.2 = false) fs) as Hnone
      by (repeat constructor).
    assert (Forall (fun kl => stated_member chunk_project_P1 kl.1 kl.2 = true) fs)
      as Hst by (repeat constructor).
    split; [exact Hkeys|]. split; [|exact Hst].
    exact (proj2 (proj2 (match_filters_membership chunk_project_P1 fs Hkeys)
                        Hnone) Hst).
Defined.

(** C8 as stated fails for a chunk without [project_id] and the filter
    [{"project_ids": [None]}] (what [_convert_filters] makes of
    [{"project_id": None}]): the chunk lacks the field, yet passes. *)
Lemma match_filters_none_counterexample :
    chunk_field chunk_plain "project_ids" = None /\
    _match_filters chunk_plain (list_filters [("project_ids"%string, [PNone])])
      = true /\
    ~ membership_claim chunk_plain [("project_ids"%string, [PNone])].
Proof.
    split; [reflexivity|]. split; [reflexivity|].
    intros Hclaim.
    assert (Forall (fun kl : string * list pyval => kl.1 ∈ membership_keys)
              [("project_ids"%string, [PNone])]) as Hkeys.
    { repeat constructor. }
    destruct (Hclaim Hkeys) as [Hto _].
    specialize (Hto eq_refl). inversion Hto as [|? ? Hhd _]. discriminate Hhd.
Qed.

(** C10. [_match_filters] always returns a boolean, and whenever the
    evaluation of the filters raises it returns [False]; the hit is then
    skipped by the result loop of [search]. *)
Theorem match_filters_raise_false dm (filters : filter_set) :
    (exists e, match_filters_body dm filters = Raises e) ->
    _match_filters dm filters = false /\
    forall store k hits results score idx,
      idx <> -1 -> store !! idx = Some dm ->
      collect store (Some filters) k ((score, idx) :: hits) results =
      collect store (Some filters) k hits results.
Proof.
    intros [e He].
    assert (_match_filters dm filters = false) as Hfalse
      by (unfold _match_filters; by rewrite He).
    split; [exact Hfalse|].
    intros store k hits results score idx Hidx Hdm. simpl.
    destruct (Z.eqb_spec idx (-1)); [done|]. rewrite Hdm.
    destruct filters as [|f fs]; [by simpl in He|].
    simpl. unfold _match_filters in Hfalse. simpl in Hfalse.
    unfold _match_filters. simpl. by rewrite Hfalse.
Qed.

(** A confidence that is a string cannot be compared with a numeric
    threshold: the filter raises and the chunk is rejected. *)
Lemma confidence_not_comparable dm d s (q : Qc) :
    metadata dm = PDict d -> dict_get d "confidence" = Some (PStr s) ->
    match_filters_body dm [("confidence_min"%string, PFloat q)] = Raises TypeError.
Proof.
    intros Hm Hd. simpl. unfold check_filter. simpl. rewrite Hm. simpl.
    by rewrite Hd.
Qed.

(** A [date_range] that is a number is not a container: with a chunk
    that has a timestamp the filter raises. *)
Lemma date_range_malformed dm (n : Z) :
    py_truthy (timestamp dm) = true ->
    match_filters_body dm [("date_range"%string, PInt n)] = Raises TypeError.
Proof.
    intros Ht. simpl. unfold check_filter. simpl. by rewrite Ht.
Qed.

Lemma match_filters_raise_false_witness :
    (exists e, match_filters_body chunk_text_confidence
                 [("confidence_min"%string, PFloat (Q2Qc (1 # 2)))] = Raises e) /\
    _match_filters chunk_text_confidence
      [("confidence_min"%string, PFloat (Q2Qc (1 # 2)))] = false.
Proof.
    assert (exists e, match_filters_body chunk_text_confidence
              [("confidence_min"%string, PFloat (Q2Qc (1 # 2)))] = Raises e) as H.
    { exists TypeError. reflexivity. }
    split; [exact H|].
    exact (proj1 (match_filters_raise_false chunk_text_confidence _ H)).
Defined.

End FilterClaims.

(** ** The indexer: alignment, deletion, normalisation (C3, C7, C1) *)
Section IndexerClaims.
Import Py Indexer.
Context {vec : Type}.
Variable encode : string -> outcome vec.

Lemma register_lookup (store : gmap Z chunk_metadata) start metas p :
    register store start metas !! p =
      if decide (start <= p < start + Z.of_nat (length metas))
      then metas !! Z.to_nat (p - start)
      else store !! p.
Proof.
    revert store start. induction metas as [|m metas IH]; intros store start.
    - simpl. case_decide; [lia | done].
    - simpl. rewrite IH. repeat case_decide; try lia.
      + replace (Z.to_nat (p - start)) with (S (Z.to_nat (p - (start + 1))))
          by lia. done.
      + assert (p = start) as -> by lia.
        rewrite lookup_insert_eq. by replace (start - start) with 0 by lia.
      + rewrite lookup_insert_ne by lia. done.
Qed.

Lemma embed_texts_spec texts vs :
    _embed_texts encode texts = Returns vs ->
    Forall2 (fun t v => encode t = Returns v) texts vs.
Proof.
    revert vs. induction texts as [|t texts IH]; intros vs; simpl.
    - intros [= <-]. constructor.
    - destruct (encode t) as [v|] eqn:Hv; [|done]. simpl.
      destruct (_embed_texts encode texts) as [vs'|]; [|done]. simpl.
      intros [= <-]. constructor; [done | by apply IH].
Qed.

Lemma ntotal_rows (st : indexer vec) :
    ntotal st = Z.of_nat (length (default [] (index st))).
Proof. unfold ntotal. by destruct (index st). Qed.

(** What a successful [add_documents] does to the state. *)
Lemma add_documents_spec (st st' : indexer vec) documents n :
    add_documents encode st documents = Returns (st', n) ->
    let metas := flat_map document_chunks documents in
    n = Z.of_nat (length metas) /\
    (metas = [] -> st' = st) /\
    exists vs,
      Forall2 (fun dm v => encode (content dm) = Returns v) metas vs /\
      default [] (index st') = default [] (index st) ++ vs /\
      document_store st' = register (document_store st) (ntotal st) metas /\
      (metas <> [] -> index st' = Some (default [] (index st) ++ vs)).
Proof.
    intros Hadd. cbv zeta. unfold add_documents in Hadd.
    remember (flat_map document_chunks documents) as metas eqn:Hmetas.
    assert (documents = [] -> metas = []) as Hnil by (intros ->; by subst).
    assert (metas = [] -> st' = st /\ n = 0) as Hempty.
    { intros ->. destruct documents; simpl in Hadd; by injection Hadd as <- <-. }
    destruct metas as [|m metas'] eqn:Hm.
    { destruct (Hempty eq_refl) as [-> ->]. split; [done|]. split; [done|].
      exists []. split; [constructor|]. by rewrite app_nil_r. }
    rewrite <- Hm in *.
    destruct documents as [|doc documents']; [rewrite Hnil in Hm; done|].
    assert (map content metas <> []) as Hne by (rewrite Hm; done).
    destruct (map content metas) as [|t ts] eqn:Ht; [done|].
    rewrite <- Ht in *. clear Hne.
    destruct (_embed_texts encode (map content metas)) as [vs|] eqn:Hvs;
      [|done].
    simpl in Hadd. injection Hadd as <- <-.
    split; [by rewrite length_map|]. split; [by rewrite Hm|].
    exists vs. split.
    { apply embed_texts_spec in Hvs. by apply Forall2_fmap_l in Hvs. }
    simpl. rewrite ntotal_rows. done.
Qed.

Lemma aligned_add (st st' : indexer vec) documents n :
    aligned encode st ->
    add_documents encode st documents = Returns (st', n) ->
    aligned encode st'.
Proof.
    intros Hal Hadd.
    destruct (add_documents_spec _ _ _ _ Hadd)
      as (_ & _ & vs & Hvs & Hrows & Hstore & _).
    pose proof (Forall2_length _ _ _ Hvs) as Hlen.
    intros p dm Hp. rewrite Hstore, register_lookup in Hp.
    rewrite (ntotal_rows st'), Hrows, length_app.
    rewrite (ntotal_rows st) in Hp.
    case_decide as Hrange.
    - destruct (Forall2_lookup_l _ _ _ _ _ Hvs Hp) as (v & Hv & Henc).
      split; [lia|]. exists v. split; [|done].
      rewrite lookup_app_r by lia. rewrite <- Hv. f_equal. lia.
    - destruct (Hal p dm Hp) as (Hb & v & Hv & Henc).
      rewrite ntotal_rows in Hb.
      split; [lia|]. exists v. split; [|done].
      rewrite lookup_app_l by lia. done.
Qed.

(** The deletion loop removes the listed keys and counts them. *)
Lemma delete_loop_spec (store : gmap Z chunk_metadata) (ks : list Z) (n : Z) :
    NoDup ks -> (forall k, k ∈ ks -> is_Some (store !! k)) ->
    foldl (fun '(store, n) index_id =>
             match store !! index_id with
             | Some _ => (delete index_id store, n + 1)
             | None => (store, n)
             end) (store, n) ks
    = (filter (fun kv => kv.1 ∉ ks) store, n + Z.of_nat (length ks)).
Proof.
    revert store n. induction ks as [|k ks IH]; intros store n Hnd Hin.
    - simpl. f_equal; [|lia]. symmetry. apply map_filter_id.
      intros ? ? _. apply not_elem_of_nil.
    - apply NoDup_cons in Hnd as [Hk Hnd]. simpl.
      destruct (Hin k (list_elem_of_here _ _)) as [x ->].
      rewrite IH; [|done|].
      + f_equal; [|lia]. apply map_eq. intros i.
        rewrite !map_lookup_filter.
        destruct (decide (i = k)) as [->|Hne].
        * rewrite lookup_delete_eq. simpl.
          destruct (store !! k); [|done]. simpl.
          rewrite option_guard_False; [done|]. simpl.
          intros H. apply H, list_elem_of_here.
        * rewrite lookup_delete_ne by done.
          destruct (store !! i); [|done]. simpl.
          destruct (decide (i ∈ ks)).
          -- rewrite !option_guard_False; [done| |]; simpl; [|tauto].
             rewrite elem_of_cons. tauto.
          -- rewrite !option_guard_True; [done| |]; simpl; [|done].
             rewrite elem_of_cons. tauto.
      + intros k' Hk'. rewrite lookup_delete_ne by (intros ->; done).
        apply Hin. by apply list_elem_of_further.
Qed.

Lemma store_items_perm (store : gmap Z chunk_metadata) :
    store_items store ≡ₚ map_to_list store.
Proof. apply merge_sort_Permutation. Qed.

Lemma delete_documents_spec (st : indexer vec) ids :
    (index st = None -> document_store st = ∅) ->
    document_store (delete_documents st ids).1 =
      filter (fun kv => document_id kv.2 ∉ ids) (document_store st) /\
    (delete_documents st ids).2 =
      Z.of_nat (size (filter (fun kv => document_id kv.2 ∈ ids)
                             (document_store st))) /\
    index (delete_documents st ids).1 = index st.
Proof.
    intros Hwf. unfold delete_documents.
    destruct (index st) as [rows|] eqn:Hidx.
    2:{ simpl. rewrite Hidx, (Hwf eq_refl).
        by rewrite !map_filter_empty, map_size_empty. }
    set (P := fun kv : Z * chunk_metadata => document_id kv.2 ∈ ids).
    set (ks := (filter P (store_items (document_store st))).*1).
    assert (NoDup ks) as Hnd.
    { unfold ks. eapply NoDup_fmap_fst.
      - intros k x y Hx Hy.
        apply list_elem_of_filter in Hx as [_ Hx], Hy as [_ Hy].
        rewrite store_items_perm in Hx, Hy.
        apply elem_of_map_to_list in Hx, Hy. congruence.
      - apply NoDup_filter. rewrite store_items_perm.
        apply NoDup_map_to_list. }
    assert (forall k, k ∈ ks <->
              exists dm, document_store st !! k = Some dm /\ P (k, dm)) as Hks.
    { intros k. unfold ks. rewrite list_elem_of_fmap. split.
      - intros ([k' dm] & -> & Hin). apply list_elem_of_filter in Hin as [HP Hin].
        rewrite store_items_perm in Hin. apply elem_of_map_to_list in Hin.
        by exists dm.
      - intros (dm & Hdm & HP). exists (k, dm). split; [done|].
        apply list_elem_of_filter. split; [done|].
        rewrite store_items_perm. by apply elem_of_map_to_list. }
    pose proof (delete_loop_spec (document_store st) ks 0 Hnd) as Hloop.
    rewrite Hloop.
    2:{ intros k Hk. apply Hks in Hk as (dm & -> & _). by eexists. }
    assert (filter (fun kv : Z * chunk_metadata => kv.1 ∉ ks) (document_store st)
            = filter (fun kv => document_id kv.2 ∉ ids) (document_store st))
      as Hfilter.
    { apply map_filter_ext. intros k dm Hdm. simpl. rewrite Hks. split.
      - intros Hn Hin. apply Hn. by exists dm.
      - intros Hn (dm' & Hdm' & HP). unfold P in HP. simpl in HP.
        congruence. }
    assert (Z.of_nat (length ks) =
            Z.of_nat (size (filter P (document_store st)))) as Hcount.
    { f_equal. unfold ks. rewrite length_fmap.
      rewrite (map_filter_alt P), map_size_list_to_map.
      - apply Permutation_length. by rewrite store_items_perm.
      - eapply NoDup_fmap_fst.
        + intros k x y Hx Hy.
          apply list_elem_of_filter in Hx as [_ Hx], Hy as [_ Hy].
          apply elem_of_map_to_list in Hx, Hy. congruence.
        + apply NoDup_filter, NoDup_map_to_list. }
    destruct ks as [|k ks'] eqn:Eks.
    - simpl. rewrite Hidx. rewrite <- Hfilter, <- Hcount. split; [|done].
      symmetry. apply map_filter_id. intros ? ? _. apply not_elem_of_nil.
    - simpl. rewrite <- Hfilter, <- Hcount. split; [done|]. split; [|done].
      simpl. lia.
Qed.

Lemma reachable_store_empty (st : indexer vec) :
    reachable encode st -> index st = None -> document_store st = ∅.
Proof.
    induction 1 as [| |st o _ IH]; [done | done |].
    destruct o as [documents | ids]; simpl.
    - destruct (add_documents encode st documents) as [[st' n]|] eqn:Hadd;
        [|done].
      destruct (add_documents_spec _ _ _ _ Hadd)
        as (_ & Hsame & vs & _ & _ & _ & Hidx).
      destruct (flat_map document_chunks documents) as [|m ms] eqn:Hm.
      + rewrite (Hsame eq_refl). exact IH.
      + rewrite Hidx by done. done.
    - destruct (delete_documents_spec st ids IH) as (Hst & _ & Hidx).
      rewrite Hidx, Hst. intros Hnone. rewrite (IH Hnone).
      apply map_filter_empty.
Qed.

Lemma active_document_ids_spec (st : indexer vec) id :
    id ∈ active_document_ids st <->
    exists p dm, document_store st !! p = Some dm /\ document_id dm = id.
Proof.
    unfold active_document_ids. rewrite elem_of_list_to_set, list_elem_of_fmap.
    split.
    - intros ([p dm] & -> & Hin). apply elem_of_map_to_list in Hin. eauto.
    - intros (p & dm & Hdm & <-). exists (p, dm). split; [done|].
      by apply elem_of_map_to_list.
Qed.

Lemma aligned_delete (st : indexer vec) ids :
    aligned encode st -> aligned encode (delete_documents st ids).1.
Proof.
    intros Hal. destruct (index st) as [rows|] eqn:Hidx.
    - destruct (delete_documents_spec st ids) as (Hst & _ & Hi);
        [congruence|].
      intros p dm Hp. rewrite Hst in Hp.
      apply map_lookup_filter_Some in Hp as [Hp _].
      unfold ntotal. rewrite Hi. by apply Hal.
    - unfold delete_documents. rewrite Hidx. exact Hal.
Qed.

Lemma aligned_step (st : indexer vec) o :
    aligned encode st -> aligned encode (step encode st o).
Proof.
    intros Hal. destruct o as [documents | ids]; simpl.
    - destruct (add_documents encode st documents) as [[st' n]|] eqn:Hadd;
        [by eapply aligned_add | done].
    - by apply aligned_delete.
Qed.

Lemma aligned_run (st : indexer vec) ops :
    aligned encode st -> aligned encode (run encode st ops).
Proof.
    revert st. induction ops as [|o ops IH]; intros st Hal; [done|].
    simpl. by apply IH, aligned_step.
Qed.

(** C3. Starting from the empty indexer, after any sequence of
    [add_documents] and [delete_documents] calls every key [p] of the
    chunk store satisfies [0 <= p < ntotal] and index row [p] is the
    embedding of the content of the entry at [p]. A successful
    [add_documents] appends the embeddings of the [n] new chunks in
    order and stores the chunks under the consecutive keys
    [old_size .. old_size + n - 1], leaving the other keys alone;
    [delete_documents] only removes keys and leaves the index alone. *)
Theorem positional_alignment :
    (forall ops, aligned encode (run encode empty_indexer ops)) /\
    (forall (st st' : indexer vec) documents n,
        add_documents encode st documents = Returns (st', n) ->
        let metas := flat_map document_chunks documents in
        n = Z.of_nat (length metas) /\
        ntotal st' = ntotal st + n /\
        (forall (i : nat) dm,
            metas !! i = Some dm ->
            document_store st' !! (ntotal st + Z.of_nat i) = Some dm /\
            exists v,
              encode (content dm) = Returns v /\
              default [] (index st') !! (Z.to_nat (ntotal st) + i)%nat = Some v) /\
        (forall p, ~ (ntotal st <= p < ntotal st + n) ->
                   document_store st' !! p = document_store st !! p) /\
        (forall (j : nat) v, default [] (index st) !! j = Some v ->
                             default [] (index st') !! j = Some v)) /\
    (forall (st : indexer vec) ids,
        document_store (delete_documents st ids).1 ⊆ document_store st /\
        index (delete_documents st ids).1 = index st).
Proof.
    split; [|split].
    - intros ops. apply aligned_run. intros p dm Hp. simpl in Hp.
      by rewrite lookup_empty in Hp.
    - intros st st' documents n Hadd metas.
      destruct (add_documents_spec _ _ _ _ Hadd)
        as (Hn & _ & vs & Hvs & Hrows & Hstore & _).
      fold metas in Hn, Hvs, Hstore.
      pose proof (Forall2_length _ _ _ Hvs) as Hlen.
      split; [done|]. split.
      { rewrite (ntotal_rows st'), Hrows, length_app, (ntotal_rows st). lia. }
      split; [|split].
      + intros i dm Hi. pose proof (lookup_lt_Some _ _ _ Hi) as Hlt.
        split.
        * rewrite Hstore, register_lookup. rewrite decide_True by lia.
          rewrite <- Hi. f_equal. lia.
        * destruct (Forall2_lookup_l _ _ _ _ _ Hvs Hi) as (v & Hv & Henc).
          exists v. split; [done|]. rewrite Hrows, ntotal_rows.
          rewrite lookup_app_r by lia. rewrite <- Hv. f_equal. lia.
      + intros p Hp. rewrite Hstore, register_lookup.
        rewrite decide_False by lia. done.
      + intros j v Hj. rewrite Hrows. by apply lookup_app_l_Some.
    - intros st ids. destruct (index st) as [rows|] eqn:Hidx.
      + destruct (delete_documents_spec st ids) as (Hst & _ & Hi);
          [congruence|].
        split; [|congruence]. rewrite Hst. apply map_filter_subseteq.
      + unfold delete_documents. rewrite Hidx. done.
Qed.

(** C7. In every state the indexer can be in, [delete_documents]
    removes exactly the chunk-store entries whose [document_id] is in
    the list and returns their number; the index is untouched, so
    [total_vectors] is unchanged, and the deleted ids are no longer
    among the active documents (the others still are). *)
Theorem delete_documents_frame (st : indexer vec) ids :
    reachable encode st ->
    document_store (delete_documents st ids).1 =
      filter (fun kv => document_id kv.2 ∉ ids) (document_store st) /\
    (delete_documents st ids).2 =
      Z.of_nat (size (filter (fun kv => document_id kv.2 ∈ ids)
                             (document_store st))) /\
    index (delete_documents st ids).1 = index st /\
    total_vectors (get_index_stats (delete_documents st ids).1) =
      total_vectors (get_index_stats st) /\
    active_document_ids (delete_documents st ids).1 =
      active_document_ids st ∖ list_to_set ids /\
    (forall id, id ∈ ids ->
                id ∉ active_document_ids (delete_documents st ids).1).
Proof.
    intros Hreach.
    destruct (delete_documents_spec st ids (reachable_store_empty st Hreach))
      as (Hst & Hn & Hi).
    assert (forall id, id ∈ active_document_ids (delete_documents st ids).1 <->
                       id ∈ active_document_ids st /\ id ∉ ids) as Hact.
    { intros id. rewrite !active_document_ids_spec. rewrite Hst. split.
      - intros (p & dm & Hp & <-).
        apply map_lookup_filter_Some in Hp as [Hp Hnot]. eauto.
      - intros [(p & dm & Hp & <-) Hnot]. exists p, dm. split; [|done].
        by apply map_lookup_filter_Some. }
    split; [done|]. split; [done|]. split; [done|]. split.
    { simpl. unfold ntotal. by rewrite Hi. }
    split.
    - apply set_eq. intros id. rewrite Hact, elem_of_difference.
      by rewrite elem_of_list_to_set.
    - intros id Hid Hin. apply Hact in Hin. tauto.
Qed.

(** The query path normalises; the insertion path does not. *)
Lemma query_vector_spec (normalize_L2 : vec -> vec) q :
    query_vector encode normalize_L2 q = normalize_L2 <$> encode q.
Proof. unfold query_vector, _embed_text. by destruct (encode q). Qed.

End IndexerClaims.

Section IndexerRuns.
Import Py Indexer.

Lemma delete_documents_frame_witness :
    reachable encode_two indexer_D1 /\
    document_store (delete_documents indexer_D1 ["D1"%string]).1 =
      filter (fun kv => document_id kv.2 ∉ ["D1"%string])
             (document_store indexer_D1) /\
    (delete_documents indexer_D1 ["D1"%string]).2 =
      Z.of_nat (size (filter (fun kv => document_id kv.2 ∈ ["D1"%string])
                             (document_store indexer_D1))).
Proof.
    assert (reachable encode_two indexer_D1) as H by apply reachable_loaded.
    split; [exact H|].
    pose proof (delete_documents_frame encode_two indexer_D1 ["D1"%string] H)
      as (H1 & H2 & _).
    split; [exact H1 | exact H2].
Defined.

(** A run that leaves a chunk in the store, under a model that tells
    the two texts apart: [doc_D1] is stored at key 0 with row 23,
    [doc_D2] at key 1 with row 18, and deleting ["D1"] leaves key 1
    and both rows where they were. *)
Lemma positional_alignment_witness :
    add_documents Samples.encode_length empty_indexer [doc_D1]
      = Returns (Samples.indexer_length_D1, 1) /\
    add_documents Samples.encode_length Samples.indexer_length_D1
                  [Samples.doc_D2]
      = Returns (Samples.indexer_length_D1_D2, 1) /\
    run Samples.encode_length empty_indexer
        [Add [doc_D1]; Add [Samples.doc_D2]; Delete ["D1"%string] ]
      = Samples.indexer_length_D2 /\
    aligned Samples.encode_length Samples.indexer_length_D2 /\
    (document_store Samples.indexer_length_D2 !! 1 = Some Samples.chunk_D2 /\
     0 <= 1 < ntotal Samples.indexer_length_D2 /\
     exists v,
       default [] (index Samples.indexer_length_D2) !! Z.to_nat 1 = Some v /\
       Samples.encode_length (content Samples.chunk_D2) = Returns v) /\
    (1 = Z.of_nat (length (flat_map document_chunks [Samples.doc_D2])) /\
     ntotal Samples.indexer_length_D1_D2
       = ntotal Samples.indexer_length_D1 + 1 /\
     (document_store Samples.indexer_length_D1_D2
        !! (ntotal Samples.indexer_length_D1 + Z.of_nat 0)
      = Some Samples.chunk_D2 /\
      exists v,
        Samples.encode_length (content Samples.chunk_D2) = Returns v /\
        default [] (index Samples.indexer_length_D1_D2)
          !! (Z.to_nat (ntotal Samples.indexer_length_D1) + 0)%nat = Some v) /\
     document_store Samples.indexer_length_D1_D2 !! 0
       = document_store Samples.indexer_length_D1 !! 0 /\
     default [] (index Samples.indexer_length_D1_D2) !! 0%nat = Some 23) /\
    (document_store
       (delete_documents Samples.indexer_length_D1_D2 ["D1"%string]).1
       ⊆ document_store Samples.indexer_length_D1_D2 /\
     index (delete_documents Samples.indexer_length_D1_D2 ["D1"%string]).1
       = index Samples.indexer_length_D1_D2).
Proof.
    assert (add_documents Samples.encode_length empty_indexer [doc_D1]
            = Returns (Samples.indexer_length_D1, 1)) as Hadd1
      by (vm_compute; reflexivity).
    assert (add_documents Samples.encode_length Samples.indexer_length_D1
                          [Samples.doc_D2]
            = Returns (Samples.indexer_length_D1_D2, 1)) as Hadd2
      by (vm_compute; reflexivity).
    assert (run Samples.encode_length empty_indexer
                [Add [doc_D1]; Add [Samples.doc_D2]; Delete ["D1"%string] ]
            = Samples.indexer_length_D2) as Hrun
      by (vm_compute; reflexivity).
    destruct (positional_alignment Samples.encode_length)
      as (Hinv & Hkeys & Hdel).
    pose proof (Hinv [Add [doc_D1]; Add [Samples.doc_D2];
                      Delete ["D1"%string] ]) as Hal.
    rewrite Hrun in Hal.
    assert (document_store Samples.indexer_length_D2 !! 1
            = Some Samples.chunk_D2) as Hstored by reflexivity.
    destruct (Hkeys _ _ _ _ Hadd2) as (Hn & Htotal & Hassign & Hframe & Hrows).
    assert (flat_map document_chunks [Samples.doc_D2] !! 0%nat
            = Some Samples.chunk_D2) as Hchunk by (vm_compute; reflexivity).
    split; [exact Hadd1|]. split; [exact Hadd2|]. split; [exact Hrun|].
    split; [exact Hal|].
    split; [split; [exact Hstored | exact (Hal 1 _ Hstored)]|].
    split.
    - split; [exact Hn|]. split; [exact Htotal|].
      split; [exact (Hassign 0%nat _ Hchunk)|].
      split; [apply Hframe; vm_compute; intros [H _]; by apply H|].
      by apply Hrows.
    - exact (Hdel Samples.indexer_length_D1_D2 ["D1"%string]).
Defined.

(** C1 (code evaluated at the failing input). With an embedding model
    whose vectors are not of unit length, [add_documents] stores the raw
    embedding [2] of the chunk while [search] compares it with the
    normalised embedding [1] of the very same text: the stored side is
    not normalised, the query side is, and the reported score is [2]. *)
Theorem normalization_asymmetry :
    add_documents encode_two empty_indexer [doc_D1] = Returns (indexer_D1, 1) /\
    encode_two "monthly payment reports" = Returns (Q2Qc 2) /\
    index indexer_D1 = Some [Q2Qc 2] /\
    query_vector encode_two normalize_1d "monthly payment reports"
      = Returns 1%Qc /\
    normalize_1d (Q2Qc 2) <> Q2Qc 2 /\
    search encode_two normalize_1d flat_search_1d indexer_D1
           "monthly payment reports" 1 None
      = Returns [make_result (Q2Qc 2) chunk_plain].
Proof.
    split; [vm_compute; reflexivity|]. split; [reflexivity|].
    split; [reflexivity|].
    split.
    { unfold query_vector, _embed_text, encode_two. simpl. f_equal.
      apply Qc_is_canon. reflexivity. }
    split; [vm_compute; discriminate|].
    unfold search. simpl. unfold query_vector, _embed_text, encode_two.
    simpl. reflexivity.
Qed.

End IndexerRuns.

(** ** Result fusion (C6) *)
Section FusionClaims.
Import Py Indexer Query.

Lemma ids_app l1 l2 : chunk_ids (l1 ++ l2) = chunk_ids l1 ++ chunk_ids l2.
Proof. apply map_app. Qed.

Lemma ids_take n l : chunk_ids (take n l) = take n (chunk_ids l).
Proof. symmetry. apply firstn_map. Qed.

Lemma seen_inv_snoc seen merged r :
    seen_inv seen merged -> r_chunk_id r ∉ seen ->
    seen_inv ({[r_chunk_id r]} ∪ seen) (merged ++ [r]).
Proof.
    intros [Hseen Hnd] Hr. split.
    - intros id. rewrite ids_app, elem_of_app, elem_of_union, Hseen. simpl.
      rewrite elem_of_singleton, list_elem_of_singleton. tauto.
    - rewrite ids_app. apply NoDup_app. split; [done|]. split.
      + simpl. intros id Hid Hin. apply list_elem_of_singleton in Hin as ->.
        by apply Hr, Hseen.
      + simpl. apply NoDup_singleton.
Qed.

Lemma merge_semantic_spec S seen merged :
    seen_inv seen merged ->
    exists extra,
      (merge_semantic S seen merged).2 = merged ++ extra /\
      seen_inv (merge_semantic S seen merged).1 (merged ++ extra) /\
      (forall r, r ∈ extra -> r ∈ S) /\
      (forall id, id ∈ chunk_ids (merged ++ extra) <-> id ∈ chunk_ids merged \/ id ∈ chunk_ids S).
Proof.
    revert seen merged. induction S as [|s S IH]; intros seen merged Hinv; simpl.
    - exists []. rewrite app_nil_r. split; [done|]. split; [done|].
      split; [by intros ? ?%elem_of_nil|].
      intros id. rewrite elem_of_nil. tauto.
    - case_bool_decide as Hs.
      + destruct (IH seen merged Hinv) as (extra & Heq & Hinv' & Hsub & Hids).
        exists extra. split; [done|]. split; [done|]. split.
        * intros r Hr. by apply list_elem_of_further, Hsub.
        * intros id. rewrite Hids, elem_of_cons. destruct Hinv as [Hseen _].
          apply Hseen in Hs. split; [tauto|]. intros [?|[->|?]]; tauto.
      + destruct (IH _ _ (seen_inv_snoc _ _ s Hinv Hs))
          as (extra & Heq & Hinv' & Hsub & Hids).
        exists (s :: extra). rewrite <- !app_assoc in *. simpl in *.
        split; [done|]. split; [done|]. split.
        * intros r Hr. apply elem_of_cons in Hr as [->|Hr];
            [apply list_elem_of_here | by apply list_elem_of_further, Hsub].
        * intros id. rewrite Hids, ids_app, elem_of_app. simpl.
          rewrite list_elem_of_singleton, elem_of_cons. tauto.
Qed.

Lemma merge_keyword_spec K seen merged :
    seen_inv seen merged ->
    exists extra,
      (merge_keyword K seen merged).2 = merged ++ extra /\
      seen_inv (merge_keyword K seen merged).1 (merged ++ extra) /\
      (forall r, r ∈ extra ->
                 (r_chunk_id r ∉ seen) /\ exists k, k ∈ K /\ r = boost k) /\
      (forall id, id ∈ chunk_ids (merged ++ extra) <-> id ∈ chunk_ids merged \/ id ∈ chunk_ids K).
Proof.
    revert seen merged. induction K as [|k K IH]; intros seen merged Hinv; simpl.
    - exists []. rewrite app_nil_r. split; [done|]. split; [done|].
      split; [by intros ? ?%elem_of_nil|].
      intros id. rewrite elem_of_nil. tauto.
    - case_bool_decide as Hs.
      + destruct (IH seen merged Hinv) as (extra & Heq & Hinv' & Hsub & Hids).
        exists extra. split; [done|]. split; [done|]. split.
        * intros r Hr. destruct (Hsub r Hr) as (Hn & k' & Hk' & ->).
          split; [done|]. exists k'. split; [by apply list_elem_of_further|done].
        * intros id. rewrite Hids, elem_of_cons. destruct Hinv as [Hseen _].
          apply Hseen in Hs. split; [tauto|]. intros [?|[->|?]]; tauto.
      + assert (r_chunk_id (boost k) = r_chunk_id k) as Hid by done.
        pose proof (seen_inv_snoc _ _ (boost k) Hinv) as Hsnoc.
        rewrite Hid in Hsnoc.
        destruct (IH _ _ (Hsnoc Hs)) as (extra & Heq & Hinv' & Hsub & Hids).
        exists (boost k :: extra). rewrite <- !app_assoc in *. simpl in *.
        split; [done|]. split; [done|]. split.
        * intros r Hr. apply elem_of_cons in Hr as [->|Hr].
          -- split; [done|]. exists k. split; [apply list_elem_of_here|done].
          -- destruct (Hsub r Hr) as (Hn & k' & Hk' & ->). split.
             ++ intros Hin. apply Hn. apply elem_of_union. by right.
             ++ exists k'. split; [by apply list_elem_of_further|done].
        * intros id. rewrite Hids, ids_app, elem_of_app. simpl.
          rewrite list_elem_of_singleton, elem_of_cons. tauto.
Qed.

Lemma insert_desc_perm x l : insert_desc x l ≡ₚ x :: l.
Proof.
    induction l as [|y l IH]; simpl; [done|].
    case_bool_decide; [done|]. rewrite IH. apply Permutation_swap.
Qed.

Lemma sort_desc_perm l : sort_desc l ≡ₚ l.
Proof.
    induction l as [|x l IH]; simpl; [done|].
    by rewrite insert_desc_perm, IH.
Qed.

Lemma insert_desc_sorted x l : descending l -> descending (insert_desc x l).
Proof.
    unfold descending. induction 1 as [|y l Hl IH Hy]; simpl.
    - by repeat constructor.
    - case_bool_decide as Hle.
      + constructor; [by constructor|]. constructor; [done|].
        eapply Forall_impl; [exact Hy|]. simpl. intros z Hz.
        by eapply Qcle_trans.
      + constructor; [done|]. rewrite insert_desc_perm.
        constructor; [|done]. apply Qclt_le_weak. by apply Qcnot_le_lt.
Qed.

Lemma sort_desc_sorted l : descending (sort_desc l).
Proof.
    induction l as [|x l IH]; simpl; [constructor|].
    by apply insert_desc_sorted.
Qed.

Lemma descending_take n l : descending l -> descending (take n l).
Proof.
    unfold descending. intros H. revert n.
    induction H as [|x l Hl IH Hx]; intros [|n]; simpl; try constructor.
    - apply IH.
    - by apply Forall_take.
Qed.

Lemma take_upto_nonneg {A} (m : Z) (l : list A) :
    0 <= m -> take_upto m l = take (Z.to_nat m) l.
Proof. intros Hm. unfold take_upto. by destruct (Z.ltb_spec m 0); [lia|]. Qed.

Lemma float_mul_comm x y : Float64.mul x y = Float64.mul y x.
Proof.
    unfold Float64.mul.
    destruct x as [sx|sx| |sx mx ex], y as [sy|sy| |sy my ey]; simpl;
      try reflexivity; rewrite ?(xorb_comm sx sy); try reflexivity.
    by rewrite (Pos.mul_comm mx my), (Z.add_comm ex ey).
Qed.

(** The score of a rescored entry, with the product in the order
    [0.8 * raw]: float multiplication commutes. *)
Lemma boost_score k :
    r_score (boost k)
    = Float64.value
        (Float64.add
           (Float64.mul (Float64.nearest (Q2Qc (8 # 10)))
                        (Float64.nearest (r_score k)))
           (Float64.nearest (Q2Qc (2 # 10)))).
Proof. simpl. unfold rescore. by rewrite float_mul_comm. Qed.

(** The list [_merge_results] sorts and truncates. *)
Lemma merge_results_unfold S K m :
    exists all,
      _merge_results S K m = take_upto m (sort_desc all) /\
      NoDup (chunk_ids all) /\
      (forall r, r ∈ all ->
                 r ∈ S \/
                 ((r_chunk_id r ∉ chunk_ids S) /\ exists k, k ∈ K /\ r = boost k)) /\
      (forall id, id ∈ chunk_ids all <-> id ∈ chunk_ids S \/ id ∈ chunk_ids K).
Proof.
    assert (seen_inv ∅ []) as H0.
    { split; [|constructor]. intros id. simpl.
      rewrite elem_of_nil. set_solver. }
    destruct (merge_semantic_spec S ∅ [] H0) as (sem & Hsem & Hinv & Hsub & Hids).
    simpl in *.
    destruct (merge_keyword_spec K _ _ Hinv) as (kw & Hkw & Hinv' & Hsubk & Hidk).
    exists (sem ++ kw). split.
    { unfold _merge_results.
      destruct (merge_semantic S ∅ []) as [seen1 merged1]. simpl in *. subst.
      destruct (merge_keyword K seen1 sem) as [seen2 merged2]. simpl in *.
      by subst. }
    split; [apply Hinv'|]. split.
    - intros r Hr. apply elem_of_app in Hr as [Hr|Hr]; [left; by apply Hsub|].
      right. destruct (Hsubk r Hr) as (Hn & k & Hk & ->).
      split; [|by exists k]. intros Hin. apply Hn.
      destruct Hinv as [Hseen _]. apply Hseen, Hids.
      rewrite elem_of_nil. by right.
    - intros id. rewrite Hidk, Hids, elem_of_nil. tauto.
Qed.

(** C6. For every semantic list [S], keyword list [K] and result cap
    [max_results >= 0], the merged list has no two entries with the same
    [chunk_id]; each entry is either an entry of [S], unchanged, or a
    keyword-only entry whose score is exactly the value of
    [0.8 * raw + 0.2] in the arithmetic of the code, binary64 floats
    (literals, product and sum rounded to nearest); the list is in
    descending score order and has at most [max_results] entries. It is
    the head of the sorted list of all distinct chunks of [S] and [K]. *)
Theorem merge_results_fusion S K (m : Z) :
    0 <= m ->
    NoDup (chunk_ids (_merge_results S K m)) /\
    (forall r, r ∈ _merge_results S K m ->
       r ∈ S \/
       ((r_chunk_id r ∉ chunk_ids S) /\
        exists k, k ∈ K /\ r_chunk_id k = r_chunk_id r /\ r = boost k /\
          r_score r
          = Float64.value
              (Float64.add
                 (Float64.mul (Float64.nearest (Q2Qc (8 # 10)))
                              (Float64.nearest (r_score k)))
                 (Float64.nearest (Q2Qc (2 # 10)))))) /\
    descending (_merge_results S K m) /\
    Z.of_nat (length (_merge_results S K m)) <= m /\
    exists all,
      _merge_results S K m = take (Z.to_nat m) (sort_desc all) /\
      sort_desc all ≡ₚ all /\
      (forall id, id ∈ chunk_ids all <-> id ∈ chunk_ids S \/ id ∈ chunk_ids K).
Proof.
    intros Hm.
    destruct (merge_results_unfold S K m) as (all & -> & Hnd & Hall & Hids).
    rewrite take_upto_nonneg by done.
    split; [|split; [|split; [|split] ] ].
    - rewrite ids_take.
      assert (chunk_ids (sort_desc all) ≡ₚ chunk_ids all) as Hperm
        by apply Permutation_map, sort_desc_perm.
      eapply sublist_NoDup; [|apply sublist_take]. by rewrite Hperm.
    - intros r Hr. apply elem_of_take in Hr as (i & Hr & _).
      apply list_elem_of_lookup_2 in Hr.
      rewrite sort_desc_perm in Hr.
      destruct (Hall r Hr) as [?|(Hn & k & Hk & ->)]; [by left|right].
      split; [done|]. exists k. split; [done|]. split; [done|].
      split; [done | apply boost_score].
    - apply descending_take, sort_desc_sorted.
    - rewrite length_take. lia.
    - exists all. split; [done|]. split; [apply sort_desc_perm | done].
Qed.

(** The semantic hit [result_a] (0.9) with the keyword hits [result_a]
    and [result_b] (raw 0.5): the duplicate is dropped and [result_b]
    is rescored to 0.6000000000000001, the float
    [5404319552844596 * 2^-53], which is above 3/5. *)
Lemma merge_results_fusion_witness :
    0 <= 10 /\
    _merge_results [result_a] [result_a; result_b] 10
      = [result_a; boost result_b] /\
    r_score (boost result_b) = Q2Qc (5404319552844596 # 9007199254740992) /\
    (Q2Qc (3 # 5) < r_score (boost result_b))%Qc /\
    NoDup (chunk_ids (_merge_results [result_a] [result_a; result_b] 10)) /\
    (forall r, r ∈ _merge_results [result_a] [result_a; result_b] 10 ->
       r ∈ [result_a] \/
       ((r_chunk_id r ∉ chunk_ids [result_a]) /\
        exists k, k ∈ [result_a; result_b] /\ r_chunk_id k = r_chunk_id r /\
          r = boost k /\
          r_score r
          = Float64.value
              (Float64.add
                 (Float64.mul (Float64.nearest (Q2Qc (8 # 10)))
                              (Float64.nearest (r_score k)))
                 (Float64.nearest (Q2Qc (2 # 10)))))) /\
    descending (_merge_results [result_a] [result_a; result_b] 10) /\
    Z.of_nat (length (_merge_results [result_a] [result_a; result_b] 10)) <= 10.
Proof.
    assert (0 <= 10) as H by lia.
    split; [exact H|].
    split; [vm_compute; reflexivity|].
    split; [apply Qc_is_canon; vm_compute; reflexivity|].
    split; [vm_compute; reflexivity|].
    pose proof (merge_results_fusion [result_a] [result_a; result_b] 10 H)
      as (H1 & H2 & H3 & H4 & _).
    split; [exact H1|]. split; [exact H2|]. split; [exact H3 | exact H4].
Defined.

End FusionClaims.

(** ** Degraded answers (C2, C9) *)
Section AnswerClaims.
Import Py Indexer Query.
Context {vec : Type}.
Variable encode : string -> outcome vec.
Variable normalize_L2 : vec -> vec.
Variable index_search : list vec -> vec -> Z -> outcome (list (Qc * Z)).
Variable chat_completion : string -> string -> outcome string.

Lemma make_sources_valid results :
    Forall (fun r => unit_interval (r_score r) = true) results ->
    exists srcs, make_sources results = Returns srcs /\
                 length srcs = length results.
Proof.
    induction 1 as [|r results Hr _ (srcs & IH & Hlen)]; simpl.
    - by exists [].
    - unfold make_source, new_SourceReference. rewrite Hr. simpl.
      rewrite IH. simpl. eexists. split; [done|]. simpl. by rewrite Hlen.
Qed.

Lemma make_sources_invalid results :
    ~ Forall (fun r => unit_interval (r_score r) = true) results ->
    make_sources results = Raises ValidationError.
Proof.
    induction results as [|r results IH]; intros Hnot.
    - destruct Hnot. constructor.
    - simpl. unfold make_source, new_SourceReference.
      destruct (unit_interval (r_score r)) eqn:Hr; [|done]. simpl.
      rewrite IH; [done|]. intros Hall. apply Hnot. by constructor.
Qed.

Lemma generate_ai_answer_fault q ctx :
    (forall s u, exists e, chat_completion s u = Raises e) ->
    _generate_ai_answer chat_completion q ctx
      = ("Unable to generate AI answer"%string, Q2Qc (2 # 10)).
Proof.
    intros Hfail. unfold _generate_ai_answer.
    by destruct (Hfail system_prompt
                   (answer_prompt q (join (nl +:+ nl) (take 5 ctx)))) as [e ->].
Qed.

(** The call to [query] itself never raises. *)
Lemma query_returns gen (st : indexer vec) request :
    exists res,
      query encode normalize_L2 index_search gen chat_completion st request
        = Returns res /\
      res_answer res =
        _generate_answer gen chat_completion request
          (_search_documents encode normalize_L2 index_search st request) /\
      search_results_count res =
        Z.of_nat (length (_search_documents encode normalize_L2 index_search
                                            st request)).
Proof. eexists. split; [reflexivity|]. by split. Qed.

(** What [_generate_answer] returns when the chat-completion call
    fails on a non-empty result list. *)
Lemma generate_answer_fault request results :
    (forall s u, exists e, chat_completion s u = Raises e) ->
    include_context request = true ->
    results <> [] ->
    (Forall (fun r => unit_interval (r_score r) = true) results ->
     answer_type (_generate_answer true chat_completion request results)
       = "synthesized"%string /\
     confidence (_generate_answer true chat_completion request results)
       = Q2Qc (2 # 10) /\
     answer (_generate_answer true chat_completion request results)
       = "Unable to generate AI answer"%string /\
     make_sources results
       = Returns (sources (_generate_answer true chat_completion request
                                            results))) /\
    (~ Forall (fun r => unit_interval (r_score r) = true) results ->
     _generate_answer true chat_completion request results = error_answer).
Proof.
    intros Hfail Hctx Hne. destruct results as [|top rest]; [done|].
    unfold _generate_answer, generate_answer_body. rewrite Hctx.
    rewrite generate_ai_answer_fault by done. split.
    - intros Hvalid. destruct (make_sources_valid _ Hvalid) as (srcs & -> & _).
      simpl. done.
    - intros Hinvalid. by rewrite (make_sources_invalid _ Hinvalid).
Qed.

(** C2 (amended). When the chat-completion call raises, a generator is
    configured and context was requested, then for a non-empty result
    list [query] returns normally; [_generate_ai_answer] has recovered
    with its fixed pair, so the answer has type ["synthesized"],
    confidence [0.2], the text ["Unable to generate AI answer"] and the
    sources of the results, provided every score is a valid relevance
    score in [0, 1]; otherwise building the sources fails and the
    generic ["error"] answer with confidence [0.0] is returned. *)
Theorem synthesis_failure_degrades (st : indexer vec) request :
    (forall s u, exists e, chat_completion s u = Raises e) ->
    include_context request = true ->
    _search_documents encode normalize_L2 index_search st request <> [] ->
    exists res,
      query encode normalize_L2 index_search true chat_completion st request
        = Returns res /\
      (Forall (fun r => unit_interval (r_score r) = true)
         (_search_documents encode normalize_L2 index_search st request) ->
       answer_type (res_answer res) = "synthesized"%string /\
       confidence (res_answer res) = Q2Qc (2 # 10) /\
       answer (res_answer res) = "Unable to generate AI answer"%string /\
       make_sources (_search_documents encode normalize_L2 index_search
                                       st request)
         = Returns (sources (res_answer res))) /\
      (~ Forall (fun r => unit_interval (r_score r) = true)
           (_search_documents encode normalize_L2 index_search st request) ->
       res_answer res = error_answer).
Proof.
    intros Hfail Hctx Hne.
    destruct (query_returns true st request) as (res & Hq & Hans & _).
    exists res. split; [exact Hq|]. rewrite Hans.
    by apply generate_answer_fault.
Qed.

(** C9. If the retrieval block of [_search_documents] raises, the
    exception is caught and the result list is empty; [query] then
    returns normally with a ["not_found"] answer of confidence [0.0] and
    no sources. *)
Theorem retrieval_failure_not_found gen (st : indexer vec) request :
    (exists e, search_documents_body encode normalize_L2 index_search
                 st request = Raises e) ->
    _search_documents encode normalize_L2 index_search st request = [] /\
    exists res,
      query encode normalize_L2 index_search gen chat_completion st request
        = Returns res /\
      answer_type (res_answer res) = "not_found"%string /\
      confidence (res_answer res) = 0%Qc /\
      sources (res_answer res) = [] /\
      search_results_count res = 0.
Proof.
    intros [e He].
    assert (_search_documents encode normalize_L2 index_search st request = [])
      as Hempty by (unfold _search_documents; by rewrite He).
    split; [exact Hempty|].
    destruct (query_returns gen st request) as (res & Hq & Hans & Hcount).
    exists res. split; [exact Hq|]. rewrite Hans, Hcount, Hempty. done.
Qed.

(** An embedding fault on a non-empty index makes [search] raise. *)
Lemma search_embedding_fault (st : indexer vec) rows q k f e :
    index st = Some rows -> rows <> [] -> encode q = Raises e ->
    search encode normalize_L2 index_search st q k f = Raises e.
Proof.
    intros Hidx Hrows Hq. unfold search. rewrite Hidx.
    destruct rows as [|v rows']; [done|]. simpl.
    unfold query_vector, _embed_text. by rewrite Hq.
Qed.

(** ... and with it the retrieval block, in semantic and hybrid mode. *)
Lemma retrieval_embedding_fault (st : indexer vec) rows request e :
    index st = Some rows -> rows <> [] ->
    encode (query_text request) = Raises e ->
    search_mode request <> "keyword"%string ->
    search_documents_body encode normalize_L2 index_search st request
      = Raises e.
Proof.
    intros Hidx Hrows Hq Hmode. unfold search_documents_body.
    destruct (String.eqb_spec (search_mode request) "semantic").
    - by erewrite search_embedding_fault.
    - destruct (String.eqb_spec (search_mode request) "keyword"); [done|].
      by erewrite search_embedding_fault.
Qed.

End AnswerClaims.

Section AnswerRuns.
Import Py Indexer Query.

Lemma keyword_results_D1 :
    exists r,
      _search_documents encode_two normalize_1d flat_search_1d
                        indexer_D1 request_keyword = [r] /\
      r_content r = "monthly payment reports"%string /\
      unit_interval (r_score r) = true.
Proof.
    eexists. split; [vm_compute; reflexivity|].
    split; vm_compute; reflexivity.
Qed.

Lemma synthesis_failure_degrades_witness :
    (forall s u, exists e, chat_fault s u = Raises e) /\
    include_context request_keyword = true /\
    _search_documents encode_two normalize_1d flat_search_1d
                      indexer_D1 request_keyword <> [] /\
    exists res,
      query encode_two normalize_1d flat_search_1d true chat_fault
            indexer_D1 request_keyword = Returns res.
Proof.
    assert (forall s u, exists e, chat_fault s u = Raises e) as H1
      by (intros s u; by exists CompletionError).
    assert (include_context request_keyword = true) as H2 by reflexivity.
    assert (_search_documents encode_two normalize_1d flat_search_1d
              indexer_D1 request_keyword <> []) as H3
      by (destruct keyword_results_D1 as (r & -> & _); discriminate).
    split; [exact H1|]. split; [exact H2|]. split; [exact H3|].
    destruct (synthesis_failure_degrades encode_two normalize_1d flat_search_1d
                chat_fault indexer_D1 request_keyword H1 H2 H3)
      as (res & Hres & _).
    by exists res.
Defined.

(** C2 as stated fails: one indexed chunk matching the query by
    keyword, a failing chat-completion call; the answer comes back as
    ["synthesized"] with confidence [0.2], not as ["error"] with [0.0]. *)
Lemma synthesis_failure_counterexample :
    (exists res,
        query encode_two normalize_1d flat_search_1d true chat_fault
              indexer_D1 request_keyword = Returns res /\
        answer_type (res_answer res) = "synthesized"%string /\
        confidence (res_answer res) = Q2Qc (2 # 10)) /\
    ~ synthesis_failure_claim encode_two normalize_1d flat_search_1d
        chat_fault indexer_D1 request_keyword.
Proof.
    assert (forall s u, exists e, chat_fault s u = Raises e) as H1
      by (intros s u; by exists CompletionError).
    assert (_search_documents encode_two normalize_1d flat_search_1d
              indexer_D1 request_keyword <> []) as H3
      by (destruct keyword_results_D1 as (r & -> & _); discriminate).
    destruct (query_returns encode_two normalize_1d flat_search_1d chat_fault
                true indexer_D1 request_keyword) as (res & Hres & Hans & _).
    destruct (generate_answer_fault chat_fault request_keyword _ H1 eq_refl H3)
      as (Hvalid & _).
    assert (Forall (fun r => unit_interval (r_score r) = true)
              (_search_documents encode_two normalize_1d flat_search_1d
                 indexer_D1 request_keyword)) as Hok.
    { destruct keyword_results_D1 as (r & -> & _ & Hr). by repeat constructor. }
    destruct (Hvalid Hok) as (Htype & Hconf & _).
    rewrite <- Hans in Htype, Hconf.
    split.
    { exists res. split; [exact Hres|]. split; [exact Htype | exact Hconf]. }
    intros Hclaim. destruct (Hclaim H1 H3) as (res' & Hres' & Htype' & _).
    rewrite Hres in Hres'. injection Hres' as <-.
    rewrite Htype in Htype'. discriminate.
Qed.

Lemma retrieval_failure_not_found_witness :
    (exists e, search_documents_body encode_fault normalize_1d flat_search_1d
                 indexer_D1 request_semantic = Raises e) /\
    _search_documents encode_fault normalize_1d flat_search_1d
                      indexer_D1 request_semantic = [].
Proof.
    assert (exists e, search_documents_body encode_fault normalize_1d
              flat_search_1d indexer_D1 request_semantic = Raises e) as H
      by (exists EmbeddingError; reflexivity).
    split; [exact H|].
    exact (proj1 (retrieval_failure_not_found encode_fault normalize_1d
                    flat_search_1d chat_fault true indexer_D1
                    request_semantic H)).
Defined.

End AnswerRuns.

(** * Further properties of the modelled code *)

(** ** The chunker: size, provenance, coverage, count, divergence *)
Section ChunkerMore.
Import Py Chunker ChunkSpans.

Lemma lstrip_split l :
    exists a, l = a ++ lstrip l /\ Forall (fun c => is_space c = true) a.
Proof.
    induction l as [|c l (a & Hl & Ha)]; simpl.
    - by exists [].
    - destruct (is_space c) eqn:Hc.
      + exists (c :: a). split; [simpl; congruence | by constructor].
      + by exists [].
Qed.

Lemma strip_split l :
    exists a b, l = a ++ strip l ++ b /\
                Forall (fun c => is_space c = true) a /\
                Forall (fun c => is_space c = true) b.
Proof.
    destruct (lstrip_split l) as (a & Hl & Ha).
    destruct (lstrip_split (rev (lstrip l))) as (b & Hr & Hb).
    exists a, (rev b). unfold strip, rstrip. split; [|split; [done|] ].
    - rewrite Hl at 1. f_equal.
      rewrite <- (rev_involutive (lstrip l)) at 1. rewrite Hr at 1.
      by rewrite rev_app_distr.
    - apply Forall_forall. intros c Hc. rewrite Forall_forall in Hb.
      apply Hb. apply list_elem_of_In, in_rev in Hc. by apply list_elem_of_In.
Qed.

Lemma strip_length l : (length (strip l) <= length l)%nat.
Proof.
    destruct (strip_split l) as (a & b & Hl & _).
    rewrite Hl at 2. rewrite !length_app. lia.
Qed.

(** Stripping removes whitespace only. *)
Lemma strip_keeps c l : c ∈ l -> is_space c = false -> c ∈ strip l.
Proof.
    intros Hc Hns. destruct (strip_split l) as (a & b & Hl & Ha & Hb).
    rewrite Hl in Hc. rewrite Forall_forall in Ha, Hb.
    apply elem_of_app in Hc as [Hc|Hc]; [apply Ha in Hc; congruence|].
    apply elem_of_app in Hc as [Hc|Hc]; [done | apply Hb in Hc; congruence].
Qed.

Lemma slice_infix l i j : exists a b, l = a ++ slice l i j ++ b.
Proof.
    unfold slice. set (lo := Z.to_nat (clamp (len l) i)).
    set (n := Z.to_nat (clamp (len l) j - clamp (len l) i)).
    exists (take lo l), (drop n (drop lo l)).
    by rewrite take_drop, take_drop.
Qed.

Lemma slice_length_le l i j : i <= j -> len (slice l i j) <= j - i.
Proof.
    intros Hij. unfold slice, len. rewrite length_take, length_drop.
    unfold clamp, len.
    destruct (Z.ltb_spec i 0), (Z.ltb_spec j 0); lia.
Qed.

Lemma last_sentence_end_lt w : last_sentence_end w < len w.
Proof. apply last_sentence_end_range. Qed.

(** A window never reaches past its tentative end, wherever it starts. *)
Lemma cut_end_le text cs start :
    0 <= cs -> cut_end text cs start <= start + cs.
Proof.
    intros Hcs. rewrite cut_end_unfold.
    destruct (start + cs <? len text); [|lia].
    pose proof (last_sentence_end_lt (slice text start (start + cs))) as Hl.
    pose proof (slice_length_le text start (start + cs)) as Hs.
    destruct (cs <? 2 * last_sentence_end (slice text start (start + cs))); lia.
Qed.

(** The two shapes of the result of [_chunk_text]. *)
Lemma chunk_text_cases (text : string) :
    (len (chars text) <= default_chunk_size /\
     _chunk_text text = Some [text]) \/
    (default_chunk_size < len (chars text) /\
     exists ws,
       windows (S (String.length text)) (chars text)
               default_chunk_size default_overlap 0 = Some ws /\
       _chunk_text text =
         Some (map str (filter (fun c => truthy c = true)
                 (map (fun w => strip (window_text (chars text) w)) ws)))).
Proof.
    unfold _chunk_text, _chunk_text_with.
    destruct (Z.leb_spec (len (chars text)) default_chunk_size) as [Hle|Hgt].
    - by left.
    - right. split; [done|].
      destruct (windows_terminates (chars text) default_chunk_size
                  default_overlap eq_refl ltac:(done)
                  (S (String.length text)) 0 (Z.le_refl 0)
                  (default_fuel_enough text)) as [ws Hws].
      exists ws. split; [done|].
      by rewrite (chunk_loop_of_windows _ _ _ _ _ _ Hws).
Qed.

Lemma default_windows_inv (text : string) ws (w : Z * Z) :
    windows (S (String.length text)) (chars text)
            default_chunk_size default_overlap 0 = Some ws ->
    w ∈ ws ->
    0 <= w.1 /\ w.1 < len (chars text) /\ w.1 < w.2 /\
    w.2 <= w.1 + default_chunk_size.
Proof.
    intros Hws Hw. apply list_elem_of_lookup_1 in Hw as [i Hi].
    destruct (windows_lookup_inv (chars text) default_chunk_size
                default_overlap eq_refl ltac:(done) _ ws i w Hws Hi)
      as (H0 & Hlt & He).
    pose proof (cut_end_progress (chars text) default_chunk_size
                  default_overlap eq_refl ltac:(done) w.1 H0) as Hp.
    pose proof (cut_end_le (chars text) default_chunk_size w.1 ltac:(done)).
    unfold default_overlap in Hp. rewrite He. lia.
Qed.

(** X1. Every chunk has at most [chunk_size] characters and is a contiguous
    piece of the text. *)
Theorem chunk_text_bounded_substrings (text : string) :
    exists chunks,
      _chunk_text text = Some chunks /\
      Forall (fun c =>
                len (chars c) <= default_chunk_size /\
                exists a b, chars text = a ++ chars c ++ b) chunks.
Proof.
    destruct (chunk_text_cases text) as [[Hle ->] | (Hgt & ws & Hws & ->)].
    - eexists. split; [done|]. constructor; [|constructor].
      split; [done|]. exists [], []. by rewrite app_nil_r.
    - eexists. split; [done|]. apply Forall_forall. intros c Hc.
      apply list_elem_of_fmap in Hc as (l & -> & Hl).
      apply list_elem_of_filter in Hl as [_ Hl].
      apply list_elem_of_fmap in Hl as (w & -> & Hw).
      rewrite chars_str.
      destruct (default_windows_inv text ws w Hws Hw) as (H0 & _ & Hlt & Hle).
      split.
      + pose proof (strip_length (window_text (chars text) w)).
        pose proof (slice_length_le (chars text) w.1 w.2 ltac:(lia)).
        unfold window_text, len in *. lia.
      + destruct (strip_split (window_text (chars text) w))
          as (a & b & Hs & _).
        destruct (slice_infix (chars text) w.1 w.2) as (a' & b' & Ht).
        exists (a' ++ a), (b ++ b'). rewrite Ht at 1.
        unfold window_text in Hs. rewrite Hs at 1.
        by rewrite <- !app_assoc.
Qed.

(** With a non-negative overlap the windows leave no gap. *)
Lemma windows_cover text cs ov fuel start ws (i : Z) :
    0 < cs -> 0 <= ov -> 2 * ov <= cs ->
    0 <= start -> windows fuel text cs ov start = Some ws ->
    start <= i < len text ->
    exists w, w ∈ ws /\ w.1 <= i < w.2.
Proof.
    intros Hcs Hov Hhalf. revert start ws.
    induction fuel as [|fuel IH]; intros start ws Hs; [done|].
    simpl. destruct (Z.ltb_spec start (len text)) as [Hlt|]; [|lia].
    pose proof (cut_end_progress text cs ov Hcs Hhalf start Hs) as Hp.
    intros Hws Hi.
    destruct (Z.lt_ge_cases i (cut_end text cs start)) as [Hin|Hout].
    - destruct (if len text <=? cut_end text cs start - ov then Some []
                else windows fuel text cs ov (cut_end text cs start - ov))
        as [ws'|]; [|done].
      injection Hws as <-. exists (start, cut_end text cs start).
      split; [apply list_elem_of_here | simpl; lia].
    - destruct (Z.leb_spec (len text) (cut_end text cs start - ov)); [lia|].
      destruct (windows fuel text cs ov (cut_end text cs start - ov))
        as [ws'|] eqn:Hw; [|done].
      injection Hws as <-.
      assert (0 <= cut_end text cs start - ov) as Hs' by lia.
      assert (cut_end text cs start - ov <= i < len text) as Hi' by lia.
      destruct (IH _ ws' Hs' Hw Hi') as (w & Hw' & Hiw).
      exists w. split; [by apply list_elem_of_further | done].
Qed.

Lemma span_cover (pre a s b post : list ascii) (i : nat) c :
    Forall (fun c => is_space c = true) a ->
    Forall (fun c => is_space c = true) b ->
    (pre ++ a ++ s ++ b ++ post) !! i = Some c -> is_space c = false ->
    (length pre <= i < length pre + length a + length s + length b)%nat ->
    (length pre + length a <= i < length pre + length a + length s)%nat.
Proof.
    intros Ha Hb Hi Hc Hr. rewrite Forall_forall in Ha, Hb.
    apply lookup_app_Some in Hi as [Hi|[_ Hi] ];
      [apply lookup_lt_Some in Hi; lia|].
    apply lookup_app_Some in Hi as [Hi|[H1 Hi] ].
    { apply list_elem_of_lookup_2 in Hi. apply Ha in Hi. congruence. }
    apply lookup_app_Some in Hi as [Hi|[H2 Hi] ].
    { apply lookup_lt_Some in Hi. lia. }
    apply lookup_app_Some in Hi as [Hi|[H3 Hi] ].
    { apply list_elem_of_lookup_2 in Hi. apply Hb in Hi. congruence. }
    lia.
Qed.

(** The stripped window is the piece of the text at an offset, and
    every non-whitespace position of the window lies in that piece. *)
Lemma window_chunk_span text (w : Z * Z) :
    0 <= w.1 -> w.1 < len text -> w.1 < w.2 ->
    exists a : nat,
      strip (window_text text w)
      = take (length (strip (window_text text w))) (drop a text) /\
      forall (i : nat) c,
        w.1 <= Z.of_nat i < w.2 -> text !! i = Some c -> is_space c = false ->
        (a <= i < a + length (strip (window_text text w)))%nat.
Proof.
    intros H0 Hlt Hw. unfold window_text.
    destruct (strip_split (slice text w.1 w.2)) as (a & b & Hs & Ha & Hb).
    pose proof (slice_length text w.1 w.2 H0 ltac:(lia)) as Hlen.
    assert (exists post,
              text = take (Z.to_nat w.1) text ++ slice text w.1 w.2 ++ post)
      as [post Ht].
    { unfold slice.
      assert (clamp (len text) w.1 = w.1) as ->
        by (unfold clamp; destruct (Z.ltb_spec w.1 0); lia).
      eexists. by rewrite take_drop, take_drop. }
    assert (length (take (Z.to_nat w.1) text) = Z.to_nat w.1) as Hpre
      by (rewrite length_take; unfold len in *; lia).
    remember (strip (slice text w.1 w.2)) as s eqn:Heqs.
    remember (take (Z.to_nat w.1) text) as pre eqn:Heqpre.
    assert (length a + length s + length b
            = Z.to_nat (Z.min w.2 (len text) - w.1))%nat as Hwin.
    { unfold len in *. rewrite Hs, !length_app in Hlen. lia. }
    clear Heqs Heqpre. rewrite Hs in Ht. clear Hs Hlen.
    exists (length (pre ++ a)). split.
    - rewrite Ht at 1. rewrite <- !app_assoc. rewrite (app_assoc pre a).
      by rewrite drop_app_length, take_app_length.
    - intros i c Hi Hti Hc. pose proof (lookup_lt_Some _ _ _ Hti) as Hil.
      unfold len in *. rewrite Ht in Hti. rewrite <- !app_assoc in Hti.
      rewrite length_app.
      apply (span_cover pre a s b post i c Ha Hb Hti Hc). lia.
Qed.

Lemma spans_of_windows text (ws : list (Z * Z)) :
    (forall w, w ∈ ws -> 0 <= w.1 /\ w.1 < len text /\ w.1 < w.2) ->
    exists spans : list (nat * string),
      map snd spans
      = map str (filter (fun c => truthy c = true)
                   (map (fun w => strip (window_text text w)) ws)) /\
      Forall (piece_at text) spans /\
      forall w (i : nat) c,
        w ∈ ws -> w.1 <= Z.of_nat i < w.2 ->
        text !! i = Some c -> is_space c = false ->
        exists span, span ∈ spans /\ covers span i.
Proof.
    induction ws as [|w ws IH]; intros Hws.
    { exists []. split; [done|]. split; [constructor|].
      intros w i c Hw. by apply elem_of_nil in Hw. }
    destruct IH as (spans & Hmap & Hpieces & Hcover).
    { intros w' Hw'. apply Hws. by apply list_elem_of_further. }
    destruct (Hws w (list_elem_of_here _ _)) as (H0 & Hlt & Hw).
    destruct (window_chunk_span text w H0 Hlt Hw) as (a & Hpiece & Hin).
    cbn [map]. destruct (truthy (strip (window_text text w))) eqn:Htruthy.
    - exists ((a, str (strip (window_text text w))) :: spans).
      rewrite filter_cons_True by done. split; [cbn; by rewrite Hmap|].
      split.
      + constructor; [|done]. unfold piece_at. cbn. by rewrite chars_str.
      + intros w' i c Hw' Hi Hti Hc.
        apply elem_of_cons in Hw' as [->|Hw'].
        * exists (a, str (strip (window_text text w))).
          split; [apply list_elem_of_here|].
          unfold covers. cbn. rewrite chars_str. by eapply Hin.
        * destruct (Hcover w' i c Hw' Hi Hti Hc) as (span & Hspan & Hcov).
          exists span. split; [by apply list_elem_of_further | done].
    - exists spans. rewrite filter_cons_False by congruence.
      split; [done|]. split; [done|].
      intros w' i c Hw' Hi Hti Hc.
      apply elem_of_cons in Hw' as [->|Hw']; [|by eapply Hcover].
      pose proof (Hin i c Hi Hti Hc) as Hr.
      destruct (strip (window_text text w)); [simpl in Hr; lia | done].
Qed.

(** X2. Chunking loses nothing but white space: the returned chunks are
    pieces of the text at offsets of their own, one offset per chunk,
    and every position of the text that holds a non-whitespace
    character lies inside one of these pieces. *)
Theorem chunk_text_keeps_characters (text : string) :
    exists spans : list (nat * string),
      _chunk_text text = Some (map snd spans) /\
      Forall (piece_at (chars text)) spans /\
      forall (i : nat) c,
        chars text !! i = Some c -> is_space c = false ->
        exists span, span ∈ spans /\ covers span i.
Proof.
    destruct (chunk_text_cases text) as [ [Hle ->] | (Hgt & ws & Hws & ->)].
    - exists [(0%nat, text)]. split; [done|]. split.
      + constructor; [|constructor]. unfold piece_at. cbn [fst snd].
        by rewrite drop_0, firstn_all.
      + intros i c Hi _. exists (0%nat, text).
        split; [apply list_elem_of_here|].
        unfold covers. cbn [fst snd]. apply lookup_lt_Some in Hi. lia.
    - destruct (spans_of_windows (chars text) ws) as (spans & Hmap & Hp & Hc).
      { intros w Hw.
        destruct (default_windows_inv text ws w Hws Hw) as (? & ? & ? & _).
        done. }
      exists spans. split; [by rewrite Hmap|]. split; [done|].
      intros i c Hi Hns.
      pose proof (lookup_lt_Some _ _ _ Hi) as Hlt.
      destruct (windows_cover (chars text) default_chunk_size default_overlap
                  _ 0 ws (Z.of_nat i) eq_refl ltac:(done) ltac:(done)
                  (Z.le_refl 0) Hws) as (w & Hw & Hiw);
        [unfold len; lia|].
      by eapply Hc.
Qed.

(** On the text of 600 times ["x"], whose two chunks are cut at offsets
    0 and 462, position 599 lies in the second piece only. *)
Lemma chunk_text_keeps_characters_run :
    _chunk_text text_600
      = Some [str (repeat "x"%char 512); str (repeat "x"%char 138)] /\
    piece_at (chars text_600) (462%nat, str (repeat "x"%char 138)) /\
    covers (462%nat, str (repeat "x"%char 138)) 599 /\
    ~ covers (0%nat, str (repeat "x"%char 512)) 599.
Proof.
    split; [vm_compute; reflexivity|]. split; [vm_compute; reflexivity|].
    unfold covers. cbn [fst snd]. rewrite !chars_str, !repeat_length. lia.
Qed.

Lemma default_windows_count text fuel start ws :
    0 <= start ->
    windows fuel text default_chunk_size default_overlap start = Some ws ->
    208 * Z.of_nat (length ws) <= Z.max 0 (len text - start) + 207.
Proof.
    revert start ws. induction fuel as [|fuel IH]; intros start ws Hs; [done|].
    simpl. destruct (Z.ltb_spec start (len text)) as [Hlt|].
    2:{ intros [= <-]. simpl. lia. }
    destruct (cut_end_range text default_chunk_size start Hs eq_refl)
      as [_ Hr].
    unfold default_chunk_size, default_overlap in *.
    destruct (Z.leb_spec (len text) (cut_end text 512 start - 50)).
    - intros [= <-]. simpl. lia.
    - destruct (windows fuel text 512 50 (cut_end text 512 start - 50))
        as [ws'|] eqn:Hw; [|done].
      intros [= <-]. simpl length.
      assert (0 <= cut_end text 512 start - 50) as Hs' by lia.
      specialize (IH _ ws' Hs' Hw). lia.
Qed.

(** X3. Each iteration advances by at least 208 characters, so a text of
    [n] characters gives at most [(n + 207) / 208] chunks. *)
Theorem chunk_text_count (text : string) :
    exists chunks,
      _chunk_text text = Some chunks /\
      208 * Z.of_nat (length chunks) <= Z.max 1 (len (chars text)) + 207.
Proof.
    destruct (chunk_text_cases text) as [[Hle ->] | (Hgt & ws & Hws & ->)].
    - eexists. split; [done|]. simpl. lia.
    - eexists. split; [done|].
      pose proof (default_windows_count _ _ _ _ (Z.le_refl 0) Hws) as Hc.
      rewrite length_map.
      pose proof (length_filter (fun c => truthy c = true)
                    (map (fun w => strip (window_text (chars text) w)) ws))
        as Hf.
      rewrite length_map in Hf. lia.
Qed.

Lemma chunk_loop_diverges text cs ov fuel start :
    0 < cs -> cs <= ov -> start < len text ->
    chunk_loop fuel text cs ov start = None.
Proof.
    intros Hcs Hov. revert start.
    induction fuel as [|fuel IH]; intros start Hlt; [done|].
    simpl. destruct (Z.ltb_spec start (len text)); [|lia].
    pose proof (cut_end_le text cs start ltac:(lia)).
    destruct (Z.leb_spec (len text) (cut_end text cs start - ov)); [lia|].
    rewrite IH by lia. done.
Qed.

(** X4. With an overlap that is not smaller than the chunk size the loop
    never advances: on a text longer than one chunk no amount of
    iterations produces a result. *)
Theorem chunk_text_overlap_diverges (text : string) (cs ov : Z) :
    0 < cs -> cs <= ov -> cs < len (chars text) ->
    forall fuel, _chunk_text_with fuel text cs ov = None.
Proof.
    intros Hcs Hov Hlen fuel. unfold _chunk_text_with.
    destruct (Z.leb_spec (len (chars text)) cs); [lia|].
    rewrite chunk_loop_diverges by lia. done.
Qed.

Lemma chunk_text_overlap_diverges_witness :
    0 < 2 /\ 2 <= 2 /\ 2 < len (chars "abcd") /\
    forall fuel, _chunk_text_with fuel "abcd" 2 2 = None.
Proof.
    assert (0 < 2) as H1 by lia.
    assert (2 <= 2) as H2 by lia.
    assert (2 < len (chars "abcd")) as H3 by (vm_compute; reflexivity).
    split; [exact H1|]. split; [exact H2|]. split; [exact H3|].
    exact (chunk_text_overlap_diverges "abcd" 2 2 H1 H2 H3).
Defined.

End ChunkerMore.

(** ** The filter evaluator: conjunction, unknown keys, thresholds, dates *)
Section FilterMore.
Import Py Indexer FilterKeys.

(** [_match_filters] is the conjunction of the single checks. *)
Lemma match_filters_all dm (fs : filter_set) :
    _match_filters dm fs = true <->
    forall k v, (k, v) ∈ fs -> check_filter dm k v = Returns true.
Proof.
    unfold _match_filters. induction fs as [|[k v] fs IH]; simpl.
    - split; [|done]. intros _ k v Hin. by apply elem_of_nil in Hin.
    - destruct (check_filter dm k v) as [[|]|e] eqn:Hc; simpl.
      + rewrite IH. split.
        * intros H k' v' Hin. apply elem_of_cons in Hin as [[= -> ->]|Hin];
            [done | by apply H].
        * intros H k' v' Hin. apply H. by apply list_elem_of_further.
      + split; [done|]. intros H.
        specialize (H k v (list_elem_of_here _ _)). congruence.
      + split; [done|]. intros H.
        specialize (H k v (list_elem_of_here _ _)). congruence.
Qed.

(** X5. The filters are conjunctive and their order is irrelevant: the
    result is [True] exactly when every filter passes on its own, so it
    is the same for any reordering of the filter set (also when some
    filter raises). *)
Theorem match_filters_order_irrelevant dm (fs fs' : filter_set) :
    fs ≡ₚ fs' ->
    _match_filters dm fs = _match_filters dm fs' /\
    (_match_filters dm fs = true <->
     forall k v, (k, v) ∈ fs -> _match_filters dm [(k, v)] = true).
Proof.
    intros Hperm. split.
    - apply eq_true_iff_eq. rewrite !match_filters_all.
      by setoid_rewrite Hperm.
    - rewrite match_filters_all. split; intros H k v Hin.
      + apply match_filters_all. intros k' v' Hin'.
        apply list_elem_of_singleton in Hin' as [= -> ->]. by apply H.
      + specialize (H k v Hin). rewrite match_filters_all in H.
        apply H, list_elem_of_here.
Qed.

Lemma match_filters_order_irrelevant_witness :
    let fs := [("project_ids"%string, PList [PStr "P1"]);
               ("confidence_min"%string, PFloat (Q2Qc (1 # 2)))] in
    reverse fs ≡ₚ fs /\
    _match_filters chunk_project_P1 (reverse fs)
      = _match_filters chunk_project_P1 fs.
Proof.
    intros fs.
    assert (reverse fs ≡ₚ fs) as H by apply reverse_Permutation.
    split; [exact H|].
    exact (proj1 (match_filters_order_irrelevant chunk_project_P1 _ _ H)).
Defined.

Lemma check_filter_unknown dm k v :
    k ∉ indexer_filter_keys -> check_filter dm k v = Returns true.
Proof.
    intros Hk. unfold check_filter.
    assert (forall s, s ∈ indexer_filter_keys -> String.eqb k s = false) as Hne.
    { intros s Hs. apply String.eqb_neq. by intros ->. }
    rewrite !Hne; [done|..]; unfold indexer_filter_keys, membership_keys;
      simpl; rewrite !elem_of_cons; tauto.
Qed.

(** X6. A filter with a key the evaluator does not know never changes the
    outcome. *)
Theorem match_filters_unknown_key dm (fs1 fs2 : filter_set) k v :
    k ∉ indexer_filter_keys ->
    _match_filters dm (fs1 ++ (k, v) :: fs2) = _match_filters dm (fs1 ++ fs2).
Proof.
    intros Hk. apply eq_true_iff_eq. rewrite !match_filters_all. split.
    - intros H k' v' Hin. apply H.
      rewrite elem_of_app, elem_of_cons. apply elem_of_app in Hin. tauto.
    - intros H k' v' Hin.
      rewrite elem_of_app, elem_of_cons in Hin.
      destruct Hin as [Hin|[[= -> ->]|Hin] ].
      + apply H, elem_of_app. by left.
      + by apply check_filter_unknown.
      + apply H, elem_of_app. by right.
Qed.

Lemma match_filters_unknown_key_witness :
("tenant"%string ∉ indexer_filter_keys) /\
    _match_filters chunk_plain
      ([("project_ids"%string, PList [PStr "P1"])]
         ++ ("tenant"%string, PInt 7) :: [])
    = _match_filters chunk_plain
        ([("project_ids"%string, PList [PStr "P1"])] ++ []).
Proof.
    assert ("tenant"%string ∉ indexer_filter_keys) as H.
    { unfold indexer_filter_keys, membership_keys. simpl.
      rewrite !elem_of_cons, elem_of_nil. intros Hin.
      repeat (destruct Hin as [Hin|Hin]; [discriminate|]). done. }
    split; [exact H|].
    exact (match_filters_unknown_key chunk_plain _ [] _ (PInt 7) H).
Defined.

Lemma py_lt_numbers a b x y :
    as_number a = Some x -> as_number b = Some y ->
    py_lt a b = Returns (bool_decide (x < y)%Qc).
Proof.
    intros Ha Hb.
    destruct a; try discriminate Ha; destruct b; try discriminate Hb;
      simpl in *; injection Ha as <-; injection Hb as <-; reflexivity.
Qed.

(** X7. [confidence_min]: a chunk passes iff its numeric [confidence] --
    [1.0] when the metadata has none -- is at least the threshold. *)
Theorem match_filters_confidence_min dm d c threshold q :
    metadata dm = PDict d ->
    as_number (default (PFloat 1) (dict_get d "confidence")) = Some c ->
    as_number threshold = Some q ->
    (_match_filters dm [("confidence_min"%string, threshold)] = true
     <-> (q <= c)%Qc).
Proof.
    intros Hm Hc Hq. unfold _match_filters. simpl. unfold check_filter. simpl.
    rewrite Hm. simpl. rewrite (py_lt_numbers _ _ c q Hc Hq). simpl.
    case_bool_decide as Hlt; simpl.
    - split; [done|]. intros Hle. by apply Qcle_not_lt in Hle.
    - split; [|done]. intros _. by apply Qcnot_lt_le.
Qed.

Lemma match_filters_confidence_min_witness :
    metadata chunk_plain = PDict [] /\
    (_match_filters chunk_plain
       [("confidence_min"%string, PFloat (Q2Qc (9 # 10)))] = true
     <-> (Q2Qc (9 # 10) <= 1)%Qc).
Proof.
    assert (metadata chunk_plain = PDict []) as H1 by reflexivity.
    assert (as_number (default (PFloat 1) (dict_get [] "confidence"))
            = Some 1%Qc) as H2 by reflexivity.
    assert (as_number (PFloat (Q2Qc (9 # 10))) = Some (Q2Qc (9 # 10))) as H3
      by reflexivity.
    split; [exact H1|].
    exact (match_filters_confidence_min chunk_plain [] 1%Qc _ _ H1 H2 H3).
Defined.



(** A chunk without a timestamp passes every [date_range], whatever
    the filter value is. *)
Theorem match_filters_date_range_no_timestamp dm v :
    py_truthy (timestamp dm) = false ->
    _match_filters dm [("date_range"%string, v)] = true.
Proof.
    intros Ht. unfold _match_filters. simpl. unfold check_filter. simpl.
    by rewrite Ht.
Qed.

Lemma match_filters_date_range_no_timestamp_witness :
    py_truthy (timestamp chunk_plain) = false /\
    _match_filters chunk_plain [("date_range"%string, PInt 3)] = true.
Proof.
    assert (py_truthy (timestamp chunk_plain) = false) as H by reflexivity.
    split; [exact H|].
    exact (match_filters_date_range_no_timestamp chunk_plain (PInt 3) H).
Defined.

End FilterMore.

(** ** The indexer: chunk records, skipped documents, faults, statistics,
       search results and repeated deletion *)
Section IndexerMoreFacts.
Import Py Indexer IndexerMore.
Context {vec : Type}.
Variable encode : string -> outcome vec.
Variable normalize_L2 : vec -> vec.
Variable index_search : list vec -> vec -> Z -> outcome (list (Qc * Z)).

Lemma document_chunks_lookup doc (i : nat) c :
    document_chunks doc !! i = Some c ->
    exists id text,
      doc_document_id doc = Some id /\ id <> ""%string /\
      chunks_of (default ""%string (doc_content doc)) !! i = Some text /\
      document_id c = id /\ content c = text /\ chunk_index c = Z.of_nat i /\
      chunk_id c =
        (if 1 <? Z.of_nat (length (chunks_of (default ""%string (doc_content doc))))
         then id +:+ "_chunk_" +:+ pretty i else id).
Proof.
    unfold document_chunks. destruct (doc_document_id doc) as [id|]; [|done].
    destruct (String.eqb_spec id ""); [done|]. simpl.
    destruct (String.eqb (default ""%string (doc_content doc)) ""); [done|].
    rewrite list_lookup_imap.
    destruct (chunks_of _ !! i) as [text|] eqn:Ht; [|done]. simpl.
    intros [= <-]. exists id, text. by repeat split.
Qed.

(** X9. The chunks of one document carry its id, are numbered from 0, and
    have pairwise distinct chunk ids: the document id itself for a
    single chunk, [<id>_chunk_<i>] otherwise. *)
Theorem document_chunks_ids doc :
    NoDup (map chunk_id (document_chunks doc)) /\
    forall (i : nat) c,
      document_chunks doc !! i = Some c ->
      doc_document_id doc = Some (document_id c) /\
      chunk_index c = Z.of_nat i /\
      (chunk_id c = document_id c /\ length (document_chunks doc) = 1%nat \/
       chunk_id c = document_id c +:+ "_chunk_" +:+ pretty i /\
       (1 < length (document_chunks doc))%nat).
Proof.
    assert (length (document_chunks doc) <=
            length (chunks_of (default ""%string (doc_content doc))))%nat
      as Hlen.
    { unfold document_chunks. destruct (doc_document_id doc); [|simpl; lia].
      destruct (_ || _); [simpl; lia|]. by rewrite length_imap. }
    assert (forall (i : nat) c, document_chunks doc !! i = Some c ->
              length (document_chunks doc) =
              length (chunks_of (default ""%string (doc_content doc))))
      as Hlen'.
    { intros i c. unfold document_chunks.
      destruct (doc_document_id doc); [|done].
      destruct (_ || _); [done|]. by rewrite length_imap. }
    split.
    - apply NoDup_alt. intros i j x Hi Hj.
      rewrite list_lookup_fmap in Hi, Hj.
      destruct (document_chunks doc !! i) as [ci|] eqn:Hci; [|done].
      destruct (document_chunks doc !! j) as [cj|] eqn:Hcj; [|done].
      simpl in Hi, Hj. injection Hi as <-. injection Hj as Hij.
      pose proof (lookup_lt_Some _ _ _ Hci) as Hli.
      pose proof (lookup_lt_Some _ _ _ Hcj) as Hlj.
      destruct (document_chunks_lookup _ _ _ Hci)
        as (id & ti & Hid & _ & _ & _ & _ & _ & Hidi).
      destruct (document_chunks_lookup _ _ _ Hcj)
        as (id' & tj & Hid' & _ & _ & _ & _ & _ & Hidj).
      rewrite Hid in Hid'. injection Hid' as <-.
      rewrite Hidi, Hidj in Hij.
      destruct (Z.ltb_spec 1 (Z.of_nat (length (chunks_of
                  (default ""%string (doc_content doc)))))) as [Hmany|Hone].
      + apply String.app_inj, String.app_inj in Hij.
        by apply pretty_nat_inj in Hij.
      + lia.
    - intros i c Hc.
      destruct (document_chunks_lookup _ _ _ Hc)
        as (id & t & Hid & _ & _ & <- & _ & Hidx & Hcid).
      split; [done|]. split; [done|].
      pose proof (lookup_lt_Some _ _ _ Hc) as Hli.
      rewrite <- (Hlen' _ _ Hc) in Hcid.
      destruct (Z.ltb_spec 1 (Z.of_nat (length (document_chunks doc)))).
      + right. split; [done | lia].
      + left. split; [done | lia].
Qed.

Lemma document_chunks_skipped doc : skipped doc -> document_chunks doc = [].
Proof.
    unfold skipped, document_chunks.
    intros [-> | [-> | [-> | ->] ] ]; try done;
      destruct (doc_document_id doc) as [id|]; try done; simpl;
      by rewrite orb_true_r.
Qed.

(** X10. A batch made only of documents without id or content embeds
    nothing: the call returns 0, the state is unchanged, and the
    embedding model is not consulted. *)
Theorem add_documents_all_skipped (st : indexer vec) documents :
    Forall skipped documents ->
    add_documents encode st documents = Returns (st, 0).
Proof.
    intros Hall. unfold add_documents.
    destruct documents as [|doc documents]; [done|].
    assert (flat_map document_chunks (doc :: documents) = []) as ->; [|done].
    induction Hall as [|d ds Hd _ IH]; [done|]. simpl.
    by rewrite document_chunks_skipped, IH.
Qed.

Lemma embed_texts_fault texts t e :
    t ∈ texts -> encode t = Raises e ->
    exists e', _embed_texts encode texts = Raises e'.
Proof.
    intros Hin He. induction texts as [|t' texts IH]; [by apply elem_of_nil in Hin|].
    simpl. destruct (encode t') as [v|e'] eqn:Hv; [|by eexists].
    apply elem_of_cons in Hin as [->|Hin]; [congruence|].
    destruct (IH Hin) as [e' ->]. by eexists.
Qed.

(** X11. An embedding fault on any chunk makes [add_documents] raise, and
    nothing of the batch is added. *)
Theorem add_documents_fault (st : indexer vec) documents dm e :
    dm ∈ flat_map document_chunks documents ->
    encode (content dm) = Raises e ->
    (exists e', add_documents encode st documents = Raises e') /\
    step encode st (Add documents) = st.
Proof.
    intros Hin He.
    assert (exists e', add_documents encode st documents = Raises e') as [e' Hr].
    { unfold add_documents. destruct documents as [|doc documents];
        [by apply elem_of_nil in Hin|].
      destruct (flat_map document_chunks (doc :: documents)) as [|m ms] eqn:Hm;
        [by apply elem_of_nil in Hin|].
      rewrite <- Hm in *.
      destruct (embed_texts_fault (map content
                  (flat_map document_chunks (doc :: documents)))
                  (content dm) e) as [e' He']; [|done|].
      { apply list_elem_of_fmap. by exists dm. }
      rewrite Hm in He' |- *. simpl map in *. rewrite He'. by eexists. }
    split; [by exists e'|]. simpl. by rewrite Hr.
Qed.

Lemma register_fresh (store : gmap Z chunk_metadata) start metas :
    (forall p, start <= p -> store !! p = None) ->
    store ⊆ register store start metas /\
    size (register store start metas) = (size store + length metas)%nat.
Proof.
    revert store start. induction metas as [|m metas IH]; intros store start Hf.
    - simpl. split; [done | lia].
    - simpl. destruct (IH (<[start:=m]> store) (start + 1)) as [Hsub Hsize].
      { intros p Hp. rewrite lookup_insert_ne by lia. apply Hf. lia. }
      split.
      + etrans; [|exact Hsub]. apply insert_subseteq, Hf. lia.
      + rewrite Hsize, map_size_insert_None by (apply Hf; lia). lia.
Qed.

(** X12. On a state whose chunk store only uses positions below the
    index size, a successful [add_documents] is append-only: every
    existing entry is kept, and both [total_vectors] and [total_chunks]
    grow by exactly the returned count. *)
Theorem add_documents_append_only (st st' : indexer vec) documents n :
    (forall p dm, document_store st !! p = Some dm -> p < ntotal st) ->
    add_documents encode st documents = Returns (st', n) ->
    document_store st ⊆ document_store st' /\
    total_vectors (get_index_stats st') = total_vectors (get_index_stats st) + n /\
    total_chunks (get_index_stats st') = total_chunks (get_index_stats st) + n.
Proof.
    intros Hbelow Hadd.
    destruct (add_documents_spec encode _ _ _ _ Hadd)
      as (Hn & _ & vs & Hvs & Hrows & Hstore & _).
    pose proof (Forall2_length _ _ _ Hvs) as Hlen.
    destruct (register_fresh (document_store st) (ntotal st)
                (flat_map document_chunks documents)) as [Hsub Hsize].
    { intros p Hp. destruct (document_store st !! p) as [dm|] eqn:Hdm; [|done].
      pose proof (Hbelow p dm Hdm). lia. }
    rewrite <- Hstore in Hsub, Hsize. split; [done|]. simpl. split.
    - rewrite (ntotal_rows st'), Hrows, length_app, (ntotal_rows st). lia.
    - rewrite Hsize. lia.
Qed.

Lemma collect_spec (st : indexer vec) filters k hits acc :
    Forall (live_hit st filters) acc ->
    Forall (live_hit st filters)
           (collect (document_store st) filters k hits acc) /\
    (Z.of_nat (length acc) < k ->
     Z.of_nat (length (collect (document_store st) filters k hits acc)) <= k).
Proof.
    revert acc. induction hits as [|[score idx] hits IH]; intros acc Hacc; simpl.
    - split; [done | lia].
    - destruct (idx =? -1); [by apply IH|].
      destruct (document_store st !! idx) as [dm|] eqn:Hdm; [|by apply IH].
      destruct (filters_pass filters dm) eqn:Hpass; simpl; [|by apply IH].
      assert (Forall (live_hit st filters) (acc ++ [make_result score dm]))
        as Hacc'.
      { apply Forall_app. split; [done|]. constructor; [|done].
        by exists idx, dm, score. }
      rewrite length_app. simpl.
      destruct (Z.leb_spec k (Z.of_nat (length acc + 1))).
      + split; [done|]. rewrite length_app. simpl. lia.
      + destruct (IH _ Hacc') as [H1 H2]. split; [done|].
        intros _. apply H2. rewrite length_app. simpl. lia.
Qed.

Lemma search_live_hits (st : indexer vec) q k filters results :
    search encode normalize_L2 index_search st q k filters = Returns results ->
    Forall (live_hit st filters) results /\
    (1 <= k -> Z.of_nat (length results) <= k).
Proof.
    unfold search. destruct (index st) as [rows|].
    2:{ intros [= <-]. split; [constructor | simpl; lia]. }
    destruct (Z.of_nat (length rows) =? 0).
    { intros [= <-]. split; [constructor | simpl; lia]. }
    destruct (query_vector encode normalize_L2 q) as [qv|]; [|done]. simpl.
    destruct (index_search rows qv _) as [hits|]; [|done]. simpl.
    intros [= <-].
    destruct (collect_spec st filters k hits [] (Forall_nil_2 _)) as [H1 H2].
    split; [done|]. intros Hk. apply H2. simpl. lia.
Qed.

(** X13. Every result of [search] is built from a live chunk-store entry
    that passes the filters, and for [k >= 1] there are at most [k]
    results. *)
Theorem search_results_live (st : indexer vec) q k filters results :
    search encode normalize_L2 index_search st q k filters = Returns results ->
    Forall (live_hit st filters) results /\
    (1 <= k -> Z.of_nat (length results) <= k).
Proof. apply search_live_hits. Qed.

(** X14. Tombstones: after [delete_documents] no search returns a chunk of
    a deleted document, although its vector is still in the index. *)
Theorem search_skips_deleted (st : indexer vec) ids q k filters results :
    search encode normalize_L2 index_search (delete_documents st ids).1
           q k filters = Returns results ->
    forall r, r ∈ results -> r_document_id r ∉ ids.
Proof.
    intros Hs r Hr.
    destruct (search_live_hits _ _ _ _ _ Hs) as [Hlive _].
    rewrite Forall_forall in Hlive.
    destruct (Hlive r Hr) as (p & dm & score & Hp & -> & _). simpl.
    destruct (index st) as [rows|] eqn:Hidx.
    - destruct (delete_documents_spec st ids) as (Hst & _); [congruence|].
      rewrite Hst in Hp. by apply map_lookup_filter_Some in Hp as [_ Hp].
    - unfold delete_documents in Hs. rewrite Hidx in Hs. simpl in Hs.
      unfold search in Hs. rewrite Hidx in Hs. injection Hs as <-.
      by apply elem_of_nil in Hr.
Qed.

(** On an empty index [search] returns no result and does not call the
    embedding model, the normaliser or the index. *)
Theorem search_empty_index (st : indexer vec) q k filters :
    ntotal st = 0 ->
    search encode normalize_L2 index_search st q k filters = Returns [].
Proof.
    unfold ntotal, search. destruct (index st) as [rows|]; [|done].
    intros Hn. by destruct (Z.eqb_spec (Z.of_nat (length rows)) 0).
Qed.

Lemma delete_documents_eta (st : indexer vec) ids :
    delete_documents st ids =
      ((delete_documents st ids).1, (delete_documents st ids).2).
Proof. by destruct (delete_documents st ids). Qed.

Lemma indexer_eq (st st' : indexer vec) :
    index st = index st' -> document_store st = document_store st' -> st = st'.
Proof. destruct st, st'. simpl. by intros -> ->. Qed.

Lemma delete_documents_noop (st : indexer vec) ids :
    (forall p dm, document_store st !! p = Some dm -> document_id dm ∉ ids) ->
    delete_documents st ids = (st, 0).
Proof.
    intros Habs. destruct (index st) as [rows|] eqn:Hidx.
    2:{ unfold delete_documents. by rewrite Hidx. }
    destruct (delete_documents_spec st ids) as (Hst & Hn & Hi); [congruence|].
    rewrite delete_documents_eta. f_equal.
    - apply indexer_eq; [congruence|]. rewrite Hst.
      apply map_filter_id. intros p dm Hp. simpl. by eapply Habs.
    - rewrite Hn.
      replace (filter (fun kv : Z * chunk_metadata => document_id kv.2 ∈ ids)
                      (document_store st)) with (∅ : gmap Z chunk_metadata).
      + by rewrite map_size_empty.
      + symmetry. apply map_empty. intros p.
        apply map_lookup_filter_None. right. intros dm Hp. simpl.
        by eapply Habs.
Qed.

(** X15. Deleting ids that own no chunk changes nothing and returns 0. *)
Theorem delete_documents_absent (st : indexer vec) ids :
    (forall p dm, document_store st !! p = Some dm -> document_id dm ∉ ids) ->
    delete_documents st ids = (st, 0).
Proof. apply delete_documents_noop. Qed.

(** X16. [delete_documents] is idempotent: a second call with the same ids
    finds nothing to remove. *)
Theorem delete_documents_twice (st : indexer vec) ids :
    delete_documents (delete_documents st ids).1 ids
      = ((delete_documents st ids).1, 0).
Proof.
    destruct (index st) as [rows|] eqn:Hidx.
    - apply delete_documents_noop. intros p dm Hp.
      destruct (delete_documents_spec st ids) as (Hst & _); [congruence|].
      rewrite Hst in Hp. by apply map_lookup_filter_Some in Hp as [_ Hp].
    - unfold delete_documents. rewrite Hidx. simpl. by rewrite Hidx.
Qed.

(** X17. [delete_documents] lowers [total_chunks] by exactly the count it
    returns, which lies between 0 and the number of chunks. *)
Theorem delete_documents_chunk_count (st : indexer vec) ids :
    reachable encode st ->
    total_chunks (get_index_stats (delete_documents st ids).1)
      = total_chunks (get_index_stats st) - (delete_documents st ids).2 /\
    0 <= (delete_documents st ids).2 <= total_chunks (get_index_stats st).
Proof.
    intros Hreach.
    destruct (delete_documents_spec st ids
                (reachable_store_empty encode st Hreach)) as (Hst & Hn & _).
    assert (size (document_store st) =
            size (filter (fun kv : Z * chunk_metadata => document_id kv.2 ∈ ids)
                         (document_store st))
            + size (filter (fun kv : Z * chunk_metadata =>
                              document_id kv.2 ∉ ids) (document_store st)))%nat
      as Hs.
    { rewrite <- (map_filter_union_complement
                    (fun kv : Z * chunk_metadata => document_id kv.2 ∈ ids)
                    (document_store st)) at 1.
      apply map_size_disj_union, map_disjoint_filter_complement. }
    simpl. rewrite Hst, Hn. lia.
Qed.

End IndexerMoreFacts.

Section IndexerMoreRuns.
Import Py Indexer IndexerMore Samples.

(** [indexer_D1] holds row 2 for its chunk; under a model whose
    vectors are 3 the row is not the embedding of the chunk, yet the
    store only uses position 0, below the index size 1. Adding
    [doc_D2] keeps the entry at 0 and puts the new chunk at 1. *)
Lemma add_documents_append_only_witness :
    (forall p dm, document_store indexer_D1 !! p = Some dm ->
                  p < ntotal indexer_D1) /\
    add_documents encode_three indexer_D1 [doc_D2]
      = Returns (indexer_D1_D2 (Q2Qc 3), 1) /\
    document_store indexer_D1 !! 0 = Some chunk_plain /\
    document_store indexer_D1 ⊆ document_store (indexer_D1_D2 (Q2Qc 3)) /\
    total_vectors (get_index_stats (indexer_D1_D2 (Q2Qc 3)))
      = total_vectors (get_index_stats indexer_D1) + 1 /\
    total_chunks (get_index_stats (indexer_D1_D2 (Q2Qc 3)))
      = total_chunks (get_index_stats indexer_D1) + 1.
Proof.
    assert (forall p dm, document_store indexer_D1 !! p = Some dm ->
                         p < ntotal indexer_D1) as H1.
    { intros p dm Hp. simpl in Hp.
      apply lookup_singleton_Some in Hp as [<- _]. reflexivity. }
    assert (add_documents encode_three indexer_D1 [doc_D2]
            = Returns (indexer_D1_D2 (Q2Qc 3), 1)) as H2
      by (vm_compute; reflexivity).
    split; [exact H1|]. split; [exact H2|]. split; [reflexivity|].
    exact (add_documents_append_only encode_three _ _ _ _ H1 H2).
Defined.


Lemma add_documents_all_skipped_witness :
    Forall skipped [doc_no_id] /\
    add_documents encode_fault indexer_D1 [doc_no_id] = Returns (indexer_D1, 0).
Proof.
    assert (Forall skipped [doc_no_id]) as H.
    { constructor; [by left | constructor]. }
    split; [exact H|].
    exact (add_documents_all_skipped encode_fault indexer_D1 [doc_no_id] H).
Defined.

Lemma add_documents_fault_witness :
    chunk_plain ∈ flat_map document_chunks [doc_D1] /\
    encode_fault (content chunk_plain) = Raises EmbeddingError /\
    step encode_fault indexer_D1 (Add [doc_D1]) = indexer_D1.
Proof.
    assert (chunk_plain ∈ flat_map document_chunks [doc_D1]) as H1.
    { vm_compute. apply list_elem_of_here. }
    assert (encode_fault (content chunk_plain) = Raises EmbeddingError) as H2
      by reflexivity.
    split; [exact H1|]. split; [exact H2|].
    exact (proj2 (add_documents_fault encode_fault indexer_D1 [doc_D1]
                    chunk_plain EmbeddingError H1 H2)).
Defined.

Lemma search_results_live_witness :
    exists results,
      search encode_two normalize_1d flat_search_1d indexer_D1
             "monthly payment reports" 1 None = Returns results /\
      Forall (live_hit indexer_D1 None) results.
Proof.
    assert (search encode_two normalize_1d flat_search_1d indexer_D1
              "monthly payment reports" 1 None
            = Returns [make_result (Q2Qc 2) chunk_plain]) as H.
    { unfold search. simpl. unfold query_vector, _embed_text, encode_two.
      simpl. reflexivity. }
    eexists. split; [exact H|].
    exact (proj1 (search_results_live encode_two normalize_1d flat_search_1d
                    indexer_D1 _ 1 None _ H)).
Defined.

Lemma search_skips_deleted_witness :
    search encode_two normalize_1d flat_search_1d
           (delete_documents indexer_D1 ["D1"%string]).1
           "monthly payment reports" 1 None = Returns [] /\
    forall r, r ∈ ([] : list search_result) -> r_document_id r ∉ ["D1"%string].
Proof.
    assert (search encode_two normalize_1d flat_search_1d
              (delete_documents indexer_D1 ["D1"%string]).1
              "monthly payment reports" 1 None = Returns []) as H
      by (vm_compute; reflexivity).
    split; [exact H|].
    exact (search_skips_deleted encode_two normalize_1d flat_search_1d
             indexer_D1 ["D1"%string] _ 1 None [] H).
Defined.

Lemma search_empty_index_witness :
    ntotal (@empty_indexer Qc) = 0 /\
    search encode_fault normalize_1d flat_search_1d empty_indexer
           "anything" 5 None = Returns [].
Proof.
    assert (ntotal (@empty_indexer Qc) = 0) as H by reflexivity.
    split; [exact H|].
    exact (search_empty_index encode_fault normalize_1d flat_search_1d
             empty_indexer "anything" 5 None H).
Defined.

Lemma delete_documents_absent_witness :
    (forall p dm, document_store indexer_D1 !! p = Some dm ->
                  document_id dm ∉ ["D9"%string]) /\
    delete_documents indexer_D1 ["D9"%string] = (indexer_D1, 0).
Proof.
    assert (forall p dm, document_store indexer_D1 !! p = Some dm ->
                         document_id dm ∉ ["D9"%string]) as H.
    { intros p dm Hp. simpl in Hp.
      apply lookup_singleton_Some in Hp as [_ <-]. simpl.
      rewrite list_elem_of_singleton. discriminate. }
    split; [exact H|].
    exact (delete_documents_absent indexer_D1 ["D9"%string] H).
Defined.

Lemma delete_documents_chunk_count_witness :
    reachable encode_two indexer_D1 /\
    total_chunks (get_index_stats (delete_documents indexer_D1 ["D1"%string]).1)
      = total_chunks (get_index_stats indexer_D1)
        - (delete_documents indexer_D1 ["D1"%string]).2.
Proof.
    assert (reachable encode_two indexer_D1) as H by apply reachable_loaded.
    split; [exact H|].
    exact (proj1 (delete_documents_chunk_count encode_two indexer_D1
                    ["D1"%string] H)).
Defined.

End IndexerMoreRuns.

(** ** Persistence: round trip, unusable snapshots, restart recovery *)
Section PersistenceFacts.
Import Py Indexer Persistence.
Context {vec : Type}.
Variable encode : string -> outcome vec.

Lemma save_load (d : disk vec) (st : indexer vec) rows :
    index st = Some rows ->
    _load_index (_save_index Written Written d st) = st.
Proof.
    intros Hidx. unfold _save_index, _load_index. rewrite Hidx. simpl.
    destruct st as [i s]. simpl in *. by subst.
Qed.

(** X18. Round trip: after a save whose two writes went through, loading
    gives back exactly the saved state, whatever the disk held before. *)
Theorem save_load_round_trip (d : disk vec) (st : indexer vec) rows :
    index st = Some rows ->
    _load_index (_save_index Written Written d st) = st.
Proof. apply save_load. Qed.

(** A snapshot is only used when both files exist and load: with
    either one missing or unreadable the indexer starts empty. *)
Theorem load_unusable_snapshot (d : disk vec) :
    read (index_file d) = None \/ read (store_file d) = None ->
    _load_index d = empty_indexer.
Proof.
    unfold _load_index.
    destruct (index_file d), (store_file d); simpl; intros [?|?]; done.
Qed.

(** An indexer without an index never touches the disk when saving. *)
Theorem save_without_index (wi : written (list vec)) ws (d : disk vec) st :
    index st = None -> _save_index wi ws d st = d.
Proof. intros Hidx. unfold _save_index. by rewrite Hidx. Qed.

Lemma add_documents_saved_state wi ws (d : disk vec) st documents :
    (fun r : disk vec * indexer vec * Z => (r.1.2, r.2))
      <$> add_documents_saved encode wi ws d st documents
    = add_documents encode st documents.
Proof.
    unfold add_documents_saved, add_documents.
    destruct documents as [|doc documents]; [done|].
    destruct (map content (flat_map document_chunks (doc :: documents)));
      [done|].
    by destruct (_embed_texts encode _).
Qed.

Lemma delete_documents_saved_state ws (d : disk vec) st ids :
    ((delete_documents_saved ws d st ids).1.2,
     (delete_documents_saved ws d st ids).2) = delete_documents st ids.
Proof.
    unfold delete_documents_saved, delete_documents.
    destruct (index st); [|done].
    destruct ((filter _ (store_items (document_store st))).*1); [done|].
    by destruct (foldl _ _ _).
Qed.

(** Saving never changes what the calls return: whatever happens to the
    writes, the persisted calls yield the state and count of the
    in-memory ones. *)
Theorem saves_are_not_surfaced wi ws (d : disk vec) st documents ids :
    (fun r : disk vec * indexer vec * Z => (r.1.2, r.2))
      <$> add_documents_saved encode wi ws d st documents
    = add_documents encode st documents /\
    ((delete_documents_saved ws d st ids).1.2,
     (delete_documents_saved ws d st ids).2) = delete_documents st ids.
Proof.
    split; [apply add_documents_saved_state | apply delete_documents_saved_state].
Qed.

Lemma load_index_Some (d : disk vec) rows :
    index (_load_index d) = Some rows ->
    exists store, d = {| index_file := Stored rows; store_file := Stored store |}.
Proof.
    unfold _load_index. destruct d as [fi fs]. simpl.
    destruct fi as [| |rows'], fs as [| |store]; simpl; try done.
    intros [= <-]. by exists store.
Qed.

Lemma step_saved_synced (d : disk vec) st o :
    _load_index d = st ->
    _load_index (step_saved encode (d, st) o).1 = (step_saved encode (d, st) o).2.
Proof.
    intros Hsync. destruct o as [documents | ids]; simpl.
    - unfold add_documents_saved.
      destruct documents as [|doc documents]; [done|].
      destruct (map content (flat_map document_chunks (doc :: documents)));
        [done|].
      destruct (_embed_texts encode _) as [vs|]; [|done]. simpl.
      by eapply save_load.
    - unfold delete_documents_saved.
      destruct (index st) as [rows|] eqn:Hidx; [|done].
      destruct ((filter _ (store_items (document_store st))).*1); [done|].
      destruct (foldl _ _ _) as [store n]. simpl.
      rewrite <- Hsync in Hidx.
      by destruct (load_index_Some d rows Hidx) as [store0 ->].
Qed.

(** X19. Restart recovery: starting from the state loaded at start-up, after
    any sequence of [add_documents] and [delete_documents] calls whose
    writes go through, loading the disk again gives the current state. *)
Theorem restart_recovers_state (d : disk vec) (ops : list saved_op) :
    _load_index (foldl (step_saved encode) (d, _load_index d) ops).1
      = (foldl (step_saved encode) (d, _load_index d) ops).2.
Proof.
    assert (forall s : disk vec * indexer vec,
              _load_index s.1 = s.2 ->
              _load_index (foldl (step_saved encode) s ops).1
                = (foldl (step_saved encode) s ops).2) as Hgen.
    { induction ops as [|o ops IH]; intros s Hs; [done|]. simpl.
      apply IH. destruct s as [d' st']. by apply step_saved_synced. }
    by apply Hgen.
Qed.

End PersistenceFacts.

Section QueryMoreFacts.
Import Py Indexer Query FilterKeys IndexerMore QueryMore.

Lemma Q2Qc_inject (n : Z) : Q2Qc (inject_Z n) = Qc_of_Z n.
Proof. apply Qc_is_canon. simpl. apply Qred_correct. Qed.

Lemma Qc_div_unit (a b : Z) :
    0 <= a <= b -> 0 < b ->
    (Q2Qc (inject_Z a) / Q2Qc (inject_Z b) <= 1)%Qc /\
    (0 < a -> (0 < Q2Qc (inject_Z a) / Q2Qc (inject_Z b))%Qc).
Proof.
    intros Hab Hb. rewrite !Q2Qc_inject.
    assert (0 < Qc_of_Z b)%Qc as Hbq by (apply (proj1 (Z2Qc_inj_lt 0 b)); lia).
    assert (Qc_of_Z b <> 0%Qc) as Hne.
    { intros H. rewrite H in Hbq. by apply Qclt_not_le in Hbq. }
    split.
    - apply (Qcmult_le_mono_pos_r _ _ (Qc_of_Z b)); [done|].
      unfold Qcdiv. rewrite <- Qcmult_assoc, (Qcmult_comm (/ _)).
      rewrite Qcmult_inv_r by done. rewrite Qcmult_1_r, Qcmult_1_l.
      apply (proj1 (Z2Qc_inj_le a b)). lia.
    - intros Ha. apply (Qcmult_lt_mono_pos_r _ _ (Qc_of_Z b)); [done|].
      unfold Qcdiv. rewrite <- Qcmult_assoc, (Qcmult_comm (/ _)).
      rewrite Qcmult_inv_r by done. rewrite Qcmult_1_r, Qcmult_0_l.
      apply (proj1 (Z2Qc_inj_lt 0 a)). lia.
Qed.

Lemma take_upto_sublist {A} (n : Z) (l : list A) : take_upto n l `sublist_of` l.
Proof. unfold take_upto. destruct (n <? 0); apply sublist_take. Qed.

Lemma take_upto_length {A} (n : Z) (l : list A) :
    0 <= n -> Z.of_nat (length (take_upto n l)) <= n.
Proof.
    intros Hn. rewrite take_upto_nonneg by done. rewrite length_take. lia.
Qed.

Lemma take_upto_descending n l : descending l -> descending (take_upto n l).
Proof. unfold take_upto. destruct (n <? 0); apply descending_take. Qed.

Lemma keyword_search_spec store query k filters :
    Forall (keyword_hit store filters) (_keyword_search store query k filters) /\
    descending (_keyword_search store query k filters) /\
    (0 <= k -> Z.of_nat (length (_keyword_search store query k filters)) <= k).
Proof.
    unfold _keyword_search. cbv zeta.
    split; [|split; [apply take_upto_descending, sort_desc_sorted
                    | apply take_upto_length]].
    rewrite Forall_forall. intros r Hr.
    eapply elem_of_sublist in Hr; [|apply take_upto_sublist].
    rewrite sort_desc_perm in Hr.
    apply list_elem_of_In, in_flat_map in Hr as ([p dm] & Hkv & Hr).
    apply list_elem_of_In in Hkv. rewrite store_items_perm in Hkv.
    apply elem_of_map_to_list in Hkv. simpl in Hr.
    destruct (filters_pass filters dm) eqn:Hpass; simpl in Hr; [|done].
    set (qw := words (lower_str query)) in *.
    set (cw := words (lower_str (content dm))) in *.
    destruct (bool_decide (size qw = 0%nat)) eqn:Hsize.
    { rewrite bool_decide_eq_false_2 in Hr; [done|].
      intros H. apply Qclt_not_le in H. apply H, Qcle_refl. }
    apply bool_decide_eq_false in Hsize.
    destruct (bool_decide _) eqn:Hpos in Hr; [|done].
    apply bool_decide_eq_true in Hpos.
    destruct Hr as [<-|[]].
    exists p, dm. split; [done|]. split; [done|]. split; [done|]. simpl.
    split; [done|].
    apply Qc_div_unit; [|lia]. split; [lia|].
    apply Nat2Z.inj_le, subseteq_size, intersection_subseteq_l.
Qed.

(** X20. Keyword search returns only live chunk-store entries that pass the
    filters, each with a score above 0 and at most 1, best first, and
    for [k >= 0] at most [k] of them. *)
Theorem keyword_search_hits store query k filters :
    Forall (keyword_hit store filters) (_keyword_search store query k filters) /\
    descending (_keyword_search store query k filters) /\
    (0 <= k -> Z.of_nat (length (_keyword_search store query k filters)) <= k).
Proof. apply keyword_search_spec. Qed.

End QueryMoreFacts.

Section AnswerFacts.
Import Py Indexer Query FilterKeys IndexerMore QueryMore.
Context {vec : Type}.
Variable encode : string -> outcome vec.
Variable normalize_L2 : vec -> vec.
Variable index_search : list vec -> vec -> Z -> outcome (list (Qc * Z)).
Variable answer_generator : bool.
Variable chat_completion : string -> string -> outcome string.

Lemma make_sources_scores results srcs :
    make_sources results = Returns srcs ->
    Forall (fun r => unit_interval (r_score r) = true) results /\
    Forall (fun s => unit_interval (relevance_score s) = true) srcs /\
    length srcs = length results.
Proof.
    revert srcs. induction results as [|r rest IH]; intros srcs; simpl.
    - by intros [= <-].
    - unfold make_source, new_SourceReference.
      destruct (unit_interval (r_score r)) eqn:Hr; [|done]. simpl.
      destruct (make_sources rest) as [ss|]; [|done]. simpl. intros [= <-].
      destruct (IH ss eq_refl) as (H1 & H2 & H3).
      split; [by constructor|]. split; [by constructor|]. simpl. by rewrite H3.
Qed.

Lemma ai_answer_confidence q ctx :
    unit_interval (_generate_ai_answer chat_completion q ctx).2 = true.
Proof.
    unfold _generate_ai_answer.
    destruct (chat_completion _ _) as [content|]; [|reflexivity].
    by destruct (_ && _).
Qed.

Lemma generate_answer_cases request results :
    let a := _generate_answer answer_generator chat_completion request results in
    valid_answer a /\
    (results = [] ->
     answer_type a = "not_found"%string /\ confidence a = 0%Qc /\
     sources a = []) /\
    (results <> [] ->
     Forall (fun r => unit_interval (r_score r) = true) results ->
     answer_type a = (if answer_generator && include_context request
                      then "synthesized" else "direct")%string /\
     make_sources results = Returns (sources a)) /\
    (~ Forall (fun r => unit_interval (r_score r) = true) results ->
     a = error_answer).
Proof.
    cbv zeta. unfold _generate_answer, generate_answer_body.
    destruct results as [|top rest].
    { simpl. split; [by split|]. split; [done|]. split; [done|].
      intros H. by destruct H. }
    destruct (make_sources (top :: rest)) as [srcs|e] eqn:Hsrc.
    2:{ simpl. split; [by split|]. split; [done|]. split; [|done].
        intros _ Hvalid.
        destruct (make_sources_valid _ Hvalid) as (srcs & Hs & _). congruence. }
    destruct (make_sources_scores _ _ Hsrc) as (Hres & Hsrcs & Hlen).
    simpl. destruct (answer_generator && include_context request).
    - pose proof (ai_answer_confidence (query_text request)
                    (map r_content (top :: rest))) as Hconf.
      destruct (_generate_ai_answer _ _ _) as [text conf]. simpl in Hconf.
      unfold new_QAAnswer. rewrite Hconf. simpl.
      split; [by split|]. split; [done|]. split; [done|]. by intros [].
    - unfold new_QAAnswer.
      assert (unit_interval (r_score top) = true) as ->
        by (by inversion Hres).
      simpl. split; [split; [by inversion Hres | done]|].
      split; [done|]. split; [done|]. by intros [].
Qed.

(** X21. Whatever the retrieved results and the chat client do,
    [_generate_answer] yields an answer that satisfies the response
    model: its confidence and the relevance of each source lie in
    [0, 1]. The ["error"] answer is returned exactly when some
    retrieved score lies outside [0, 1]. *)
Theorem generate_answer_valid request results :
    valid_answer
      (_generate_answer answer_generator chat_completion request results) /\
    (answer_type
       (_generate_answer answer_generator chat_completion request results)
       = "error"%string <->
     ~ Forall (fun r => unit_interval (r_score r) = true) results).
Proof.
    destruct (generate_answer_cases request results)
      as (Hvalid & Hnil & Hcons & Herr).
    split; [exact Hvalid|]. split.
    - intros Htype Hall. destruct results as [|top rest].
      + destruct (Hnil eq_refl) as (Ht & _). rewrite Ht in Htype. done.
      + destruct (Hcons ltac:(done) Hall) as (Ht & _). rewrite Ht in Htype.
        by destruct (answer_generator && include_context request).
    - intros Hbad. by rewrite (Herr Hbad).
Qed.

End AnswerFacts.

Section RetrievalFacts.
Import Py Indexer Query FilterKeys IndexerMore QueryMore.
Context {vec : Type}.
Variable encode : string -> outcome vec.
Variable normalize_L2 : vec -> vec.
Variable index_search : list vec -> vec -> Z -> outcome (list (Qc * Z)).
Variable answer_generator : bool.
Variable chat_completion : string -> string -> outcome string.

Lemma search_documents_keyword (st : indexer vec) request :
    search_mode request = "keyword"%string ->
    _search_documents encode normalize_L2 index_search st request
    = filter (fun r => (confidence_threshold request <= r_score r)%Qc)
        (_keyword_search (document_store st) (query_text request)
           (max_results request) (_convert_filters (filters request))).
Proof.
    intros Hmode. unfold _search_documents, search_documents_body.
    by rewrite Hmode.
Qed.

Lemma keyword_hit_unit store filters r :
    keyword_hit store filters r -> unit_interval (r_score r) = true.
Proof.
    intros (p & dm & _ & _ & _ & Hpos & Hle). unfold unit_interval.
    rewrite !bool_decide_eq_true_2; [done | done | by apply Qclt_le_weak].
Qed.

(** X22. In keyword mode a query never ends in the ["error"] answer: the
    retrieved scores are ratios in (0, 1], so the sources always
    validate, and there is one source per retrieved result. *)
Theorem keyword_mode_never_error (st : indexer vec) request :
    search_mode request = "keyword"%string ->
    exists res,
      query encode normalize_L2 index_search answer_generator chat_completion
            st request = Returns res /\
      answer_type (res_answer res) <> "error"%string /\
      Z.of_nat (length (sources (res_answer res))) = search_results_count res.
Proof.
    intros Hmode.
    destruct (query_returns encode normalize_L2 index_search chat_completion
                answer_generator st request) as (res & Hq & Hans & Hcount).
    exists res. split; [exact Hq|]. rewrite Hans, Hcount.
    set (results := _search_documents encode normalize_L2 index_search st request).
    assert (Forall (fun r => unit_interval (r_score r) = true) results) as Hall.
    { subst results. rewrite search_documents_keyword by done.
      apply Forall_forall. intros r Hr.
      apply list_elem_of_filter in Hr as [_ Hr].
      destruct (keyword_search_spec (document_store st) (query_text request)
                  (max_results request) (_convert_filters (filters request)))
        as (Hhits & _).
      rewrite Forall_forall in Hhits. eapply keyword_hit_unit, Hhits, Hr. }
    destruct (generate_answer_cases answer_generator chat_completion
                request results) as (_ & Hnil & Hcons & _).
    destruct results as [|top rest] eqn:Hres.
    - destruct (Hnil eq_refl) as (Ht & _ & Hs). rewrite Ht, Hs. done.
    - destruct (Hcons ltac:(done) Hall) as (Ht & Hs). rewrite Ht.
      split; [by destruct (answer_generator && include_context request)|].
      destruct (make_sources_scores _ _ Hs) as (_ & _ & Hlen).
      by rewrite Hlen.
Qed.

(** X23. What [_search_documents] returns respects the request: every
    result scores at least the confidence threshold, and with
    [max_results >= 1] there are at most [max_results] results, in
    each of the three search modes. *)
Theorem search_documents_bounds (st : indexer vec) request :
    1 <= max_results request ->
    Forall (fun r => (confidence_threshold request <= r_score r)%Qc)
           (_search_documents encode normalize_L2 index_search st request) /\
    Z.of_nat (length (_search_documents encode normalize_L2 index_search
                                        st request))
      <= max_results request.
Proof.
    intros Hmax. unfold _search_documents, search_documents_body.
    assert (forall l : list search_result,
              Z.of_nat (length l) <= max_results request ->
              Forall (fun r => (confidence_threshold request <= r_score r)%Qc)
                (filter (fun r => (confidence_threshold request <= r_score r)%Qc) l) /\
              Z.of_nat (length (filter
                (fun r => (confidence_threshold request <= r_score r)%Qc) l))
                <= max_results request) as Hfilter.
    { intros l Hl. split.
      - apply Forall_forall. intros r Hr.
        by apply list_elem_of_filter in Hr as [Hr _].
      - pose proof (length_filter
          (fun r => (confidence_threshold request <= r_score r)%Qc) l). lia. }
    destruct (String.eqb (search_mode request) "semantic").
    { destruct (search _ _ _ _ _ _ _) as [results|e] eqn:Hs; simpl.
      - apply Hfilter.
        destruct (search_live_hits _ _ _ _ _ _ _ _ Hs) as [_ Hk]. by apply Hk.
      - split; [constructor | simpl; lia]. }
    destruct (String.eqb (search_mode request) "keyword").
    { simpl. apply Hfilter.
      apply keyword_search_spec. lia. }
    destruct (search _ _ _ _ _ _ _) as [results|e]; simpl.
    - apply Hfilter. unfold _merge_results.
      destruct (merge_semantic _ _ _) as [seen merged].
      destruct (merge_keyword _ _ _) as [seen' merged'].
      apply take_upto_length. lia.
    - split; [constructor | simpl; lia].
Qed.

Lemma collect_empty_store filters k hits acc :
    collect (∅ : gmap Z chunk_metadata) filters k hits acc = acc.
Proof.
    induction hits as [|[score idx] hits IH]; simpl; [done|].
    destruct (idx =? -1); [done|]. by rewrite lookup_empty.
Qed.

Lemma search_documents_empty_store (st : indexer vec) request :
    document_store st = ∅ ->
    _search_documents encode normalize_L2 index_search st request = [].
Proof.
    intros Hstore. unfold _search_documents, search_documents_body.
    assert (forall q k f,
              search encode normalize_L2 index_search st q k f = Returns [] \/
              exists e, search encode normalize_L2 index_search st q k f
                        = Raises e) as Hsearch.
    { intros q k f. unfold search. rewrite Hstore.
      destruct (index st) as [rows|]; [|by left].
      destruct (_ =? 0); [by left|].
      destruct (query_vector _ _ _) as [qv|e]; simpl; [|by right; exists e].
      destruct (index_search _ _ _) as [hits|e]; simpl; [|by right; exists e].
      left. by rewrite collect_empty_store. }
    assert (forall q k f, _keyword_search (document_store st) q k f = [])
      as Hkw.
    { intros q k f. rewrite Hstore. unfold _keyword_search, store_items.
      rewrite map_to_list_empty. simpl. unfold take_upto.
      destruct (k <? 0); apply take_nil. }
    destruct (String.eqb (search_mode request) "semantic").
    { by destruct (Hsearch (query_text request) (max_results request)
                     (_convert_filters (filters request))) as [-> | [e ->] ]. }
    destruct (String.eqb (search_mode request) "keyword").
    { simpl. by rewrite Hkw. }
    rewrite Hkw.
    destruct (Hsearch (query_text request) (max_results request `div` 2)
                (_convert_filters (filters request))) as [-> | [e ->] ];
      [|done].
    simpl. unfold _merge_results. simpl. unfold take_upto.
    by destruct (_ <? 0); rewrite take_nil.
Qed.

(** X24. With no live chunk in the store, which is the state of a fresh
    indexer and the state after every document has been deleted, a
    query in any mode returns normally with the ["not_found"] answer,
    confidence 0, no sources and a result count of 0, whatever the
    embedding model, the index and the chat client do. *)
Theorem query_no_live_chunks (st : indexer vec) request :
    document_store st = ∅ ->
    exists res,
      query encode normalize_L2 index_search answer_generator chat_completion
            st request = Returns res /\
      answer_type (res_answer res) = "not_found"%string /\
      confidence (res_answer res) = 0%Qc /\
      sources (res_answer res) = [] /\
      search_results_count res = 0.
Proof.
    intros Hstore.
    destruct (query_returns encode normalize_L2 index_search chat_completion
                answer_generator st request) as (res & Hq & Hans & Hcount).
    exists res. split; [exact Hq|]. rewrite Hans, Hcount.
    rewrite search_documents_empty_store by done.
    destruct (generate_answer_cases answer_generator chat_completion
                request []) as (_ & Hnil & _).
    destruct (Hnil eq_refl) as (Ht & Hc & Hs). by rewrite Ht, Hc, Hs.
Qed.

End RetrievalFacts.

Section ConvertFacts.
Import Py Indexer Query FilterKeys IndexerMore QueryMore Api.

Lemma dict_set_elem {V} (d : list (string * V)) k v kv :
    kv ∈ dict_set d k v -> kv ∈ d \/ kv = (k, v).
Proof.
    induction d as [|[k' v'] d IH]; simpl.
    - intros ->%list_elem_of_singleton. by right.
    - destruct (String.eqb k' k).
      + intros [->|H]%elem_of_cons; [by right|]. left. by constructor.
      + intros [->|H]%elem_of_cons; [left; by constructor|].
        destruct (IH H) as [?|?]; [left; by constructor | by right].
Qed.

Lemma dict_set_nonempty {V} (d : list (string * V)) k v : dict_set d k v <> [].
Proof. destruct d as [|[k' v'] d]; simpl; [done|]. by destruct (String.eqb k' k). Qed.

Lemma mapping_valid k :
    k ∈ valid_filter_keys ->
    default k (mapping_get filter_mapping k) ∈ indexer_filter_keys.
Proof.
    unfold valid_filter_keys. intros H.
    repeat (apply elem_of_cons in H as [->|H]);
      [.. | by apply elem_of_nil in H];
      apply (bool_decide_eq_true_1 _); reflexivity.
Qed.

(** X25. Filters that passed the request validator are converted into a
    non-empty filter set in which every key is one the filter evaluator
    has a branch for, and every membership filter carries a list. *)
Theorem convert_filters_known_keys (fs : filter_set) :
    fs <> [] -> keys_valid fs = true ->
    exists cs,
      _convert_filters (Some fs) = Some cs /\ cs <> [] /\
      Forall (fun kv : string * pyval =>
                kv.1 ∈ indexer_filter_keys /\
                (kv.1 ∈ membership_keys -> exists l, kv.2 = PList l)) cs.
Proof.
    intros Hne Hvalid. destruct fs as [|f fs]; [done|].
    unfold _convert_filters. eexists. split; [done|].
    set (step := fun (converted : list (string * pyval)) '(api_key, value) => _).
    assert (forall items acc,
              keys_valid items = true ->
              Forall (fun kv : string * pyval =>
                        kv.1 ∈ indexer_filter_keys /\
                        (kv.1 ∈ membership_keys -> exists l, kv.2 = PList l))
                     acc ->
              Forall (fun kv : string * pyval =>
                        kv.1 ∈ indexer_filter_keys /\
                        (kv.1 ∈ membership_keys -> exists l, kv.2 = PList l))
                     (foldl step acc items) /\
              (items <> [] -> foldl step acc items <> [])) as Hfold.
    { induction items as [|[api_key value] items IH]; intros acc Hk Hacc.
      { by split. }
      simpl in Hk. apply andb_prop in Hk as [Hkey Hk].
      apply bool_decide_eq_true in Hkey. simpl in Hkey.
      assert (Forall (fun kv : string * pyval =>
                        kv.1 ∈ indexer_filter_keys /\
                        (kv.1 ∈ membership_keys -> exists l, kv.2 = PList l))
                     (step acc (api_key, value))) as Hacc'.
      { apply Forall_forall. intros kv Hkv. simpl in Hkv.
        apply dict_set_elem in Hkv as [Hkv | ->].
        { rewrite Forall_forall in Hacc. by apply Hacc. }
        simpl. split; [by apply mapping_valid|].
        destruct (bool_decide _) eqn:Hm.
        - intros _. destruct value; by eexists.
        - intros Hin. by apply bool_decide_eq_false in Hm. }
      simpl. destruct (IH _ Hk Hacc') as [H1 H2]. split; [done|]. intros _.
      destruct items as [|item items']; [|by apply H2].
      simpl. apply dict_set_nonempty. }
    destruct (Hfold (f :: fs) [] Hvalid (Forall_nil_2 _)) as [H1 H2].
    split; [by apply H2 | done].
Qed.

Lemma convert_filters_known_keys_witness :
    exists cs,
      _convert_filters (Some [("project_id", PStr "P1")]%string) = Some cs /\
      cs <> [] /\
      Forall (fun kv : string * pyval =>
                kv.1 ∈ indexer_filter_keys /\
                (kv.1 ∈ membership_keys -> exists l, kv.2 = PList l)) cs.
Proof.
    apply convert_filters_known_keys; [done | reflexivity].
Defined.

(** [_get_related_queries] never returns [None]: it gives two
    suggestions when the lowered query mentions a pattern type
    (obligation, sla, payment, project) and three otherwise. *)
Theorem related_queries_count (query : string) :
    exists suggestions,
      _get_related_queries query = Some suggestions /\
      length suggestions = if mentions_pattern query then 2%nat else 3%nat.
Proof.
    unfold _get_related_queries, mentions_pattern. cbv zeta.
    eexists. split; [done|].
    unfold related_patterns. simpl.
    repeat (destruct (is_infix _ (chars (lower_str query))); simpl; [done|]).
    done.
Qed.

End ConvertFacts.

Section ApiFacts.
Import Py Indexer Query FilterKeys IndexerMore QueryMore Api ApiMore.

Lemma warnings_valid_keys (fs : filter_set) :
    keys_valid fs = true ->
    flat_map (fun kv : string * pyval =>
                if bool_decide (kv.1 ∈ valid_filter_keys) then []
                else ["Filter key '" +:+ kv.1 +:+ "' may not be supported"]%string)
             fs = [].
Proof.
    induction fs as [|kv fs IH]; simpl; [done|].
    intros [Hk Hfs]%andb_prop. rewrite Hk. simpl. by apply IH.
Qed.

Lemma validate_filters_returns v v' :
    validate_filters v = Returns v' ->
    v' = v /\ match v with Some fs => keys_valid fs = true | None => True end.
Proof.
    unfold validate_filters. destruct v as [[|f fs]|].
    - by intros [= <-].
    - destruct (keys_valid (f :: fs)) eqn:Hk; [|done]. by intros [= <-].
    - by intros [= <-].
Qed.

(** X26. For a request the model accepted, the endpoint's own validator can
    only object to white space: the request is valid exactly when the
    query still has 3 characters after stripping, and no filter warning
    is ever produced. *)
Theorem validate_after_model query filters max_results threshold context mode
    request :
    new_QARequest query filters max_results threshold context mode
      = Returns request ->
    (is_valid (validate_qa_request request) = true
     <-> 3 <= len (strip (chars query))) /\
    warnings (validate_qa_request request) = [].
Proof.
    unfold new_QARequest.
    destruct (3 <=? len (chars query)) eqn:H3; [|done].
    destruct (len (chars query) <=? 1000) eqn:H1000; [|done].
    destruct (1 <=? max_results) eqn:Hlo; [|done].
    destruct (max_results <=? 100) eqn:Hhi; [|done].
    destruct (unit_interval threshold) eqn:Hthr; [|done].
    destruct (bool_decide (mode ∈ search_modes)) eqn:Hmode; [|done].
    simpl. destruct (validate_filters filters) as [filters'|] eqn:Hf; [|done].
    simpl. intros [= <-].
    apply validate_filters_returns in Hf as [-> Hkeys].
    unfold validate_qa_request. simpl.
    rewrite Hmode, Hthr, Hlo, Hhi. simpl.
    assert (truthy (chars query) = true) as ->.
    { unfold len in H3. destruct (chars query); [done | done]. }
    assert ((1000 <? len (chars query)) = false) as -> by lia.
    simpl. split.
    - destruct (Z.ltb_spec (len (strip (chars query))) 3); simpl; [|done].
      split; [done | lia].
    - destruct filters as [[|f fs]|]; [done | | done].
      exact (warnings_valid_keys (f :: fs) Hkeys).
Qed.

Lemma validate_after_model_witness :
    exists request,
      new_QARequest "   a   " None 10 (Q2Qc (1 # 2)) true "hybrid"
        = Returns request /\
      is_valid (validate_qa_request request) = false.
Proof.
    eexists. split; [reflexivity|].
    destruct (validate_after_model "   a   " None 10 (Q2Qc (1 # 2)) true
                "hybrid" _ eq_refl) as [Hiff _].
    destruct (is_valid _); [|done]. by specialize (proj1 Hiff eq_refl).
Defined.

End ApiFacts.

Section EndpointFacts.
Import Py Indexer Query FilterKeys IndexerMore QueryMore Api ApiMore.
Context {vec : Type}.
Variable encode : string -> outcome vec.
Variable normalize_L2 : vec -> vec.
Variable index_search : list vec -> vec -> Z -> outcome (list (Qc * Z)).
Variable answer_generator : bool.
Variable chat_completion : string -> string -> outcome string.

Lemma engine_query_returns (st : indexer vec) request :
    exists res,
      Api.engine_query encode normalize_L2 index_search answer_generator
        chat_completion st request = Returns res /\
      res_query res = query_text request /\
      valid_answer (res_answer res).
Proof.
    unfold Api.engine_query.
    destruct (query_returns encode normalize_L2 index_search chat_completion
                answer_generator st request) as (res & Hq & Hans & _).
    exists res. split; [exact Hq|]. split.
    - unfold query in Hq. by injection Hq as <-.
    - rewrite Hans. apply generate_answer_cases.
Qed.

(** [query_documents] never answers with an HTTP error: an invalid
    request gets [success = False] and no data, without the engine
    being consulted; a valid one gets [success = True] and a result
    for the query whose answer satisfies the response model. *)
Theorem query_documents_responds (st : indexer vec) request :
    exists response,
      query_documents encode normalize_L2 index_search answer_generator
                      chat_completion st request = Ok response /\
      success response = is_valid (validate_qa_request request) /\
      validation response = Some (validate_qa_request request) /\
      match data response with
      | Some result =>
          success response = true /\
          res_query result = query_text request /\
          valid_answer (res_answer result)
      | None => success response = false
      end.
Proof.
    unfold query_documents.
    destruct (is_valid (validate_qa_request request)); cbn [negb].
    - destruct (engine_query_returns st request) as (res & Hq & Hres & Hvalid).
      rewrite Hq. eexists. split; [done|]. simpl. done.
    - eexists. split; [done|]. simpl. done.
Qed.

Lemma batch_sequential_cons (st : indexer vec) request q qs :
    Api.batch_sequential encode normalize_L2 index_search answer_generator
      chat_completion st request (q :: qs)
    = let rest := Api.batch_sequential encode normalize_L2 index_search
                    answer_generator chat_completion st request qs in
      match individual_request request q with
      | Returns r =>
          match Api.engine_query encode normalize_L2 index_search
                  answer_generator chat_completion st r with
          | Returns result => (result :: rest.1, rest.2)
          | Raises _ => (rest.1, q :: rest.2)
          end
      | Raises _ => (rest.1, q :: rest.2)
      end.
Proof.
    cbn [Api.batch_sequential]. cbv zeta.
    destruct (Api.batch_sequential _ _ _ _ _ st request qs) as [results failed].
    destruct (individual_request request q) as [r|e]; [|done].
    cbn [mbind outcome_bind]. cbn [fst snd].
    by destruct (Api.engine_query _ _ _ _ _ st r).
Qed.

Lemma individual_request_query request q r :
    individual_request request q = Returns r -> query_text r = q.
Proof.
    unfold individual_request, new_QARequest.
    destruct (_ && _); [|done]. simpl.
    destruct (validate_filters _); [|done]. by intros [= <-].
Qed.

Lemma batch_sequential_spec (st : indexer vec) request qs :
    (Api.batch_sequential encode normalize_L2 index_search answer_generator
       chat_completion st request qs).2
      = filter (fun q => buildable request q = false) qs /\
    map res_query
        (Api.batch_sequential encode normalize_L2 index_search
           answer_generator chat_completion st request qs).1
      = filter (fun q => buildable request q = true) qs /\
    Forall (fun r => valid_answer (res_answer r))
           (Api.batch_sequential encode normalize_L2 index_search
              answer_generator chat_completion st request qs).1.
Proof.
    induction qs as [|q qs (IH1 & IH2 & IH3)]; [done|].
    rewrite batch_sequential_cons. cbv zeta.
    destruct (individual_request request q) as [r|e] eqn:Hreq.
    - destruct (engine_query_returns st r) as (res & Hq & Hres & Hvalid).
      rewrite Hq. cbn [fst snd].
      rewrite filter_cons_False by (unfold buildable; by rewrite Hreq).
      rewrite filter_cons_True by (unfold buildable; by rewrite Hreq).
      split; [done|]. split; [|by constructor].
      cbn [map]. rewrite IH2, Hres. f_equal.
      by eapply individual_request_query.
    - cbn [fst snd].
      rewrite filter_cons_True by (unfold buildable; by rewrite Hreq).
      rewrite filter_cons_False by (unfold buildable; by rewrite Hreq).
      by rewrite IH1.
Qed.

Lemma unit_interval_bounds q :
    unit_interval q = true <-> (0 <= q)%Qc /\ (q <= 1)%Qc.
Proof.
    unfold unit_interval. rewrite andb_true_iff, !bool_decide_eq_true. done.
Qed.

Lemma sum_unit (l : list Qc) :
    Forall (fun q => unit_interval q = true) l ->
    (0 <= foldr Qcplus 0%Qc l)%Qc /\
    (foldr Qcplus 0%Qc l <= Qc_of_Z (Z.of_nat (length l)))%Qc.
Proof.
    induction 1 as [|q l Hq _ [IH0 IH1] ]; simpl.
    { change (Z.of_nat 0) with 0. rewrite Z2Qc_inj_0. split; apply Qcle_refl. }
    apply unit_interval_bounds in Hq as [Hq0 Hq1]. split.
    - rewrite <- (Qcplus_0_l 0%Qc). by apply Qcplus_le_compat.
    - rewrite Nat2Z.inj_succ, <- Z.add_1_l, Z2Qc_inj_add, Z2Qc_inj_1.
      by apply Qcplus_le_compat.
Qed.

Lemma mean_unit (l : list Qc) :
    Forall (fun q => unit_interval q = true) l -> unit_interval (mean l) = true.
Proof.
    intros Hl. destruct (sum_unit l Hl) as [H0 H1].
    destruct l as [|q l]; [reflexivity|].
    unfold mean. remember (q :: l) as l' eqn:Hl'.
    assert (0 < Z.of_nat (length l')) as Hn by (subst l'; simpl; lia).
    rewrite Q2Qc_inject. clear Hl'.
    assert (0 < Qc_of_Z (Z.of_nat (length l')))%Qc as Hpos
      by (apply (proj1 (Z2Qc_inj_lt 0 _)); lia).
    assert (Qc_of_Z (Z.of_nat (length l')) <> 0%Qc) as Hne.
    { intros H. rewrite H in Hpos. apply Qclt_not_le in Hpos.
      apply Hpos, Qcle_refl. }
    apply unit_interval_bounds. split.
    - apply (Qcmult_le_mono_pos_r _ _ (Qc_of_Z (Z.of_nat (length l'))));
        [done|].
      unfold Qcdiv. rewrite <- Qcmult_assoc, (Qcmult_comm (/ _)).
      rewrite Qcmult_inv_r by done. by rewrite Qcmult_1_r, Qcmult_0_l.
    - apply (Qcmult_le_mono_pos_r _ _ (Qc_of_Z (Z.of_nat (length l'))));
        [done|].
      unfold Qcdiv. rewrite <- Qcmult_assoc, (Qcmult_comm (/ _)).
      rewrite Qcmult_inv_r by done. by rewrite Qcmult_1_r, Qcmult_1_l.
Qed.

Lemma filter_split_length {A} (b : A -> bool) (l : list A) :
    (length (filter (fun x => b x = true) l)
     + length (filter (fun x => b x = false) l) = length l)%nat.
Proof.
    induction l as [|x l IH]; [done|]. destruct (b x) eqn:Hb.
    - rewrite filter_cons_True, filter_cons_False by congruence. simpl. lia.
    - rewrite filter_cons_False, filter_cons_True by congruence. simpl. lia.
Qed.

Lemma batch_result_returns (results : list QAResult) n failed :
    1 <= n ->
    Forall (fun r => valid_answer (res_answer r)) results ->
    new_QABatchResult results n (Z.of_nat (length results)) failed
      (mean (map (fun r => confidence (res_answer r)) results))
    = Returns {| Api.results := results; total_queries := n;
                 successful_queries := Z.of_nat (length results);
                 failed_queries := failed;
                 average_confidence :=
                   mean (map (fun r => confidence (res_answer r)) results) |}.
Proof.
    intros Hn Hvalid. unfold new_QABatchResult.
    rewrite mean_unit.
    - destruct (Z.leb_spec 1 n); [|lia].
      by destruct (Z.leb_spec 0 (Z.of_nat (length results))); [|lia].
    - apply Forall_map. eapply Forall_impl; [exact Hvalid|].
      by intros r [Hr _].
Qed.

(** X27. A sequential batch of 1 to 50 queries never fails as a whole: it
    answers with a result for each query whose request can be built,
    in order, lists the others in [failed_queries], and its counts add
    up to the number of queries. *)
Theorem batch_sequential_accounting (st : indexer vec) request :
    parallel_processing request = false ->
    (1 <= length (queries request) <= 50)%nat ->
    exists response result,
      Api.batch_query_documents encode normalize_L2 index_search
        answer_generator chat_completion st request = Ok response /\
      batch_data response = Some result /\
      total_queries result = Z.of_nat (length (queries request)) /\
      successful_queries result + Z.of_nat (length (failed_queries result))
        = total_queries result /\
      failed_queries result
        = filter (fun q => buildable request q = false) (queries request) /\
      map res_query (results result)
        = filter (fun q => buildable request q = true) (queries request).
Proof.
    intros Hseq Hlen. unfold Api.batch_query_documents. rewrite Hseq.
    destruct (queries request) as [|q0 qs0] eqn:Hqs; [simpl in Hlen; lia|].
    rewrite <- Hqs in *.
    destruct (Z.ltb_spec 50 (Z.of_nat (length (queries request)))); [lia|].
    destruct (batch_sequential_spec st request (queries request))
      as (Hfailed & Hresults & Hvalid).
    pose proof (filter_split_length (buildable request) (queries request))
      as Hsplit.
    rewrite <- Hfailed, <- Hresults, length_map in Hsplit.
    destruct (Api.batch_sequential _ _ _ _ _ st request (queries request))
      as [results failed].
    cbn [fst snd] in *. cbn [mret outcome_ret mbind outcome_bind].
    rewrite batch_result_returns by (done || lia).
    cbn [mbind outcome_bind mret outcome_ret].
    eexists _, _. split; [reflexivity|]. cbn.
    split; [reflexivity|]. cbn. split; [done|]. split; [lia|]. done.
Qed.

Lemma batch_gather_sequential (st : indexer vec) request qs :
    Forall (fun q => buildable request q = true) qs ->
    exists tasks,
      build_requests request qs = Returns tasks /\
      Api.batch_gather encode normalize_L2 index_search answer_generator
        chat_completion st tasks
      = Api.batch_sequential encode normalize_L2 index_search answer_generator
          chat_completion st request qs.
Proof.
    induction 1 as [|q qs Hq _ (tasks & Hbuild & Hgather)].
    { by exists []. }
    unfold buildable in Hq.
    destruct (individual_request request q) as [r|e] eqn:Hreq; [|done].
    exists ((q, r) :: tasks). split.
    - cbn [build_requests]. by rewrite Hreq, Hbuild.
    - rewrite batch_sequential_cons, Hreq. cbv zeta.
      cbn [Api.batch_gather]. rewrite Hgather.
      destruct (Api.batch_sequential _ _ _ _ _ st request qs)
        as [results failed].
      cbn [fst snd]. by destruct (Api.engine_query _ _ _ _ _ st r).
Qed.

Lemma build_requests_fails request qs :
    ~ Forall (fun q => buildable request q = true) qs ->
    exists e, build_requests request qs = Raises e.
Proof.
    induction qs as [|q qs IH]; intros Hbad.
    { by destruct Hbad. }
    cbn [build_requests].
    destruct (individual_request request q) as [r|e] eqn:Hreq;
      [|by exists e].
    destruct IH as [e He].
    { intros Hall. apply Hbad. constructor; [|done].
      unfold buildable. by rewrite Hreq. }
    exists e. by rewrite He.
Qed.

Lemma batch_sequential_mode (st : indexer vec) qs0 f m thr b b' qs :
    Api.batch_sequential encode normalize_L2 index_search answer_generator
      chat_completion st (batch_request qs0 f m thr b) qs
    = Api.batch_sequential encode normalize_L2 index_search answer_generator
        chat_completion st (batch_request qs0 f m thr b') qs.
Proof.
    induction qs as [|q qs IH]; [done|].
    rewrite !batch_sequential_cons, IH. done.
Qed.

(** X28. The parallel branch builds every request before any query runs:
    if each query's request can be built the batch answers exactly as
    the sequential one, and if one cannot (a query shorter than 3
    characters, say) the whole batch is an HTTP 500, where the
    sequential branch would list that query in [failed_queries]. *)
Theorem batch_parallel_all_or_nothing (st : indexer vec) qs f m thr :
    (1 <= length qs <= 50)%nat ->
    (Forall (fun q => buildable (batch_request qs f m thr true) q = true) qs ->
     Api.batch_query_documents encode normalize_L2 index_search
       answer_generator chat_completion st (batch_request qs f m thr true)
     = Api.batch_query_documents encode normalize_L2 index_search
         answer_generator chat_completion st (batch_request qs f m thr false)) /\
    (~ Forall (fun q => buildable (batch_request qs f m thr true) q = true) qs ->
     Api.batch_query_documents encode normalize_L2 index_search
       answer_generator chat_completion st (batch_request qs f m thr true)
     = HttpError 500).
Proof.
    intros Hlen. unfold Api.batch_query_documents.
    cbn [queries parallel_processing batch_request].
    destruct qs as [|q0 qs0] eqn:Hqs; [simpl in Hlen; lia|].
    rewrite <- Hqs in *.
    destruct (Z.ltb_spec 50 (Z.of_nat (length qs))); [lia|]. split.
    - intros Hall.
      destruct (batch_gather_sequential st _ _ Hall) as (tasks & -> & Hg).
      cbn [mbind outcome_bind mret outcome_ret]. rewrite Hg.
      by rewrite (batch_sequential_mode st qs f m thr true false).
    - intros Hbad. destruct (build_requests_fails _ _ Hbad) as [e ->]. done.
Qed.

Lemma delete_documents_index (st : indexer vec) ids :
    index (delete_documents st ids).1 = index st.
Proof.
    unfold delete_documents. destruct (index st) eqn:Hidx; [|done].
    destruct ((filter _ (store_items (document_store st))).*1); [done|].
    by destruct (foldl _ _ _).
Qed.


(** X30. A delete of 1 to 1000 documents always succeeds, removes the
    chunks of the named documents, and reports [indexed_documents = 0]
    with an [index_size] equal to the size before the call: deletion
    does not shrink the index. An operation other than upsert and
    delete, ["update"] included although the request model accepts
    it, is answered with an HTTP 500 and changes nothing. *)
Theorem update_index_other_operations (st : indexer vec) request :
    operation request <> "upsert"%string ->
    (1 <= length (documents request) <= 1000)%nat ->
    (operation request = "delete"%string ->
     exists response,
       update_index encode st request
       = ((delete_documents st (map in_document_id (documents request))).1,
          Ok response) /\
       index_data response
       = Some {| indexed_documents := 0; failed_documents := [];
                 index_size := Some (ntotal st) |}) /\
    (operation request <> "delete"%string ->
     update_index encode st request = (st, HttpError 500)).
Proof.
    intros Hop Hlen. unfold update_index.
    destruct (documents request) as [|d0 ds0] eqn:Hdocs; [simpl in Hlen; lia|].
    rewrite <- Hdocs in *.
    destruct (Z.ltb_spec 1000 (Z.of_nat (length (documents request)))); [lia|].
    destruct (String.eqb_spec (operation request) "upsert"); [done|].
    split.
    - intros Hdel. rewrite Hdel. cbn [String.eqb Ascii.eqb Bool.eqb andb].
      pose proof (delete_documents_index st
                    (map in_document_id (documents request))) as Hidx.
      destruct (delete_documents st _) as [st' deleted]. cbn [fst] in *.
      eexists. split; [reflexivity|]. cbn.
      unfold ntotal. by rewrite Hidx.
    - intros Hdel.
      by destruct (String.eqb_spec (operation request) "delete").
Qed.

End EndpointFacts.

Section EngineRuns.
Import Py Indexer Query FilterKeys IndexerMore QueryMore Persistence Api ApiMore.

Lemma keyword_mode_never_error_witness :
    exists res,
      query encode_two normalize_1d flat_search_1d true chat_fault
            indexer_D1 request_keyword = Returns res /\
      answer_type (res_answer res) <> "error"%string /\
      Z.of_nat (length (sources (res_answer res))) = search_results_count res.
Proof.
    exact (keyword_mode_never_error encode_two normalize_1d flat_search_1d
             true chat_fault indexer_D1 request_keyword eq_refl).
Defined.

Lemma search_documents_bounds_witness :
    Forall (fun r => (confidence_threshold request_semantic <= r_score r)%Qc)
           (_search_documents encode_two normalize_1d flat_search_1d
                              indexer_D1 request_semantic) /\
    Z.of_nat (length (_search_documents encode_two normalize_1d flat_search_1d
                                        indexer_D1 request_semantic))
      <= max_results request_semantic.
Proof.
    apply search_documents_bounds. simpl. lia.
Defined.

Lemma query_no_live_chunks_witness :
    exists res,
      query encode_fault normalize_1d flat_search_1d true chat_fault
            (delete_documents indexer_D1 ["D1"%string]).1 request_semantic
        = Returns res /\
      answer_type (res_answer res) = "not_found"%string /\
      confidence (res_answer res) = 0%Qc /\
      sources (res_answer res) = [] /\
      search_results_count res = 0.
Proof.
    apply query_no_live_chunks. vm_compute. reflexivity.
Defined.

Lemma save_load_round_trip_witness :
    _load_index
      (_save_index Written Written
         {| index_file := Absent; store_file := Corrupt |} indexer_D1)
    = indexer_D1.
Proof.
    exact (save_load_round_trip
             {| index_file := Absent; store_file := Corrupt |}
             indexer_D1 [Q2Qc 2] eq_refl).
Defined.

Lemma batch_sequential_accounting_witness :
    exists response result,
      batch_query_documents encode_two normalize_1d flat_search_1d false
        chat_fault indexer_D1
        (batch_request ["monthly payment"; "ab"]%string None 10
                       (Q2Qc (1 # 2)) false) = Ok response /\
      batch_data response = Some result /\
      total_queries result = 2 /\
      successful_queries result + Z.of_nat (length (failed_queries result))
        = total_queries result /\
      failed_queries result = ["ab"%string] /\
      map res_query (results result) = ["monthly payment"%string].
Proof.
    assert (1 <= length (queries (batch_request
                                    ["monthly payment"; "ab"]%string None 10
                                    (Q2Qc (1 # 2)) false)) <= 50)%nat as Hlen
      by (simpl; lia).
    exact (batch_sequential_accounting encode_two normalize_1d flat_search_1d
             false chat_fault indexer_D1
             (batch_request ["monthly payment"; "ab"]%string None 10
                            (Q2Qc (1 # 2)) false)
             eq_refl Hlen).
Defined.

Lemma batch_parallel_all_or_nothing_witness :
    batch_query_documents encode_two normalize_1d flat_search_1d false
      chat_fault indexer_D1
      (batch_request ["monthly payment"; "ab"]%string None 10
                     (Q2Qc (1 # 2)) true) = HttpError 500.
Proof.
    assert (1 <= length ["monthly payment"; "ab"]%string <= 50)%nat as Hlen
      by (simpl; lia).
    refine (proj2 (batch_parallel_all_or_nothing encode_two normalize_1d
                     flat_search_1d false chat_fault indexer_D1
                     ["monthly payment"; "ab"]%string None 10 (Q2Qc (1 # 2))
                     Hlen) _).
    intros Hall. apply Forall_cons in Hall as [_ Hall].
    apply Forall_cons in Hall as [Hab _]. vm_compute in Hab. discriminate.
Defined.


Lemma update_index_other_operations_witness :
    update_index encode_two indexer_D1
      {| documents := [index_document_D1]; operation := "update" |}
    = (indexer_D1, HttpError 500).
Proof.
    assert (1 <= length [index_document_D1] <= 1000)%nat as Hlen
      by (simpl; lia).
    refine (proj2 (update_index_other_operations encode_two indexer_D1
                     {| documents := [index_document_D1];
                        operation := "update" |} _ Hlen) _);
      simpl; discriminate.
Defined.

End EngineRuns.
